(** * photoDiary: the photo-record store, the random selection with its
      month/year filters, the upload reconciler with the callbacks of
      its upload middleware, and the admin guard of [photo-app/backend]
      (an Express server), and the scripts of its two pages, embedded as
      Rocq functions.

    The handlers are translated statement by statement.  What the server
    reads from its surroundings is an explicit input: the file system
    ([world]), the request, the value returned by [Math.random()], the
    clock ([new Date()]).  An exception thrown by JavaScript is a [Throw]
    of the [result] monad.

    JavaScript's own library is modelled as far as the handlers use it:
    strings are lists of UTF-16 code units, [JSON.parse] and
    [JSON.stringify] work on them, [Date] follows the calendar arithmetic
    of ECMA-262.  Two things of the host are parameters of the
    development, because ECMA-262 leaves them to the implementation: the
    local time zone ([LocalTZA]) and how [Date.parse] reads a string
    ([Date_parse]); together they are a [host].  A third one is a
    parameter where it is used, the lower-casing of a string
    ([toLowerCase]), which follows the Unicode tables of the host.

    Of the libraries of Node, [path.extname] is modelled after its POSIX
    implementation, and the upload middleware (multer) by what it does
    with the callbacks the server gives it.  A page is modelled from the
    answer of its [fetch] on: what arrives is the text [res.json] sent,
    and what the script assigns to the photo container is its result. *)

From Stdlib Require Import String Ascii.
From Stdlib Require Import ZArith NArith List Bool Lia.
Import ListNotations.

Local Open Scope Z_scope.

(** ** Strings: sequences of UTF-16 code units *)

Definition jsstring := list N.

(** A literal of the source, as code units (the literals are all ASCII). *)
Definition u (s : string) : jsstring :=
  map N_of_ascii (list_ascii_of_string s).

Definition ch (a : ascii) : N := N_of_ascii a.

Fixpoint jsstring_eqb (a b : jsstring) : bool :=
  match a, b with
  | [], [] => true
  | x :: a', y :: b' => N.eqb x y && jsstring_eqb a' b'
  | _, _ => false
  end.

(** [s.startsWith(p)] *)
Fixpoint startsWith (p s : jsstring) : bool :=
  match p, s with
  | [], _ => true
  | x :: p', y :: s' => N.eqb x y && startsWith p' s'
  | _ :: _, [] => false
  end.

(** [s.slice(n)] for [0 <= n] *)
Definition slice (n : nat) (s : jsstring) : jsstring := skipn n s.

(** [items.join(sep)] *)
Fixpoint join (sep : jsstring) (items : list jsstring) : jsstring :=
  match items with
  | [] => []
  | [x] => x
  | x :: rest => x ++ sep ++ join sep rest
  end.

(** ASCII lower-casing of one code unit: what a case-insensitive regular
    expression without the [u] flag compares an ASCII letter with (a code
    unit above 127 never canonicalizes to an ASCII one). *)
Definition ascii_lower (c : N) : N :=
  if (N.leb 65 c && N.leb c 90)%bool then (c + 32)%N else c.

Fixpoint ci_eqb (a b : jsstring) : bool :=
  match a, b with
  | [], [] => true
  | x :: a', y :: b' => N.eqb (ascii_lower x) (ascii_lower y) && ci_eqb a' b'
  | _, _ => false
  end.

(** ** Decimal digits *)

Definition digit_char (d : Z) : N := (48 + Z.to_N d)%N.

Definition is_digit (c : N) : bool := (N.leb 48 c && N.leb c 57)%bool.

Definition digit_val (c : N) : Z := Z.of_N c - 48.

Fixpoint digits_aux (fuel : nat) (n : Z) (acc : jsstring) : jsstring :=
  match fuel with
  | O => acc
  | S f =>
      let acc' := digit_char (n mod 10) :: acc in
      if n / 10 =? 0 then acc' else digits_aux f (n / 10) acc'
  end.

(** The decimal digits of [n >= 0], most significant first, no leading
    zero (["0"] for zero). *)
Definition digits (n : Z) : jsstring :=
  digits_aux (S (Z.to_nat (Z.log2 n))) n [].

(** The number a digit string denotes. *)
Definition digits_val (s : jsstring) : Z :=
  fold_left (fun acc c => 10 * acc + digit_val c) s 0.

(** [n] written with at least [w] digits, zero-padded on the left. *)
Definition pad (w : nat) (n : Z) : jsstring :=
  let d := digits n in
  repeat (ch "0") (w - length d) ++ d.

(** ** Numbers

    A number read from JSON text is kept as the exact decimal
    [m * 10^e] it was written as, normalized ([m] has no trailing zero;
    zero is [Fin 0 0]), or as an infinity when the literal is beyond the
    binary64 range.  The rounding of the significand to 53 bits is not
    modelled; [-0] is identified with [0], as [===] does. *)

Inductive number : Type :=
| Fin (m e : Z)
| Inf (negative : bool).

Definition number_eqb (a b : number) : bool :=
  match a, b with
  | Fin m e, Fin m' e' => (m =? m') && (e =? e')
  | Inf s, Inf s' => Bool.eqb s s'
  | _, _ => false
  end.

Fixpoint strip_zeros (fuel : nat) (m e : Z) : Z * Z :=
  match fuel with
  | O => (m, e)
  | S f => if m mod 10 =? 0 then strip_zeros f (m / 10) (e + 1) else (m, e)
  end.

Definition normalize (m e : Z) : number :=
  if m =? 0 then Fin 0 0
  else let '(m', e') := strip_zeros (S (Z.to_nat (Z.log2 (Z.abs m)))) m e in
       Fin m' e'.

(** The exponent part of a number's text: [e], a sign and the digits of
    the exponent. *)
Definition exponent_text (ex : Z) : jsstring :=
  u "e" ++ (if ex <? 0 then u "-" else u "+") ++ digits (Z.abs ex).

(** [Number::toString] (radix 10) on a positive [m]: [k] digits, decimal
    point after the [n]-th. *)
Definition positive_toString (m e : Z) : jsstring :=
  let s := digits m in
  let k := Z.of_nat (length s) in
  let n := k + e in
  if (k <=? n) && (n <=? 21) then
    s ++ repeat (ch "0") (Z.to_nat (n - k))
  else if (0 <? n) && (n <=? 21) then
    firstn (Z.to_nat n) s ++ u "." ++ skipn (Z.to_nat n) s
  else if (-6 <? n) && (n <=? 0) then
    u "0." ++ repeat (ch "0") (Z.to_nat (- n)) ++ s
  else
    match s with
    | [d] => [d] ++ exponent_text (n - 1)
    | d :: rest => [d] ++ u "." ++ rest ++ exponent_text (n - 1)
    | [] => []
    end.

Definition number_toString (x : number) : jsstring :=
  match x with
  | Inf false => u "Infinity"
  | Inf true => u "-Infinity"
  | Fin m e =>
      if m =? 0 then u "0"
      else if m <? 0 then u "-" ++ positive_toString (- m) e
      else positive_toString m e
  end.

(** [ToIntegerOrInfinity] of a finite number: truncation toward zero. *)
Definition trunc (m e : Z) : Z :=
  if 0 <=? e then m * 10 ^ e else Z.quot m (10 ^ (- e)).

(** ** Values

    What [JSON.parse] can return.  An object is its own properties in
    order; a property read that finds nothing yields [undefined], which is
    [None] of [option json]. *)

#[local] Set Warnings "-register-all".

Inductive json : Type :=
| JNull
| JBool (b : bool)
| JNum (x : number)
| JStr (s : jsstring)
| JArr (items : list json)
| JObj (props : list (jsstring * json)).

Definition jsval := option json.

Definition undefined : jsval := None.

Fixpoint lookup (k : jsstring) (props : list (jsstring * json)) : jsval :=
  match props with
  | [] => None
  | (k', v) :: rest => if jsstring_eqb k k' then Some v else lookup k rest
  end.

(** [ToBoolean] *)
Definition json_truthy (v : json) : bool :=
  match v with
  | JNull => false
  | JBool b => b
  | JNum (Fin m _) => negb (m =? 0)
  | JNum (Inf _) => true
  | JStr s => negb (jsstring_eqb s [])
  | JArr _ | JObj _ => true
  end.

Definition truthy (v : jsval) : bool :=
  match v with
  | None => false
  | Some j => json_truthy j
  end.

(** [a || b] *)
Definition js_or (a b : jsval) : jsval := if truthy a then a else b.

(** [ToString]; inside [Array.prototype.join], [null] is the empty
    string. *)
Fixpoint json_toString (v : json) : jsstring :=
  match v with
  | JNull => u "null"
  | JBool true => u "true"
  | JBool false => u "false"
  | JNum x => number_toString x
  | JStr s => s
  | JArr items =>
      join (u ",")
        (map (fun i => match i with JNull => [] | _ => json_toString i end)
           items)
  | JObj _ => u "[object Object]"
  end.

Definition ToString (v : jsval) : jsstring :=
  match v with
  | None => u "undefined"
  | Some j => json_toString j
  end.

(** An object literal whose property values may be [undefined], as
    [res.json] sends it: [JSON.stringify] leaves such properties out. *)
Fixpoint object_of (props : list (jsstring * jsval)) : list (jsstring * json) :=
  match props with
  | [] => []
  | (k, Some v) :: rest => (k, v) :: object_of rest
  | (_, None) :: rest => object_of rest
  end.

(** ** Exceptions *)

(** A thrown [Error]: its [code] property, when it has one, and its
    [message]. *)
Record jserror : Type := mkError {
  err_code : option jsstring;
  err_message : jsstring
}.

Inductive result (A : Type) : Type :=
| Ok (a : A)
| Throw (e : jserror).

Arguments Ok {A} a.
Arguments Throw {A} e.

Definition bind {A B : Type} (r : result A) (f : A -> result B) : result B :=
  match r with
  | Ok a => f a
  | Throw e => Throw e
  end.

Notation "x <- c ;; k" := (bind c (fun x => k))
  (at level 61, c at next level, right associativity).

(** [try { body } catch (e) { handler }] *)
Definition try_catch {A : Type} (body : result A) (handler : jserror -> A) : A :=
  match body with
  | Ok a => a
  | Throw e => handler e
  end.

(** [list.filter(f)] with a callback that may throw: the first exception
    ends the loop. *)
Fixpoint filterM {A : Type} (f : A -> result bool) (l : list A) : result (list A) :=
  match l with
  | [] => Ok []
  | x :: rest =>
      keep <- f x ;;
      rest' <- filterM f rest ;;
      Ok (if keep then x :: rest' else rest')
  end.

(** The properties the handlers read from a record. *)
Inductive field : Type := filename | url | uploadedAt | dateUploaded.

Definition field_name (f : field) : jsstring :=
  match f with
  | filename => u "filename"
  | url => u "url"
  | uploadedAt => u "uploadedAt"
  | dateUploaded => u "dateUploaded"
  end.

(** The message of V8's [TypeError] for a property read on [null]. *)
Definition TypeError_null (f : field) : jserror :=
  mkError None
    (u "Cannot read properties of null (reading '" ++ field_name f ++ u "')").

(** [p.f] for an element [p] of the parsed list.  Reading a property of
    [null] throws; a boolean, number, string or array has none of the four
    properties (neither own nor inherited), and an object has the ones it
    was parsed with. *)
Definition getProp (p : json) (f : field) : result jsval :=
  match p with
  | JNull => Throw (TypeError_null f)
  | JObj props => Ok (lookup (field_name f) props)
  | _ => Ok undefined
  end.

(** ** Dates: time values and the calendar (ECMA-262, 21.4.1)

    A time value is a number of milliseconds since 1970-01-01T00:00:00Z,
    or [NaN] ([None]) for an invalid date. *)

Definition timevalue := option Z.

Definition msPerDay : Z := 86400000.

Definition Day (t : Z) : Z := t / msPerDay.

Definition TimeWithinDay (t : Z) : Z := t mod msPerDay.

Definition isLeap (y : Z) : bool :=
  (y mod 4 =? 0) && (negb (y mod 100 =? 0) || (y mod 400 =? 0)).

Definition DaysInYear (y : Z) : Z := if isLeap y then 366 else 365.

Definition DayFromYear (y : Z) : Z :=
  365 * (y - 1970) + (y - 1969) / 4 - (y - 1901) / 100 + (y - 1601) / 400.

(** The year a day number falls in: the largest [y] with
    [DayFromYear y <= d], found from the mean year length and corrected
    by one where the estimate is off. *)
Definition YearFromDay (d : Z) : Z :=
  let y := 1970 + (400 * d) / 146097 in
  if d <? DayFromYear y then y - 1
  else if DayFromYear (y + 1) <=? d then y + 1
  else y.

Definition YearFromTime (t : Z) : Z := YearFromDay (Day t).

Definition InLeapYear (t : Z) : Z :=
  if isLeap (YearFromTime t) then 1 else 0.

Definition DayWithinYear (t : Z) : Z := Day t - DayFromYear (YearFromTime t).

(** The day within the year on which month [m] (0 to 11) starts. *)
Definition month_start (leap m : Z) : Z :=
  match m with
  | 0 => 0
  | 1 => 31
  | 2 => 59 + leap
  | 3 => 90 + leap
  | 4 => 120 + leap
  | 5 => 151 + leap
  | 6 => 181 + leap
  | 7 => 212 + leap
  | 8 => 243 + leap
  | 9 => 273 + leap
  | 10 => 304 + leap
  | 11 => 334 + leap
  | _ => 365 + leap
  end.

Definition MonthFromTime (t : Z) : Z :=
  let d := DayWithinYear t in
  let leap := InLeapYear t in
  if d <? 31 then 0
  else if d <? 59 + leap then 1
  else if d <? 90 + leap then 2
  else if d <? 120 + leap then 3
  else if d <? 151 + leap then 4
  else if d <? 181 + leap then 5
  else if d <? 212 + leap then 6
  else if d <? 243 + leap then 7
  else if d <? 273 + leap then 8
  else if d <? 304 + leap then 9
  else if d <? 334 + leap then 10
  else 11.

Definition DateFromTime (t : Z) : Z :=
  DayWithinYear t - month_start (InLeapYear t) (MonthFromTime t) + 1.

Definition HourFromTime (t : Z) : Z := (t / 3600000) mod 24.
Definition MinFromTime (t : Z) : Z := (t / 60000) mod 60.
Definition SecFromTime (t : Z) : Z := (t / 1000) mod 60.
Definition msFromTime (t : Z) : Z := t mod 1000.

(** [MakeDay], [MakeTime] and [MakeDate] for fields already in range
    (month 0 to 11, date from 1). *)
Definition MakeDate (y m d h mi s ms : Z) : Z :=
  (DayFromYear y + month_start (if isLeap y then 1 else 0) m + (d - 1))
    * msPerDay
  + h * 3600000 + mi * 60000 + s * 1000 + ms.

(** Whether [|m * 10^e|] is greater than [limit]. *)
Definition exceeds (m e limit : Z) : bool :=
  if 0 <=? e then limit <? Z.abs m * 10 ^ e
  else limit * 10 ^ (- e) <? Z.abs m.

(** [TimeClip]: no time value beyond 8.64e15 ms from the epoch;
    otherwise the integral part. *)
Definition TimeClip (x : number) : timevalue :=
  match x with
  | Inf _ => None
  | Fin m e =>
      if exceeds m e 8640000000000000 then None else Some (trunc m e)
  end.

(** [Date.prototype.toISOString] of a valid time value:
    [YYYY-MM-DDTHH:mm:ss.sssZ], the year with a sign and six digits when
    it is outside 0 to 9999. *)
Definition toISOString (t : Z) : jsstring :=
  let y := YearFromTime t in
  let year :=
    if (0 <=? y) && (y <=? 9999) then pad 4 y
    else (if y <? 0 then u "-" else u "+") ++ pad 6 (Z.abs y) in
  year ++ u "-" ++ pad 2 (MonthFromTime t + 1) ++ u "-" ++ pad 2 (DateFromTime t)
  ++ u "T" ++ pad 2 (HourFromTime t) ++ u ":" ++ pad 2 (MinFromTime t)
  ++ u ":" ++ pad 2 (SecFromTime t) ++ u "." ++ pad 3 (msFromTime t) ++ u "Z".

(** ** [JSON.parse]

    The grammar of ECMA-404.  [None] is the [SyntaxError] that
    [JSON.parse] throws. *)

Definition is_ws (c : N) : bool :=
  (N.eqb c 32 || N.eqb c 9 || N.eqb c 10 || N.eqb c 13)%bool.

Fixpoint skip_ws (s : jsstring) : jsstring :=
  match s with
  | c :: rest => if is_ws c then skip_ws rest else s
  | [] => []
  end.

(** The longest prefix whose code units satisfy [p], and what follows. *)
Fixpoint span (p : N -> bool) (s : jsstring) : jsstring * jsstring :=
  match s with
  | c :: rest =>
      if p c then let '(a, b) := span p rest in (c :: a, b) else ([], s)
  | [] => ([], [])
  end.

Definition hex_val (c : N) : option N :=
  if is_digit c then Some (c - 48)%N
  else if (N.leb 97 c && N.leb c 102)%bool then Some (c - 87)%N
  else if (N.leb 65 c && N.leb c 70)%bool then Some (c - 55)%N
  else None.

Definition hex4 (a b c d : N) : option N :=
  match hex_val a, hex_val b, hex_val c, hex_val d with
  | Some x, Some y, Some z, Some w => Some (x * 4096 + y * 256 + z * 16 + w)%N
  | _, _, _, _ => None
  end.

(** The code unit a one-letter escape stands for. *)
Definition unescape (e : N) : option N :=
  if N.eqb e 34 then Some 34%N          (* quotation mark *)
  else if N.eqb e 92 then Some 92%N     (* reverse solidus *)
  else if N.eqb e 47 then Some 47%N     (* solidus *)
  else if N.eqb e 98 then Some 8%N      (* b: backspace *)
  else if N.eqb e 102 then Some 12%N    (* f: form feed *)
  else if N.eqb e 110 then Some 10%N    (* n: line feed *)
  else if N.eqb e 114 then Some 13%N    (* r: carriage return *)
  else if N.eqb e 116 then Some 9%N     (* t: tab *)
  else None.

Definition cons_fst (c : N) (r : option (jsstring * jsstring)) :
  option (jsstring * jsstring) :=
  match r with
  | Some (str, rest) => Some (c :: str, rest)
  | None => None
  end.

(** A string's characters, from after the opening quote to the closing
    one: the string, and the text after it. *)
Fixpoint parse_chars (s : jsstring) : option (jsstring * jsstring) :=
  match s with
  | [] => None
  | c :: rest =>
      if N.eqb c 34 then Some ([], rest)
      else if N.eqb c 92 then
        match rest with
        | [] => None
        | e :: rest1 =>
            if N.eqb e 117 then
              match rest1 with
              | h1 :: h2 :: h3 :: h4 :: rest2 =>
                  match hex4 h1 h2 h3 h4 with
                  | Some v => cons_fst v (parse_chars rest2)
                  | None => None
                  end
              | _ => None
              end
            else
              match unescape e with
              | Some v => cons_fst v (parse_chars rest1)
              | None => None
              end
        end
      else if N.ltb c 32 then None
      else cons_fst c (parse_chars rest)
  end.

(** The number a literal [m * 10^e] ([m > 0]) is read as: infinite from
    [2^1024 - 2^970] on (the midpoint above the largest binary64 number
    rounds up), zero up to [2^-1075] (the midpoint below the smallest one
    rounds down).  Magnitudes far outside are settled from the position
    of the decimal point, without computing the power. *)
Definition position (m e : Z) : Z := Z.of_nat (length (digits m)) + e.

Definition overflows (m e : Z) : bool :=
  if 310 <? position m e then true
  else if position m e <? -330 then false
  else if 0 <=? e then 2 ^ 1024 - 2 ^ 970 <=? m * 10 ^ e
  else (2 ^ 1024 - 2 ^ 970) * 10 ^ (- e) <=? m.

Definition underflows (m e : Z) : bool :=
  if 310 <? position m e then false
  else if position m e <? -330 then true
  else if 0 <=? e then false
  else m * 2 ^ 1075 <=? 10 ^ (- e).

Definition number_of_decimal (negative : bool) (m e : Z) : number :=
  if m =? 0 then Fin 0 0
  else if overflows m e then Inf negative
  else if underflows m e then Fin 0 0
  else normalize (if negative then - m else m) e.

Definition is_numchar (c : N) : bool :=
  (is_digit c || N.eqb c 45 || N.eqb c 43 || N.eqb c 46
   || N.eqb c 101 || N.eqb c 69)%bool.

Definition nonempty (s : jsstring) : bool :=
  match s with [] => false | _ => true end.

(** The exponent part of a number token: empty, or [e]/[E], an optional
    sign and at least one digit. *)
Definition exponent_of (t : jsstring) : option Z :=
  match t with
  | [] => Some 0
  | c :: t1 =>
      if (N.eqb c 101 || N.eqb c 69)%bool then
        let '(sign, ds) :=
          match t1 with
          | s :: t2 =>
              if N.eqb s 43 then (1, t2)
              else if N.eqb s 45 then (-1, t2)
              else (1, t1)
          | [] => (1, t1)
          end in
        if nonempty ds && forallb is_digit ds
        then Some (sign * digits_val ds) else None
      else None
  end.

(** A number token after its sign: an integer part without a leading
    zero (or a lone zero), an optional fraction with at least one digit,
    an optional exponent. *)
Definition unsigned_number (negative : bool) (t1 : jsstring) : option number :=
  let '(int, t2) := span is_digit t1 in
  let int_ok :=
    match int with
    | [] => false
    | [_] => true
    | c :: _ => negb (N.eqb c 48)
    end in
  let '(frac, t3, frac_ok) :=
    match t2 with
    | c :: t =>
        if N.eqb c 46
        then let '(f, t') := span is_digit t in (f, t', nonempty f)
        else ([], t2, true)
    | [] => ([], t2, true)
    end in
  if int_ok && frac_ok then
    match exponent_of t3 with
    | Some ex =>
        Some (number_of_decimal negative (digits_val (int ++ frac))
                (ex - Z.of_nat (length frac)))
    | None => None
    end
  else None.

(** A whole number token: an optional minus, then the number. *)
Definition number_of_token (tok : jsstring) : option number :=
  match tok with
  | c :: t => if N.eqb c 45 then unsigned_number true t
              else unsigned_number false tok
  | [] => unsigned_number false tok
  end.

(** [obj[k] = v] while parsing: a repeated name keeps its place and takes
    the later value. *)
Fixpoint obj_set (k : jsstring) (v : json) (props : list (jsstring * json)) :
  list (jsstring * json) :=
  match props with
  | [] => [(k, v)]
  | (k', v') :: rest =>
      if jsstring_eqb k k' then (k', v) :: rest
      else (k', v') :: obj_set k v rest
  end.

Definition is_literal (lit : string) (s : jsstring) : bool := startsWith (u lit) s.

Definition after_literal (lit : string) (s : jsstring) : jsstring :=
  skipn (String.length lit) s.

(** A value, with the white space before it; the elements of an array
    after its first bracket; the members of an object after its first
    brace.  Each returns what it read and the text that follows.  The
    fuel bounds the recursion: [JSON_parse] gives two units per code unit
    of text. *)
Fixpoint parse_value (fuel : nat) (s : jsstring) : option (json * jsstring) :=
  match fuel with
  | O => None
  | S f =>
      match skip_ws s with
      | [] => None
      | c :: rest =>
          if N.eqb c 34 then
            match parse_chars rest with
            | Some (str, rest') => Some (JStr str, rest')
            | None => None
            end
          else if N.eqb c 91 then
            match skip_ws rest with
            | c' :: rest' =>
                if N.eqb c' 93 then Some (JArr [], rest')
                else
                  match parse_elements f rest with
                  | Some (items, rest'') => Some (JArr items, rest'')
                  | None => None
                  end
            | [] => None
            end
          else if N.eqb c 123 then
            match skip_ws rest with
            | c' :: rest' =>
                if N.eqb c' 125 then Some (JObj [], rest')
                else
                  match parse_members f rest with
                  | Some (members, rest'') =>
                      Some (JObj (fold_left (fun o kv => obj_set (fst kv) (snd kv) o)
                                    members []), rest'')
                  | None => None
                  end
            | [] => None
            end
          else if (is_digit c || N.eqb c 45)%bool then
            let '(tok, rest') := span is_numchar (c :: rest) in
            match number_of_token tok with
            | Some x => Some (JNum x, rest')
            | None => None
            end
          else if is_literal "true" (c :: rest) then
            Some (JBool true, after_literal "true" (c :: rest))
          else if is_literal "false" (c :: rest) then
            Some (JBool false, after_literal "false" (c :: rest))
          else if is_literal "null" (c :: rest) then
            Some (JNull, after_literal "null" (c :: rest))
          else None
      end
  end
with parse_elements (fuel : nat) (s : jsstring) : option (list json * jsstring) :=
  match fuel with
  | O => None
  | S f =>
      match parse_value f s with
      | Some (v, rest) =>
          match skip_ws rest with
          | c :: rest' =>
              if N.eqb c 44 then
                match parse_elements f rest' with
                | Some (vs, rest'') => Some (v :: vs, rest'')
                | None => None
                end
              else if N.eqb c 93 then Some ([v], rest')
              else None
          | [] => None
          end
      | None => None
      end
  end
with parse_members (fuel : nat) (s : jsstring) :
  option (list (jsstring * json) * jsstring) :=
  match fuel with
  | O => None
  | S f =>
      match skip_ws s with
      | q :: s1 =>
          if N.eqb q 34 then
            match parse_chars s1 with
            | Some (k, s2) =>
                match skip_ws s2 with
                | colon :: s3 =>
                    if N.eqb colon 58 then
                      match parse_value f s3 with
                      | Some (v, rest) =>
                          match skip_ws rest with
                          | c :: rest' =>
                              if N.eqb c 44 then
                                match parse_members f rest' with
                                | Some (ms, rest'') => Some ((k, v) :: ms, rest'')
                                | None => None
                                end
                              else if N.eqb c 125 then Some ([(k, v)], rest')
                              else None
                          | [] => None
                          end
                      | None => None
                      end
                    else None
                | [] => None
                end
            | None => None
            end
          else None
      | [] => None
      end
  end.

(** [JSON.parse(text)]: one value, white space around it, nothing else. *)
Definition JSON_parse (text : jsstring) : option json :=
  match parse_value (2 * length text + 2) text with
  | Some (v, rest) =>
      match skip_ws rest with
      | [] => Some v
      | _ :: _ => None
      end
  | None => None
  end.

(** ** [JSON.stringify(value, null, 2)] *)

Definition hex_digit (d : N) : N :=
  if N.ltb d 10 then (48 + d)%N else (87 + d)%N.

Definition unicode_escape (c : N) : jsstring :=
  [92%N; 117%N;
   hex_digit (c / 4096 mod 16); hex_digit (c / 256 mod 16);
   hex_digit (c / 16 mod 16); hex_digit (c mod 16)].

Definition is_high_surrogate (c : N) : bool := (N.leb 55296 c && N.leb c 56319)%bool.
Definition is_low_surrogate (c : N) : bool := (N.leb 56320 c && N.leb c 57343)%bool.

(** How [QuoteJSONString] writes a code unit that is no surrogate. *)
Definition quote_unit (c : N) : jsstring :=
  if N.eqb c 8 then [92; 98]%N
  else if N.eqb c 9 then [92; 116]%N
  else if N.eqb c 10 then [92; 110]%N
  else if N.eqb c 12 then [92; 102]%N
  else if N.eqb c 13 then [92; 114]%N
  else if N.eqb c 34 then [92; 34]%N
  else if N.eqb c 92 then [92; 92]%N
  else if N.ltb c 32 then unicode_escape c
  else [c].

(** A surrogate pair is written as it is, a lone surrogate as an
    escape. *)
Fixpoint quote_chars (s : jsstring) : jsstring :=
  match s with
  | [] => []
  | c :: rest =>
      if is_high_surrogate c then
        match rest with
        | l :: rest' =>
            if is_low_surrogate l then c :: l :: quote_chars rest'
            else unicode_escape c ++ quote_chars rest
        | [] => unicode_escape c
        end
      else if is_low_surrogate c then unicode_escape c ++ quote_chars rest
      else quote_unit c ++ quote_chars rest
  end.

Definition QuoteJSONString (s : jsstring) : jsstring :=
  [34%N] ++ quote_chars s ++ [34%N].

(** A non-finite number is written as [null]. *)
Definition stringify_number (x : number) : jsstring :=
  match x with
  | Fin _ _ => number_toString x
  | Inf _ => u "null"
  end.

Definition newline : jsstring := [10%N].

(** [SerializeJSONProperty] with a gap of two spaces, at indentation
    [indent]. *)
Fixpoint stringify_at (indent : jsstring) (v : json) : jsstring :=
  let stepback := indent in
  let indent := indent ++ u "  " in
  let separator := u "," ++ newline ++ indent in
  match v with
  | JNull => u "null"
  | JBool true => u "true"
  | JBool false => u "false"
  | JNum x => stringify_number x
  | JStr s => QuoteJSONString s
  | JArr [] => u "[]"
  | JArr items =>
      u "[" ++ newline ++ indent
      ++ join separator (map (fun i => stringify_at indent i) items)
      ++ newline ++ stepback ++ u "]"
  | JObj [] => u "{}"
  | JObj props =>
      u "{" ++ newline ++ indent
      ++ join separator
           (map (fun kv => QuoteJSONString (fst kv) ++ u ": "
                           ++ stringify_at indent (snd kv)) props)
      ++ newline ++ stepback ++ u "}"
  end.

Definition JSON_stringify (v : json) : jsstring := stringify_at [] v.

(** *** What a round trip through JSON text preserves

    [number_roundtrips x]: the text [JSON.stringify] writes for [x] is a
    number token that [JSON.parse] reads as [x] again.  ECMA-262 promises
    it of [Number::toString] for every finite number; it fails for the
    infinities, which are written as [null]. *)
Definition number_roundtrips (x : number) : bool :=
  let tok := stringify_number x in
  forallb is_numchar tok
  && match tok with
     | c :: _ => (is_digit c || N.eqb c 45)%bool
     | [] => false
     end
  && match number_of_token tok with
     | Some y => number_eqb y x
     | None => false
     end.

(** Every number in a value round-trips. *)
Fixpoint numbers_roundtrip (v : json) : bool :=
  match v with
  | JNum x => number_roundtrips x
  | JArr items => forallb (fun i => numbers_roundtrip i) items
  | JObj props => forallb (fun kv => numbers_roundtrip (snd kv)) props
  | _ => true
  end.

(** The numbers [JSON.parse] returns: zero, an infinity, or a
    significand without trailing zero whose value is within the range. *)
Definition canonical (x : number) : bool :=
  match x with
  | Inf _ => true
  | Fin m e =>
      ((m =? 0) && (e =? 0))
      || (negb (m mod 10 =? 0)
          && negb (overflows (Z.abs m) e)
          && negb (underflows (Z.abs m) e))
  end.

Fixpoint canonical_numbers (v : json) : bool :=
  match v with
  | JNum x => canonical x
  | JArr items => forallb (fun i => canonical_numbers i) items
  | JObj props => forallb (fun kv => canonical_numbers (snd kv)) props
  | _ => true
  end.

Definition finite (x : number) : bool :=
  match x with
  | Fin _ _ => true
  | Inf _ => false
  end.

(** No number in a value is an infinity. *)
Fixpoint finite_numbers (v : json) : bool :=
  match v with
  | JNum x => finite x
  | JArr items => forallb (fun i => finite_numbers i) items
  | JObj props => forallb (fun kv => finite_numbers (snd kv)) props
  | _ => true
  end.

Fixpoint distinct (keys : list jsstring) : bool :=
  match keys with
  | [] => true
  | k :: rest => negb (existsb (jsstring_eqb k) rest) && distinct rest
  end.

(** No object in a value has two properties of one name; [JSON.parse]
    returns only such values. *)
Fixpoint distinct_keys (v : json) : bool :=
  match v with
  | JArr items => forallb (fun i => distinct_keys i) items
  | JObj props =>
      distinct (map fst props)
      && forallb (fun kv => distinct_keys (snd kv)) props
  | _ => true
  end.

(** The fuel that suffices to parse the text of a value. *)
Fixpoint size (v : json) : nat :=
  match v with
  | JArr items => S (fold_right (fun i n => S (size i + n)) O items)
  | JObj props => S (fold_right (fun kv n => S (size (snd kv) + n)) O props)
  | _ => 1
  end.

(** ** [parseInt(string, 10)] and the query string *)

(** [StrWhiteSpaceChar]: white space and line terminators. *)
Definition StrWhiteSpaceChar (c : N) : bool :=
  (existsb (N.eqb c)
     [9; 10; 11; 12; 13; 32; 160; 5760; 8232; 8233; 8239; 8287; 12288; 65279]
   || (N.leb 8192 c && N.leb c 8202))%N%bool.

Fixpoint trimStart (s : jsstring) : jsstring :=
  match s with
  | c :: rest => if StrWhiteSpaceChar c then trimStart rest else s
  | [] => []
  end.

(** [parseInt(s, 10)]: [None] is [NaN].  The result stands for the
    integer written; the handlers only compare it with a year or a month
    index, where the nearest binary64 number compares the same. *)
Definition parseInt (s : jsstring) : option Z :=
  let s1 := trimStart s in
  let '(sign, s2) :=
    match s1 with
    | c :: t =>
        if N.eqb c 45 then (-1, t)
        else if N.eqb c 43 then (1, t)
        else (1, s1)
    | [] => (1, s1)
    end in
  let '(ds, _) := span is_digit s2 in
  if nonempty ds then Some (sign * digits_val ds) else None.

(** A value of [req.query], as the query-string parser builds it. *)
Inductive qval : Type :=
| QStr (s : jsstring)
| QArr (items : list qval)
| QObj.

Definition query_param := option qval.

Definition q_truthy (q : query_param) : bool :=
  match q with
  | None => false
  | Some (QStr s) => nonempty s
  | Some _ => true
  end.

Fixpoint qval_toString (q : qval) : jsstring :=
  match q with
  | QStr s => s
  | QArr items => join (u ",") (map (fun i => qval_toString i) items)
  | QObj => u "[object Object]"
  end.

(** [String(q)] *)
Definition q_String (q : query_param) : jsstring :=
  match q with
  | None => u "undefined"
  | Some v => qval_toString v
  end.

(** [a === b] on numbers: [NaN] equals nothing. *)
Definition number_strict_eq (a b : option Z) : bool :=
  match a, b with
  | Some x, Some y => x =? y
  | _, _ => false
  end.

(** ** [Math.random()]

    A number in [[0, 1)], kept as the exact fraction
    [rnd_num / (rnd_num + rnd_gap + 1)]; the product with a length is
    taken exactly. *)
Record random : Type := mkRandom { rnd_num : N; rnd_gap : N }.

Definition rnd_den (r : random) : N := (rnd_num r + rnd_gap r + 1)%N.

(** [Math.floor(Math.random() * n)] *)
Definition random_index (r : random) (n : nat) : nat :=
  N.to_nat ((rnd_num r * N.of_nat n) / rnd_den r).

(** ** The file system *)

Inductive file : Type :=
| Absent
| Unreadable
| Text (content : jsstring).

(** [photosJson] is [photos.json]; [writable] tells whether a write to it
    succeeds; [uploads] is what [fs.readdir] finds in the upload
    directory, [None] when it reports an error. *)
Record world : Type := mkWorld {
  photosJson : file;
  writable : bool;
  uploads : option (list jsstring)
}.

Definition ENOENT : jserror :=
  mkError (Some (u "ENOENT")) (u "ENOENT: no such file or directory").
Definition EACCES : jserror :=
  mkError (Some (u "EACCES")) (u "EACCES: permission denied").
Definition SyntaxError : jserror :=
  mkError None (u "Unexpected token in JSON").

(** [fs.readFileSync(photosJsonPath, 'utf-8')] *)
Definition readFileSync (w : world) : result jsstring :=
  match photosJson w with
  | Absent => Throw ENOENT
  | Unreadable => Throw EACCES
  | Text s => Ok s
  end.

(** [fs.writeFileSync(photosJsonPath, data)] *)
Definition writeFileSync (data : jsstring) (w : world) : result world :=
  if writable w
  then Ok (mkWorld (Text data) (writable w) (uploads w))
  else Throw EACCES.

(** [fs.existsSync(photosJsonPath)] *)
Definition existsSync (w : world) : bool :=
  match photosJson w with
  | Absent => false
  | _ => true
  end.

Definition JSON_parse_or_throw (text : jsstring) : result json :=
  match JSON_parse text with
  | Some v => Ok v
  | None => Throw SyntaxError
  end.

(** ** The record store *)

(** The body of [readPhotosList]'s [try] block. *)
Definition readPhotosList_try (w : world) : result (list json) :=
  raw <- readFileSync w ;;
  obj <- JSON_parse_or_throw raw ;;
  Ok (match obj with JArr items => items | _ => [] end).

Definition readPhotosList (w : world) : list json :=
  try_catch (readPhotosList_try w) (fun _ => []).

Definition writePhotosList (list : list json) (w : world) : result world :=
  writeFileSync (JSON_stringify (JArr list)) w.

Definition ensurePhotosJson (w : world) : result world :=
  if negb (existsSync w) then writePhotosList [] w else Ok w.

(** ** Requests and responses *)

(** [res.status(status).json(body)]; a [body] of [undefined] is an empty
    response body. *)
Record response : Type := mkResponse { status : Z; body : jsval }.

Definition send (st : Z) (b : json) : response := mkResponse st (Some b).

(** [{ error: msg }] *)
Definition error_body (msg : jsstring) : json := JObj [(u "error", JStr msg)].

(** The server's configuration: [process.env.ADMIN_TOKEN]. *)
Record config : Type := mkConfig { env_ADMIN_TOKEN : option jsstring }.

(** [process.env.ADMIN_TOKEN || null] *)
Definition ADMIN_TOKEN (cfg : config) : option jsstring :=
  match env_ADMIN_TOKEN cfg with
  | Some s => if nonempty s then Some s else None
  | None => None
  end.

(** What [upload.single('photo')] makes of the request body: no file in
    it, a file stored in the upload directory under a generated name, or
    an error (a file that is too large or no image). *)
Inductive multer_outcome : Type :=
| NoFile
| Stored (name : jsstring)
| Rejected (e : jserror).

Record request : Type := mkRequest {
  query_month : query_param;
  query_year : query_param;
  authorization : option jsstring;
  multipart : multer_outcome
}.

Inductive middleware_result : Type :=
| Next
| Respond (r : response).

(** [req.headers['authorization'] || ''] *)
Definition authorization_header (req : request) : jsstring :=
  match authorization req with
  | Some h => h
  | None => []
  end.

(** [header.startsWith('Bearer ') ? header.slice(7) : header] *)
Definition presented_token (req : request) : jsstring :=
  let header := authorization_header req in
  if startsWith (u "Bearer ") header then slice 7 header else header.

Definition requireAdmin (cfg : config) (req : request) : middleware_result :=
  match ADMIN_TOKEN cfg with
  | None => Respond (send 500 (error_body (u "Server missing ADMIN_TOKEN")))
  | Some secret =>
      let token := presented_token req in
      if negb (jsstring_eqb token secret)
      then Respond (send 401 (error_body (u "Unauthorized")))
      else Next
  end.

(** [upload.single('photo')]: [req.file.filename] when a file was stored,
    [undefined] for [req.file] when the body has none, [next(err)]
    otherwise. *)
Definition upload_single (req : request) : result (option jsstring) :=
  match multipart req with
  | NoFile => Ok None
  | Stored name => Ok (Some name)
  | Rejected e => Throw e
  end.

(** A case-insensitive search for [p] in [s]. *)
Fixpoint ci_startsWith (p s : jsstring) : bool :=
  match p, s with
  | [], _ => true
  | x :: p', y :: s' => N.eqb (ascii_lower x) (ascii_lower y) && ci_startsWith p' s'
  | _ :: _, [] => false
  end.

Fixpoint ci_includes (p s : jsstring) : bool :=
  ci_startsWith p s
  || match s with
     | _ :: rest => ci_includes p rest
     | [] => false
     end.

(** The error-handling middleware at the end of the chain. *)
Definition errorHandler (err : jserror) : response :=
  if match err_code err with
     | Some c => jsstring_eqb c (u "LIMIT_FILE_SIZE")
     | None => false
     end
  then send 413 (error_body (u "File too large (max 25MB)"))
  else if nonempty (err_message err)
          && ci_includes (u "Only image uploads allowed") (err_message err)
  then send 400 (error_body (u "Only image files are allowed (jpg, png, gif, webp, avif)"))
  else send 500 (error_body (if nonempty (err_message err)
                             then err_message err else u "Upload failed")).

(** A handler's exception reaches the error handler; the store is as it
    was, since a handler throws before or instead of writing. *)
Definition handle_errors (w : world) (r : result (response * world)) :
  response * world :=
  match r with
  | Ok x => x
  | Throw e => (errorHandler e, w)
  end.

(** ** Reading routes *)

(** [GET /api/photos] *)
Definition get_api_photos (w : world) : response :=
  let list := readPhotosList w in
  send 200 (JArr list).

(** [GET /api/photos/random] *)
Definition get_api_photos_random (w : world) (rnd : random) : response :=
  let list := readPhotosList w in
  if (length list =? 0)%nat then send 404 (error_body (u "No photos"))
  else
    let pick := nth_error list (random_index rnd (length list)) in
    mkResponse 200 pick.

(** The file names the fallback of [/random-photo] accepts: the regular
    expression [\.(jpe?g|png|gif|webp|avif)$], case-insensitive.  At one
    position it matches a dot, one of the alternatives and the end of the
    name; [test] tries every position. *)
Definition image_extensions : list jsstring :=
  map u ["jpg"; "jpeg"; "png"; "gif"; "webp"; "avif"]%string.

Definition image_re_at (s : jsstring) : bool :=
  match s with
  | c :: ext => N.eqb c 46 && existsb (ci_eqb ext) image_extensions
  | [] => false
  end.

Fixpoint image_re_test (s : jsstring) : bool :=
  image_re_at s
  || match s with
     | _ :: rest => image_re_test rest
     | [] => false
     end.

(** The fallback of [/random-photo]: the callback of
    [fs.readdir(uploadsDir, ...)]. *)
Definition random_file (w : world) (rnd : random) : response :=
  match uploads w with
  | None => send 500 (error_body (u "Failed to read photos"))
  | Some files =>
      let imageFiles := filter image_re_test files in
      if (length imageFiles =? 0)%nat then send 404 (error_body (u "No photos yet"))
      else
        match nth_error imageFiles (random_index rnd (length imageFiles)) with
        | Some randomFile =>
            send 200 (JObj [(u "filename", JStr randomFile);
                            (u "url", JStr (u "/photos/" ++ randomFile))])
        | None =>
            send 200 (JObj [(u "url", JStr (u "/photos/undefined"))])
        end
  end.

(** ** [/random-photo]: the filters and the selection *)

(** What ECMA-262 leaves to the host: [LocalTZA], the offset of local
    time from UTC, in milliseconds, at a time value; and [Date_parse],
    the time value [Date.parse] reads from a string. *)
Record host : Type := mkHost {
  LocalTZA : Z -> Z;
  Date_parse : jsstring -> timevalue
}.

Section RandomPhoto.

Variable h : host.

(** [new Date(v)] for a value of the store: a string is parsed, an array
    or an object is parsed as its [ToString], anything else is converted
    with [ToNumber] and clipped. *)
Definition Date_new (v : json) : timevalue :=
  match v with
  | JStr s => Date_parse h s
  | JArr _ | JObj _ => Date_parse h (json_toString v)
  | JNum x => TimeClip x
  | JBool true => Some 1
  | JBool false => Some 0
  | JNull => Some 0
  end.

Definition LocalTime (t : Z) : Z := t + LocalTZA h t.

(** [d.getFullYear()] and [d.getMonth()]: [NaN] for an invalid date. *)
Definition getFullYear (d : timevalue) : option Z :=
  option_map (fun t => YearFromTime (LocalTime t)) d.

Definition getMonth (d : timevalue) : option Z :=
  option_map (fun t => MonthFromTime (LocalTime t)) d.

(** [p.uploadedAt || p.dateUploaded] *)
Definition timestamp_of (p : json) : result jsval :=
  a <- getProp p uploadedAt ;;
  if truthy a then Ok a
  else b <- getProp p dateUploaded ;; Ok b.

(** [new Date(p.uploadedAt || p.dateUploaded || 0)] *)
Definition effective_date (p : json) : result timevalue :=
  t <- timestamp_of p ;;
  Ok (Date_new (match js_or t (Some (JNum (Fin 0 0))) with
                | Some v => v
                | None => JNum (Fin 0 0)
                end)).

(** [mRaw > 11 ? mRaw - 1 : mRaw] *)
Definition month_index (mRaw : option Z) : option Z :=
  match mRaw with
  | Some n => Some (if 11 <? n then n - 1 else n)
  | None => None
  end.

Definition filter_year (year : query_param) (filtered : list json) :
  result (list json) :=
  if q_truthy year then
    let yr := parseInt (q_String year) in
    filterM (fun p =>
               d <- effective_date p ;;
               Ok (number_strict_eq (getFullYear d) yr))
      filtered
  else Ok filtered.

Definition filter_month (month : query_param) (filtered : list json) :
  result (list json) :=
  if q_truthy month then
    let mRaw := parseInt (q_String month) in
    let m := month_index mRaw in
    filterM (fun p =>
               d <- effective_date p ;;
               Ok (number_strict_eq (getMonth d) m))
      filtered
  else Ok filtered.

(** The value of [filtered] when the handler tests its length. *)
Definition candidates (month year : query_param) (list : list json) :
  result (Datatypes.list json) :=
  filtered <- filter_year year list ;;
  filter_month month filtered.

(** Whether the effective date of [p] has the field [get] (the year or
    the month) equal to [wanted]; the test that a filter applies to a
    record, and no test without the query parameter. *)
Definition date_matches (get : timevalue -> option Z) (wanted : option Z)
  (p : json) : bool :=
  match effective_date p with
  | Ok d => number_strict_eq (get d) wanted
  | Throw _ => false
  end.

Definition year_keeps (year : query_param) (p : json) : bool :=
  if q_truthy year
  then date_matches getFullYear (parseInt (q_String year)) p
  else true.

Definition month_keeps (month : query_param) (p : json) : bool :=
  if q_truthy month
  then date_matches getMonth (month_index (parseInt (q_String month))) p
  else true.

Definition TypeError_undefined : jserror :=
  mkError None (u "Cannot read properties of undefined (reading 'filename')").

(** The object sent for the record picked:
    [{ filename, url: pick.url || `/photos/${pick.filename}`,
       uploadedAt: pick.uploadedAt || pick.dateUploaded }]. *)
Definition picked (pick : json) : result json :=
  fn <- getProp pick filename ;;
  ur <- getProp pick url ;;
  ur' <- (if truthy ur then Ok ur
          else fn' <- getProp pick filename ;;
               Ok (Some (JStr (u "/photos/" ++ ToString fn')))) ;;
  ts <- timestamp_of pick ;;
  Ok (JObj (object_of [(u "filename", fn); (u "url", ur'); (u "uploadedAt", ts)])).

(** [GET /random-photo] *)
Definition get_random_photo (w : world) (req : request) (rnd : random) :
  result response :=
  let month := query_month req in
  let year := query_year req in
  let list := readPhotosList w in
  if negb (length list =? 0)%nat then
    filtered <- candidates month year list ;;
    if (length filtered =? 0)%nat
    then Ok (send 404 (error_body (u "No photos found for this filter")))
    else
      match nth_error filtered (random_index rnd (length filtered)) with
      | Some pick => b <- picked pick ;; Ok (send 200 b)
      | None => Throw TypeError_undefined
      end
  else Ok (random_file w rnd).

(** The route as the client sees it: an exception ends in the error
    handler. *)
Definition route_random_photo (w : world) (req : request) (rnd : random) :
  response :=
  try_catch (get_random_photo w req rnd) errorHandler.

End RandomPhoto.

(** ** Upload routes (registered when the upload middleware is installed) *)

(** The record the admin route makes of a stored file:
    [{ filename, url: `/uploads/${filename}`, uploadedAt }]. *)
Definition admin_item (name : jsstring) (now : Z) : json :=
  JObj [(u "filename", JStr name);
        (u "url", JStr (u "/uploads/" ++ name));
        (u "uploadedAt", JStr (toISOString now))].

(** The record the open route makes:
    [{ filename, url: `/photos/${filename}`, uploadedAt: nowIso,
       dateUploaded: nowIso }]. *)
Definition public_item (name : jsstring) (now : Z) : json :=
  let nowIso := toISOString now in
  JObj [(u "filename", JStr name);
        (u "url", JStr (u "/photos/" ++ name));
        (u "uploadedAt", JStr nowIso);
        (u "dateUploaded", JStr nowIso)].

(** The handler of [POST /api/photos/upload], after [requireAdmin] and
    [upload.single('photo')]; [now] is the time value of [new Date()]. *)
Definition admin_upload_handler (file : option jsstring) (now : Z) (w : world) :
  result (response * world) :=
  match file with
  | None => Ok (send 400 (error_body (u "No file uploaded")), w)
  | Some name =>
      let list := readPhotosList w in
      let item := admin_item name now in
      w' <- writePhotosList (list ++ [item]) w ;;
      Ok (send 201 item, w')
  end.

(** The body the open route answers with:
    [{ message, photo: { filename, dateUploaded } }]. *)
Definition public_upload_body (name : jsstring) (now : Z) : json :=
  JObj [(u "message", JStr (u "Photo uploaded!"));
        (u "photo", JObj [(u "filename", JStr name);
                          (u "dateUploaded", JStr (toISOString now))])].

(** The handler of [POST /upload], after [upload.single('photo')]. *)
Definition public_upload_handler (file : option jsstring) (now : Z) (w : world) :
  result (response * world) :=
  match file with
  | None => Ok (send 400 (error_body (u "No file uploaded")), w)
  | Some name =>
      let list := readPhotosList w in
      let item := public_item name now in
      w' <- writePhotosList (list ++ [item]) w ;;
      Ok (send 200 (public_upload_body name now), w')
  end.

(** [POST /api/photos/upload]: [requireAdmin], then
    [upload.single('photo')], then the handler. *)
Definition post_api_photos_upload (cfg : config) (req : request) (now : Z)
  (w : world) : response * world :=
  match requireAdmin cfg req with
  | Respond r => (r, w)
  | Next =>
      handle_errors w
        (file <- upload_single req ;; admin_upload_handler file now w)
  end.

(** [POST /upload]: [upload.single('photo')], then the handler. *)
Definition post_upload (req : request) (now : Z) (w : world) : response * world :=
  handle_errors w
    (file <- upload_single req ;; public_upload_handler file now w).

(** ** A host

    For runs on concrete input: the time zone is UTC, and [Date.parse]
    reads the date-time format of ECMA-262 with the UTC designator,
    [YYYY-MM-DD] alone or followed by [THH:mm:ssZ] or [THH:mm:ss.sssZ]
    (what [toISOString] writes); any other string is an invalid date
    here. *)

Definition UTC (t : Z) : Z := 0.

Definition number2 (a b : N) : option Z :=
  if is_digit a && is_digit b then Some (digits_val [a; b]) else None.

Definition iso_time (s : jsstring) : option Z :=
  match s with
  | [] => Some 0
  | t :: h1 :: h2 :: c1 :: m1 :: m2 :: c2 :: s1 :: s2 :: rest =>
      match number2 h1 h2, number2 m1 m2, number2 s1 s2 with
      | Some h, Some mi, Some sec =>
          let ms :=
            match rest with
            | [z] => if N.eqb z 90 then Some 0 else None
            | [dot; f1; f2; f3; z] =>
                if N.eqb dot 46 && N.eqb z 90 && forallb is_digit [f1; f2; f3]
                then Some (digits_val [f1; f2; f3]) else None
            | _ => None
            end in
          match ms with
          | Some f =>
              if N.eqb t 84 && N.eqb c1 58 && N.eqb c2 58
                 && (h <? 24) && (mi <? 60) && (sec <? 60)
              then Some (h * 3600000 + mi * 60000 + sec * 1000 + f)
              else None
          | None => None
          end
      | _, _, _ => None
      end
  | _ => None
  end.

Definition iso_parse (s : jsstring) : timevalue :=
  match s with
  | y1 :: y2 :: y3 :: y4 :: d1 :: m1 :: m2 :: d2 :: a1 :: a2 :: rest =>
      if N.eqb d1 45 && N.eqb d2 45 && forallb is_digit [y1; y2; y3; y4] then
        match number2 m1 m2, number2 a1 a2, iso_time rest with
        | Some m, Some d, Some time =>
            let y := digits_val [y1; y2; y3; y4] in
            let leap := if isLeap y then 1 else 0 in
            if (1 <=? m) && (m <=? 12) && (1 <=? d)
               && (d <=? month_start leap m - month_start leap (m - 1))
            then Some (MakeDate y (m - 1) d 0 0 0 0 + time)
            else None
        | _, _, _ => None
        end
      else None
  | _ => None
  end.

Definition utc_host : host := mkHost UTC iso_parse.

(** Sample data: a record with a file name and an upload time, the store
    of the scenario in the specification (one photo of 5 March 2024),
    and a store with one photo of January and one of December. *)
Definition photo (name stamp : string) : json :=
  JObj [(u "filename", JStr (u name)); (u "uploadedAt", JStr (u stamp))].

Definition march_photo : json := photo "a.jpg" "2024-03-05T00:00:00Z".
Definition january_photo : json := photo "b.jpg" "2024-01-15T00:00:00Z".
Definition december_photo : json := photo "c.jpg" "2023-12-24T18:30:00.000Z".

Definition scenario_world : world :=
  mkWorld (Text (JSON_stringify (JArr [march_photo]))) true (Some []).

Definition query (month year : option string) : request :=
  mkRequest (option_map (fun s => QStr (u s)) month)
    (option_map (fun s => QStr (u s)) year) None NoFile.

(** A configuration with a secret, a request that presents it as a
    bearer token with a stored file, and one that presents another
    token. *)
Definition secret_config : config := mkConfig (Some (u "s3cret")).

Definition admin_request : request :=
  mkRequest None None (Some (u "Bearer s3cret")) (Stored (u "ab12cd34.png")).

Definition intruder_request : request :=
  mkRequest None None (Some (u "guess")) (Stored (u "ab12cd34.png")).

(** Stores that hold no list: no file, a text that is no JSON, a JSON
    object; and an empty store beside an upload directory with one image
    and one other file, or with no image. *)
Definition absent_world : world := mkWorld Absent true (Some []).
Definition garbage_world : world := mkWorld (Text (u "[1, 2")) true (Some []).
Definition object_world : world := mkWorld (Text (u "{}")) true (Some []).

(** ** The upload middleware: the stored name and the file filter *)

(** [path.extname(path)] on a POSIX host, after Node's [lib/path.js]: one
    pass from the last code unit to the first.  [startDot] is the index
    of the last dot of the last path component, [ext_end] the index after
    that component's last code unit ([end] in the source), [startPart]
    where the component starts; [-1] stands for "not seen yet".
    [preDotState] is 0 before any code unit is seen to the left of the
    dot, 1 after a dot, -1 after another code unit. *)
Record extname_state : Type := mkExtname {
  startDot : Z;
  startPart : Z;
  ext_end : Z;
  matchedSlash : bool;
  preDotState : Z
}.

(** The loop [for (i = path.length - 1; i >= 0; --i)]; [codes] holds the
    code units at [i], [i - 1], ..., 0.  A slash after the component was
    entered ends the loop. *)
Fixpoint extname_loop (codes : jsstring) (i : Z) (st : extname_state) :
  extname_state :=
  match codes with
  | [] => st
  | code :: rest =>
      if N.eqb code 47 then
        if negb (matchedSlash st)
        then mkExtname (startDot st) (i + 1) (ext_end st) (matchedSlash st)
               (preDotState st)
        else extname_loop rest (i - 1) st
      else
        let st1 :=
          if ext_end st =? -1
          then mkExtname (startDot st) (startPart st) (i + 1) false
                 (preDotState st)
          else st in
        let st2 :=
          if N.eqb code 46 then
            if startDot st1 =? -1
            then mkExtname i (startPart st1) (ext_end st1) (matchedSlash st1)
                   (preDotState st1)
            else if negb (preDotState st1 =? 1)
            then mkExtname (startDot st1) (startPart st1) (ext_end st1)
                   (matchedSlash st1) 1
            else st1
          else if negb (startDot st1 =? -1)
          then mkExtname (startDot st1) (startPart st1) (ext_end st1)
                 (matchedSlash st1) (-1)
          else st1 in
        extname_loop rest (i - 1) st2
  end.

Definition extname (path : jsstring) : jsstring :=
  let st := extname_loop (rev path) (Z.of_nat (length path) - 1)
              (mkExtname (-1) 0 (-1) true 0) in
  if (startDot st =? -1) || (ext_end st =? -1) || (preDotState st =? 0)
     || ((preDotState st =? 1) && (startDot st =? ext_end st - 1)
         && (startDot st =? startPart st + 1))
  then []
  else firstn (Z.to_nat (ext_end st - startDot st))
         (skipn (Z.to_nat (startDot st)) path).

(** [buffer.toString('hex')]: two lower-case hexadecimal digits a byte. *)
Definition hex_byte (b : Byte.byte) : jsstring :=
  [hex_digit (Byte.to_N b / 16); hex_digit (Byte.to_N b mod 16)].

Definition toString_hex (bytes : list Byte.byte) : jsstring :=
  flat_map hex_byte bytes.

(** The extensions a stored name may carry. *)
Definition safe_extensions : list jsstring :=
  map u [".jpg"; ".jpeg"; ".png"; ".gif"; ".webp"; ".avif"]%string.

(** A file part of a multipart body as multer hands it to the callbacks:
    the form field it came in, the file name and the MIME type the
    client gave; [over_limit] tells whether multer found the file beyond
    [limits.fileSize] (25 * 1024 * 1024 bytes). *)
Record part : Type := mkPart {
  fieldname : jsstring;
  originalname : jsstring;
  mimetype : option jsstring;
  over_limit : bool
}.

(** The errors multer raises by itself. *)
Definition LIMIT_FILE_SIZE : jserror :=
  mkError (Some (u "LIMIT_FILE_SIZE")) (u "File too large").
Definition LIMIT_UNEXPECTED_FILE : jserror :=
  mkError (Some (u "LIMIT_UNEXPECTED_FILE")) (u "Unexpected field").

Section Upload.

(** [String.prototype.toLowerCase], which follows the Unicode case
    mappings of the host. *)
Variable toLowerCase : jsstring -> jsstring.

(** The [filename] callback of [multer.diskStorage]; [randomBytes] is
    what [crypto.randomBytes(12)] returns. *)
Definition storage_filename (file : part) (randomBytes : list Byte.byte) :
  jsstring :=
  let ext := toLowerCase (extname (originalname file)) in
  let safeExt :=
    if existsb (jsstring_eqb ext) safe_extensions then ext else u ".jpg" in
  let name := toString_hex randomBytes ++ safeExt in
  name.

(** The [fileFilter] callback: [cb(null, true)] is [Ok true],
    [cb(new Error(...))] a [Throw]. *)
Definition fileFilter (file : part) : result bool :=
  let mime := match mimetype file with
              | Some m => if nonempty m then m else []
              | None => []
              end in
  if startsWith (u "image/") mime then Ok true
  else Throw (mkError None (u "Only image uploads allowed")).

(** [upload.single(field)] on a body with at most one file part: a part
    without file name counts as no file; a part in another field is
    refused before the filter is asked; a part the filter accepts is
    stored under the generated name, unless it is beyond the size
    limit. *)
Definition single (field : jsstring) (body : option part)
  (randomBytes : list Byte.byte) : multer_outcome :=
  match body with
  | None => NoFile
  | Some file =>
      if negb (nonempty (originalname file)) then NoFile
      else if negb (jsstring_eqb (fieldname file) field)
      then Rejected LIMIT_UNEXPECTED_FILE
      else
        match fileFilter file with
        | Throw e => Rejected e
        | Ok false => NoFile
        | Ok true =>
            if over_limit file then Rejected LIMIT_FILE_SIZE
            else Stored (storage_filename file randomBytes)
        end
  end.

End Upload.

(** [GET /api/health] *)
Definition get_api_health : response := send 200 (JObj [(u "ok", JBool true)]).

(** ** [JSON.stringify(value)] without a gap, as [res.json] sends it *)
Fixpoint stringify_compact (v : json) : jsstring :=
  match v with
  | JNull => u "null"
  | JBool true => u "true"
  | JBool false => u "false"
  | JNum x => stringify_number x
  | JStr s => QuoteJSONString s
  | JArr items =>
      u "[" ++ join (u ",") (map (fun i => stringify_compact i) items) ++ u "]"
  | JObj props =>
      u "{"
      ++ join (u ",")
           (map (fun kv => QuoteJSONString (fst kv) ++ u ":"
                           ++ stringify_compact (snd kv)) props)
      ++ u "}"
  end.

(** ** The pages: [public/script.js] and [frontend/script.js] *)

(** What a script assigns to the photo container. *)
Inductive container : Type :=
| innerHTML (html : jsstring)
| innerText (text : jsstring).

(** [res.ok] *)
Definition res_ok (res : response) : bool :=
  (200 <=? status res) && (status res <=? 299).

(** [await res.json()]: the text that [res.json(body)] sent, parsed; an
    empty response body is no JSON. *)
Definition res_json (res : response) : result json :=
  match body res with
  | Some b => JSON_parse_or_throw (stringify_compact b)
  | None => Throw SyntaxError
  end.

(** The markup [<img src=... alt=...>] around [imgUrl], the attribute
    values between quotation marks. *)
Definition img (imgUrl : jsval) : jsstring :=
  u "<img src=" ++ [34%N] ++ ToString imgUrl ++ [34%N]
  ++ u " alt=" ++ [34%N] ++ u "Random Photo" ++ [34%N] ++ u ">".

(** [data.url || `/photos/${data.filename}`] *)
Definition imgUrl_of (data : json) : result jsval :=
  ur <- getProp data url ;;
  if truthy ur then Ok ur
  else fn <- getProp data filename ;;
       Ok (Some (JStr (u "/photos/" ++ ToString fn))).


(** The function [public/script.js] runs on the first visit; [None]
    when it leaves the container as it is. *)
Definition public_first_visit (res : response) : option container :=
  try_catch
    (if negb (res_ok res) then Ok None
     else
       data <- res_json res ;;
       imgUrl <- imgUrl_of data ;;
       Ok (Some (innerHTML (img imgUrl))))
    (fun _ => None).


(** The request both scripts send: no query, no header. *)
Definition page_request : request := mkRequest None None None NoFile.

(** * Properties *)

(** ** The calendar *)

Ltac lia_div := zify; Z.to_euclidean_division_equations; lia.

(** The year found is the year the day falls in. *)
Lemma YearFromDay_estimate (d : Z) :
  DayFromYear (1970 + 400 * d / 146097 - 1) <= d
  < DayFromYear (1970 + 400 * d / 146097 + 2).
Proof. unfold DayFromYear. lia_div. Qed.

Lemma YearFromDay_spec (d : Z) :
  DayFromYear (YearFromDay d) <= d < DayFromYear (YearFromDay d + 1).
Proof.
  pose proof (YearFromDay_estimate d) as H.
  unfold YearFromDay.
  destruct (Z.ltb_spec d (DayFromYear (1970 + 400 * d / 146097))).
  - replace (1970 + 400 * d / 146097 - 1 + 1) with (1970 + 400 * d / 146097) by lia.
    lia.
  - destruct (Z.leb_spec (DayFromYear (1970 + 400 * d / 146097 + 1)) d).
    + replace (1970 + 400 * d / 146097 + 1 + 1) with (1970 + 400 * d / 146097 + 2) by lia.
      lia.
    + lia.
Qed.

Lemma DayFromYear_step (y : Z) :
  DayFromYear (y + 1) = DayFromYear y + DaysInYear y.
Proof.
  unfold DayFromYear, DaysInYear, isLeap.
  destruct (Z.eqb_spec (y mod 4) 0), (Z.eqb_spec (y mod 100) 0),
    (Z.eqb_spec (y mod 400) 0); cbn [negb orb andb]; lia_div.
Qed.

Lemma DayWithinYear_range (t : Z) :
  0 <= DayWithinYear t < DaysInYear (YearFromTime t).
Proof.
  unfold DayWithinYear, YearFromTime.
  pose proof (YearFromDay_spec (Day t)) as H.
  rewrite DayFromYear_step in H. lia.
Qed.

(** ** Strings *)

Lemma jsstring_eqb_eq (a b : jsstring) : jsstring_eqb a b = true <-> a = b.
Proof.
  revert b; induction a as [|x a IH]; intros [|y b]; simpl;
    try (split; [discriminate | congruence]); try tauto.
  rewrite andb_true_iff, N.eqb_eq, IH.
  split; [intros [-> ->]; reflexivity | intros H; injection H; auto].
Qed.

Lemma jsstring_eqb_refl (a : jsstring) : jsstring_eqb a a = true.
Proof. apply jsstring_eqb_eq; reflexivity. Qed.

Lemma jsstring_eqb_neq (a b : jsstring) : jsstring_eqb a b = false <-> a <> b.
Proof.
  rewrite <- jsstring_eqb_eq.
  destruct (jsstring_eqb a b); split; congruence.
Qed.

Lemma startsWith_prefix (p s : jsstring) :
  startsWith p s = true <-> exists rest, s = p ++ rest.
Proof.
  revert s; induction p as [|x p IH]; intros s; simpl.
  - split; [exists s; reflexivity | reflexivity].
  - destruct s as [|y s].
    + split; [discriminate | intros [rest H]; discriminate].
    + rewrite andb_true_iff, N.eqb_eq, IH.
      split.
      * intros [-> [rest ->]]; exists rest; reflexivity.
      * intros [rest H]; injection H as -> ->; split; [reflexivity | exists rest; reflexivity].
Qed.

Lemma slice_prefix (p rest : jsstring) : slice (length p) (p ++ rest) = rest.
Proof. unfold slice; induction p; simpl; auto. Qed.

Lemma nonempty_false (s : jsstring) : nonempty s = false <-> s = [].
Proof. destruct s; simpl; split; congruence. Qed.

(** ** The random index *)

Lemma rnd_num_lt_den (r : random) : (rnd_num r < rnd_den r)%N.
Proof. unfold rnd_den; lia. Qed.

(** The index chosen lies within the bounds of a non-empty list. *)
Lemma random_index_lt (r : random) (n : nat) :
  (0 < n)%nat -> (random_index r n < n)%nat.
Proof.
  intros Hn; unfold random_index.
  pose proof (rnd_num_lt_den r) as Hr.
  assert (H : (rnd_num r * N.of_nat n / rnd_den r < N.of_nat n)%N).
  { apply N.Div0.div_lt_upper_bound.
    apply N.mul_lt_mono_pos_r; [lia | exact Hr]. }
  lia.
Qed.


Lemma nth_error_random_index {A : Type} (l : list A) (r : random) :
  l <> [] ->
  exists x, nth_error l (random_index r (length l)) = Some x /\ In x l.
Proof.
  intros Hl.
  assert (Hlen : (0 < length l)%nat) by (destruct l; simpl; [congruence | lia]).
  destruct (nth_error l (random_index r (length l))) as [x|] eqn:E.
  - exists x; split; [reflexivity | eapply nth_error_In; eauto].
  - apply nth_error_None in E. pose proof (random_index_lt r _ Hlen). lia.
Qed.

Lemma length_eqb_0 {A : Type} (l : list A) : (length l =? 0)%nat = true <-> l = [].
Proof. destruct l; simpl; split; congruence. Qed.

Lemma length_eqb_0_false {A : Type} (l : list A) :
  (length l =? 0)%nat = false <-> l <> [].
Proof. destruct l; simpl; split; congruence. Qed.

(** ** The record store *)

Lemma readPhotosList_eq (w : world) :
  readPhotosList w =
  match photosJson w with
  | Text raw =>
      match JSON_parse raw with
      | Some (JArr items) => items
      | _ => []
      end
  | _ => []
  end.
Proof.
  unfold readPhotosList, readPhotosList_try, readFileSync, JSON_parse_or_throw.
  destruct (photosJson w) as [| |raw]; simpl; try reflexivity.
  destruct (JSON_parse raw) as [[]|]; reflexivity.
Qed.

(** C7.  [readPhotosList] returns the empty list, and raises nothing,
    when [photos.json] is missing, when it cannot be read, when its
    content is no JSON text, and when it is JSON but no array: whenever
    the [try] block throws, and whenever it yields a value that is not an
    array.  It is a total function of the store. *)
Theorem readPhotosList_never_fails (w : world) :
  (photosJson w = Absent -> readPhotosList w = [])
  /\ (photosJson w = Unreadable -> readPhotosList w = [])
  /\ (forall raw, photosJson w = Text raw -> JSON_parse raw = None ->
      readPhotosList w = [])
  /\ (forall raw v, photosJson w = Text raw -> JSON_parse raw = Some v ->
      (forall items, v <> JArr items) -> readPhotosList w = [])
  /\ (forall e, readPhotosList_try w = Throw e -> readPhotosList w = [])
  /\ (forall raw items, photosJson w = Text raw ->
      JSON_parse raw = Some (JArr items) -> readPhotosList w = items).
Proof.
  rewrite readPhotosList_eq.
  repeat split.
  - intros ->; reflexivity.
  - intros ->; reflexivity.
  - intros raw -> ->; reflexivity.
  - intros raw v -> -> Hv. destruct v; try reflexivity.
    exfalso; eapply Hv; reflexivity.
  - intros e He. rewrite <- readPhotosList_eq.
    unfold readPhotosList; rewrite He; reflexivity.
  - intros raw items -> ->; reflexivity.
Qed.

(** ** The admin guard *)

Lemma ADMIN_TOKEN_none (cfg : config) :
  ADMIN_TOKEN cfg = None <->
  env_ADMIN_TOKEN cfg = None \/ env_ADMIN_TOKEN cfg = Some [].
Proof.
  unfold ADMIN_TOKEN.
  destruct (env_ADMIN_TOKEN cfg) as [[|c s]|]; simpl; split; auto;
    try discriminate; intros [H|H]; discriminate.
Qed.

Lemma requireAdmin_no_secret (cfg : config) (req : request) :
  ADMIN_TOKEN cfg = None ->
  requireAdmin cfg req
  = Respond (send 500 (error_body (u "Server missing ADMIN_TOKEN"))).
Proof. intros H; unfold requireAdmin; rewrite H; reflexivity. Qed.

Lemma requireAdmin_secret (cfg : config) (req : request) (secret : jsstring) :
  ADMIN_TOKEN cfg = Some secret ->
  requireAdmin cfg req
  = if jsstring_eqb (presented_token req) secret then Next
    else Respond (send 401 (error_body (u "Unauthorized"))).
Proof.
  intros H; unfold requireAdmin; rewrite H.
  destruct (jsstring_eqb (presented_token req) secret); reflexivity.
Qed.

(** C5.  Without a configured secret the guard answers 500 "server
    misconfigured", whatever the request presents.  With a secret, the
    token is what follows the prefix [Bearer ] of the Authorization header
    when the header starts with it, and the header itself otherwise; the
    guard lets the request through exactly when the token equals the
    secret, and answers 401 otherwise. *)
Theorem requireAdmin_spec (cfg : config) (req : request) :
  (ADMIN_TOKEN cfg = None ->
   requireAdmin cfg req
   = Respond (send 500 (error_body (u "Server missing ADMIN_TOKEN"))))
  /\ (forall rest, authorization_header req = u "Bearer " ++ rest ->
      presented_token req = rest)
  /\ ((forall rest, authorization_header req <> u "Bearer " ++ rest) ->
      presented_token req = authorization_header req)
  /\ (forall secret, ADMIN_TOKEN cfg = Some secret ->
      (requireAdmin cfg req = Next <-> presented_token req = secret)
      /\ (presented_token req <> secret ->
          requireAdmin cfg req
          = Respond (send 401 (error_body (u "Unauthorized"))))).
Proof.
  repeat split.
  - apply requireAdmin_no_secret.
  - intros rest H; unfold presented_token; rewrite H.
    replace (startsWith (u "Bearer ") (u "Bearer " ++ rest)) with true
      by (symmetry; apply startsWith_prefix; exists rest; reflexivity).
    apply (slice_prefix (u "Bearer ") rest).
  - intros H; unfold presented_token.
    destruct (startsWith (u "Bearer ") (authorization_header req)) eqn:E;
      [|reflexivity].
    apply startsWith_prefix in E; destruct E as [rest E].
    exfalso; exact (H rest E).
  - rewrite (requireAdmin_secret cfg req secret H).
    destruct (jsstring_eqb (presented_token req) secret) eqn:E.
    + intros _; apply jsstring_eqb_eq; exact E.
    + discriminate.
  - intros E; rewrite (requireAdmin_secret cfg req secret H).
    apply jsstring_eqb_eq in E; rewrite E; reflexivity.
  - intros E; rewrite (requireAdmin_secret cfg req secret H).
    apply jsstring_eqb_neq in E; rewrite E; reflexivity.
Qed.

(** ** Unfiltered selection *)



(** ** Rejected uploads *)

(** C10.  An upload that is rejected leaves the store as it was: on the
    admin route when no secret is configured (500) or when the token is
    not the secret (401), whatever the body holds, and on either route
    when the body holds no file (400).  The world returned is the world
    given, so [photos.json] is not written and the list read from it is
    the same. *)
Theorem rejected_upload_writes_nothing (cfg : config) (req : request)
  (now : Z) (w : world) :
  (ADMIN_TOKEN cfg = None ->
   post_api_photos_upload cfg req now w
   = (send 500 (error_body (u "Server missing ADMIN_TOKEN")), w))
  /\ (forall secret, ADMIN_TOKEN cfg = Some secret ->
      presented_token req <> secret ->
      post_api_photos_upload cfg req now w
      = (send 401 (error_body (u "Unauthorized")), w))
  /\ (forall secret, ADMIN_TOKEN cfg = Some secret ->
      presented_token req = secret ->
      multipart req = NoFile ->
      post_api_photos_upload cfg req now w
      = (send 400 (error_body (u "No file uploaded")), w))
  /\ (multipart req = NoFile ->
      post_upload req now w
      = (send 400 (error_body (u "No file uploaded")), w))
  /\ (forall r w',
      post_api_photos_upload cfg req now w = (r, w') \/
      post_upload req now w = (r, w') ->
      status r = 500 \/ status r = 401 \/ status r = 400 ->
      w' = w /\ readPhotosList w' = readPhotosList w).
Proof.
  repeat split.
  - intros H; unfold post_api_photos_upload.
    rewrite (requireAdmin_no_secret cfg req H); reflexivity.
  - intros secret Hs Hne; unfold post_api_photos_upload.
    rewrite (requireAdmin_secret cfg req secret Hs).
    apply jsstring_eqb_neq in Hne; rewrite Hne; reflexivity.
  - intros secret Hs He Hf; unfold post_api_photos_upload.
    rewrite (requireAdmin_secret cfg req secret Hs).
    apply jsstring_eqb_eq in He; rewrite He.
    unfold upload_single; rewrite Hf; reflexivity.
  - intros Hf; unfold post_upload, upload_single; rewrite Hf; reflexivity.
  - destruct H as [H|H].
    + unfold post_api_photos_upload in H.
      destruct (requireAdmin cfg req); [|congruence].
      unfold upload_single, admin_upload_handler, writePhotosList, writeFileSync in H.
      destruct (multipart req); simpl in H; try congruence.
      destruct (writable w); simpl in H; [|congruence].
      injection H as <- <-; simpl in H0; lia.
    + unfold post_upload, upload_single, public_upload_handler,
        writePhotosList, writeFileSync in H.
      destruct (multipart req); simpl in H; try congruence.
      destruct (writable w); simpl in H; [|congruence].
      injection H as <- <-; simpl in H0; lia.
  - destruct H as [H|H].
    + unfold post_api_photos_upload in H.
      destruct (requireAdmin cfg req); [|congruence].
      unfold upload_single, admin_upload_handler, writePhotosList, writeFileSync in H.
      destruct (multipart req); simpl in H; try congruence.
      destruct (writable w); simpl in H; [|congruence].
      injection H as <- <-; simpl in H0; lia.
    + unfold post_upload, upload_single, public_upload_handler,
        writePhotosList, writeFileSync in H.
      destruct (multipart req); simpl in H; try congruence.
      destruct (writable w); simpl in H; [|congruence].
      injection H as <- <-; simpl in H0; lia.
Qed.

(** ** The fallback of [/random-photo] *)





Section Fallback.

Variable h : host.


End Fallback.

(** ** The filters *)






Section Filters.

Variable h : host.


(** The effective timestamp of an object: [uploadedAt] when it is
    truthy, else [dateUploaded] when that is truthy, else the epoch. *)
Lemma effective_date_object (props : list (jsstring * json)) :
  effective_date h (JObj props) =
  Ok (match lookup (u "uploadedAt") props, lookup (u "dateUploaded") props with
      | Some a, Some b =>
          if json_truthy a then Date_new h a
          else if json_truthy b then Date_new h b else Some 0
      | Some a, None => if json_truthy a then Date_new h a else Some 0
      | None, Some b => if json_truthy b then Date_new h b else Some 0
      | None, None => Some 0
      end).
Proof.
  unfold effective_date, timestamp_of, getProp, js_or.
  change (field_name uploadedAt) with (u "uploadedAt").
  change (field_name dateUploaded) with (u "dateUploaded").
  cbn [bind].
  destruct (lookup (u "uploadedAt") props) as [a|],
           (lookup (u "dateUploaded") props) as [b|]; cbn [truthy bind].
  - destruct (json_truthy a) eqn:Ta; cbn [truthy bind]; rewrite ?Ta; [reflexivity|].
    destruct (json_truthy b); reflexivity.
  - destruct (json_truthy a) eqn:Ta; cbn [truthy bind]; rewrite ?Ta; reflexivity.
  - destruct (json_truthy b); reflexivity.
  - reflexivity.
Qed.







End Filters.



(** ** Month 13 and month 0 *)

Lemma month_13_index :
  month_index (parseInt (q_String (Some (QStr (u "13"))))) = Some 12.
Proof. reflexivity. Qed.

Lemma month_0_index :
  month_index (parseInt (q_String (Some (QStr (u "0"))))) = Some 0.
Proof. reflexivity. Qed.

Lemma month_12_is_11 :
  month_index (parseInt (q_String (Some (QStr (u "12")))))
  = month_index (parseInt (q_String (Some (QStr (u "11"))))).
Proof. reflexivity. Qed.






(** * The round trip through JSON text *)

(** ** Strings survive the round trip *)

Lemma hex_val_digit (d : N) : (d < 16)%N -> hex_val (hex_digit d) = Some d.
Proof.
  intros H.
  assert (E : In d [0; 1; 2; 3; 4; 5; 6; 7; 8; 9; 10; 11; 12; 13; 14; 15]%N).
  { simpl. lia. }
  simpl in E.
  repeat (destruct E as [<-|E]; [reflexivity|]); contradiction.
Qed.

Lemma hex4_escape (c : N) :
  (c < 65536)%N ->
  hex4 (hex_digit (c / 4096 mod 16)) (hex_digit (c / 256 mod 16))
       (hex_digit (c / 16 mod 16)) (hex_digit (c mod 16)) = Some c.
Proof.
  intros H. unfold hex4.
  rewrite !hex_val_digit by (apply N.mod_lt; discriminate).
  f_equal. lia_div.
Qed.

Lemma parse_chars_escape (c : N) (s : jsstring) :
  (c < 65536)%N ->
  parse_chars (unicode_escape c ++ s) = cons_fst c (parse_chars s).
Proof.
  intros H. unfold unicode_escape.
  cbn [app parse_chars N.eqb Pos.eqb].
  rewrite (hex4_escape c H). reflexivity.
Qed.

Lemma parse_chars_plain (c : N) (s : jsstring) :
  c <> 34%N -> c <> 92%N -> (32 <= c)%N ->
  parse_chars (c :: s) = cons_fst c (parse_chars s).
Proof.
  intros H1 H2 H3. cbn [parse_chars].
  apply N.eqb_neq in H1, H2. rewrite H1, H2.
  apply N.ltb_ge in H3. rewrite H3. reflexivity.
Qed.

Lemma parse_chars_unit (c : N) (s : jsstring) :
  parse_chars (quote_unit c ++ s) = cons_fst c (parse_chars s).
Proof.
  unfold quote_unit.
  repeat match goal with
         | |- context [N.eqb c ?k] =>
             destruct (N.eqb_spec c k); [subst c; reflexivity|]
         end.
  destruct (N.ltb_spec c 32).
  - apply parse_chars_escape; lia.
  - apply parse_chars_plain; assumption.
Qed.

Lemma surrogate_plain (c : N) :
  (is_high_surrogate c || is_low_surrogate c)%bool = true ->
  c <> 34%N /\ c <> 92%N /\ (32 <= c)%N /\ (c < 65536)%N.
Proof.
  unfold is_high_surrogate, is_low_surrogate.
  rewrite orb_true_iff, !andb_true_iff, !N.leb_le. lia.
Qed.

Lemma parse_quote_chars_bounded (n : nat) (s rest : jsstring) :
  (length s <= n)%nat ->
  parse_chars (quote_chars s ++ 34%N :: rest) = Some (s, rest).
Proof.
  revert s; induction n as [|n IH]; intros s Hlen.
  - destruct s; [reflexivity | simpl in Hlen; lia].
  - destruct s as [|c s]; [reflexivity|].
    simpl in Hlen. cbn [quote_chars].
    destruct (is_high_surrogate c) eqn:Hh.
    + destruct (surrogate_plain c) as (A & B & C & D); [rewrite Hh; reflexivity|].
      destruct s as [|l s].
      * rewrite parse_chars_escape by exact D. reflexivity.
      * destruct (is_low_surrogate l) eqn:Hl.
        -- destruct (surrogate_plain l) as (A' & B' & C' & D');
             [rewrite Hl; apply orb_true_r|].
           cbn [app]. rewrite (parse_chars_plain c), (parse_chars_plain l) by assumption.
           rewrite IH; [reflexivity | simpl in Hlen; lia].
        -- rewrite <- app_assoc, parse_chars_escape by exact D.
           rewrite IH; [reflexivity | lia].
    + destruct (is_low_surrogate c) eqn:Hl.
      * destruct (surrogate_plain c) as (A & B & C & D);
          [rewrite Hl; apply orb_true_r|].
        rewrite <- app_assoc, parse_chars_escape by exact D.
        rewrite IH; [reflexivity | lia].
      * rewrite <- app_assoc, parse_chars_unit.
        rewrite IH; [reflexivity | lia].
Qed.

(** A quoted string is read back as the string. *)
Lemma parse_chars_quote (s rest : jsstring) :
  parse_chars (quote_chars s ++ 34%N :: rest) = Some (s, rest).
Proof. apply (parse_quote_chars_bounded (length s)); lia. Qed.

(** ** White space and tokens *)

Lemma skip_ws_app (a s : jsstring) :
  forallb is_ws a = true -> skip_ws (a ++ s) = skip_ws s.
Proof.
  induction a as [|c a IH]; [reflexivity|]. simpl.
  intros H; apply andb_true_iff in H; destruct H as [Hc Ha].
  rewrite Hc; apply IH; exact Ha.
Qed.

Lemma skip_ws_stop (c : N) (s : jsstring) :
  is_ws c = false -> skip_ws (c :: s) = c :: s.
Proof. intros H; simpl; rewrite H; reflexivity. Qed.

Lemma span_app (p : N -> bool) (a s : jsstring) :
  forallb p a = true ->
  match s with [] => true | c :: _ => negb (p c) end = true ->
  span p (a ++ s) = (a, s).
Proof.
  intros Ha Hs. induction a as [|c a IH].
  - destruct s as [|c s]; [reflexivity|]. simpl.
    apply negb_true_iff in Hs; rewrite Hs; reflexivity.
  - simpl in Ha; apply andb_true_iff in Ha; destruct Ha as [Hc Ha].
    simpl; rewrite Hc, (IH Ha); reflexivity.
Qed.

(** What may follow a value in a text: nothing, or a code unit that
    cannot continue a number. *)
Definition follows (rest : jsstring) : bool :=
  match rest with
  | [] => true
  | c :: _ => negb (is_numchar c)
  end.

Lemma number_eqb_eq (a b : number) : number_eqb a b = true -> a = b.
Proof.
  destruct a, b; simpl; try discriminate.
  - rewrite andb_true_iff, !Z.eqb_eq; intros [-> ->]; reflexivity.
  - intros H; apply eqb_prop in H; congruence.
Qed.

Lemma number_roundtrips_spec (x : number) :
  number_roundtrips x = true ->
  exists c tok,
    stringify_number x = c :: tok
    /\ forallb is_numchar (c :: tok) = true
    /\ (is_digit c || N.eqb c 45)%bool = true
    /\ number_of_token (c :: tok) = Some x.
Proof.
  unfold number_roundtrips.
  destruct (stringify_number x) as [|c tok].
  - rewrite andb_false_r; discriminate.
  - rewrite !andb_true_iff. intros [[H1 H2] H3].
    exists c, tok. repeat split; auto.
    destruct (number_of_token (c :: tok)) as [y|]; [|discriminate].
    apply number_eqb_eq in H3; congruence.
Qed.

Lemma digit_not_special (c : N) :
  (is_digit c || N.eqb c 45)%bool = true ->
  is_ws c = false /\ N.eqb c 34 = false /\ N.eqb c 91 = false
  /\ N.eqb c 123 = false /\ N.eqb c 93 = false /\ N.eqb c 125 = false.
Proof.
  unfold is_digit, is_ws.
  rewrite orb_true_iff, andb_true_iff, !N.leb_le, N.eqb_eq.
  intros H. rewrite !orb_false_iff, !N.eqb_neq. lia.
Qed.

(** A number token is read back in front of anything that cannot
    continue it. *)
Lemma parse_value_number (f : nat) (x : number) (rest : jsstring) :
  number_roundtrips x = true -> follows rest = true ->
  parse_value (S f) (stringify_number x ++ rest) = Some (JNum x, rest).
Proof.
  intros Hx Hr.
  destruct (number_roundtrips_spec x Hx) as (c & tok & E & Hall & Hc & Hn).
  destruct (digit_not_special c Hc) as (W & Q & A & O & _).
  rewrite E. cbn [parse_value app].
  rewrite (skip_ws_stop c _ W), Q, A, O, Hc.
  change (c :: tok ++ rest) with ((c :: tok) ++ rest).
  rewrite (span_app is_numchar (c :: tok) rest Hall Hr), Hn.
  reflexivity.
Qed.

(** ** Objects without repeated names *)

Lemma existsb_eqb_In (k : jsstring) (keys : list jsstring) :
  existsb (jsstring_eqb k) keys = true <-> In k keys.
Proof.
  rewrite existsb_exists. split.
  - intros [x [Hin E]]. apply jsstring_eqb_eq in E; subst; exact Hin.
  - intros H; exists k; split; [exact H | apply jsstring_eqb_refl].
Qed.

Lemma distinct_NoDup (keys : list jsstring) :
  distinct keys = true <-> NoDup keys.
Proof.
  induction keys as [|k keys IH]; simpl.
  - split; [constructor | reflexivity].
  - rewrite andb_true_iff, negb_true_iff, IH. split.
    + intros [H1 H2]. constructor; [|exact H2].
      intros Hin; apply existsb_eqb_In in Hin; congruence.
    + intros H; inversion H as [|? ? Hn Hd]; subst. split; [|exact Hd].
      destruct (existsb (jsstring_eqb k) keys) eqn:E; [|reflexivity].
      apply existsb_eqb_In in E; contradiction.
Qed.

Lemma obj_set_fresh (k : jsstring) (v : json) (acc : list (jsstring * json)) :
  ~ In k (map fst acc) -> obj_set k v acc = acc ++ [(k, v)].
Proof.
  induction acc as [|[k' v'] acc IH]; intros H; [reflexivity|]. simpl in *.
  destruct (jsstring_eqb k k') eqn:E.
  - apply jsstring_eqb_eq in E; subst; exfalso; apply H; left; reflexivity.
  - rewrite IH; [reflexivity | intros Hin; apply H; right; exact Hin].
Qed.

Lemma fold_obj_set (ms acc : list (jsstring * json)) :
  NoDup (map fst (acc ++ ms)) ->
  fold_left (fun o kv => obj_set (fst kv) (snd kv) o) ms acc = acc ++ ms.
Proof.
  revert acc; induction ms as [|[k v] ms IH]; intros acc H.
  - rewrite app_nil_r; reflexivity.
  - cbn [fold_left fst snd].
    rewrite obj_set_fresh.
    + rewrite IH; rewrite <- app_assoc; [reflexivity | exact H].
    + rewrite map_app in H; cbn [map fst] in H.
      apply NoDup_remove_2 in H. intros Hin; apply H, in_or_app; left; exact Hin.
Qed.

(** ** The text of arrays and objects *)

(** What follows the first element of an array at indentation [indent]:
    the other elements, each after a comma, then the closing bracket at
    indentation [stepback]. *)
Fixpoint elements_text (indent stepback : jsstring) (items : list json)
  (rest : jsstring) : jsstring :=
  match items with
  | [] => newline ++ stepback ++ u "]" ++ rest
  | v :: vs =>
      u "," ++ newline ++ indent ++ stringify_at indent v
      ++ elements_text indent stepback vs rest
  end.

Definition member_text (indent : jsstring) (kv : jsstring * json) : jsstring :=
  QuoteJSONString (fst kv) ++ u ": " ++ stringify_at indent (snd kv).

Fixpoint members_text (indent stepback : jsstring)
  (props : list (jsstring * json)) (rest : jsstring) : jsstring :=
  match props with
  | [] => newline ++ stepback ++ u "}" ++ rest
  | kv :: kvs =>
      u "," ++ newline ++ indent ++ member_text indent kv
      ++ members_text indent stepback kvs rest
  end.

Lemma join_tail {A : Type} (f : A -> jsstring) (sep : jsstring) (x : A)
  (xs : list A) (tail : jsstring) :
  join sep (map f (x :: xs)) ++ tail
  = f x ++ fold_right (fun y t => sep ++ f y ++ t) tail xs.
Proof.
  revert x; induction xs as [|y xs IH]; intros x.
  - reflexivity.
  - change (join sep (map f (x :: y :: xs)))
      with (f x ++ sep ++ join sep (map f (y :: xs))).
    rewrite <- !app_assoc, IH. reflexivity.
Qed.

Lemma stringify_array (ind : jsstring) (v : json) (vs : list json)
  (rest : jsstring) :
  stringify_at ind (JArr (v :: vs)) ++ rest
  = u "[" ++ newline ++ (ind ++ u "  ") ++ stringify_at (ind ++ u "  ") v
    ++ elements_text (ind ++ u "  ") ind vs rest.
Proof.
  cbn [stringify_at]. generalize (ind ++ u "  "); intros ind'.
  rewrite <- !app_assoc. do 3 f_equal.
  rewrite join_tail; cbv beta. f_equal.
  induction vs as [|v' vs IH]; [reflexivity|].
  cbn [fold_right elements_text]. rewrite <- !app_assoc, IH. reflexivity.
Qed.

Lemma stringify_object (ind : jsstring) (kv : jsstring * json)
  (kvs : list (jsstring * json)) (rest : jsstring) :
  stringify_at ind (JObj (kv :: kvs)) ++ rest
  = u "{" ++ newline ++ (ind ++ u "  ") ++ member_text (ind ++ u "  ") kv
    ++ members_text (ind ++ u "  ") ind kvs rest.
Proof.
  cbn [stringify_at]. generalize (ind ++ u "  "); intros ind'.
  rewrite <- !app_assoc. do 3 f_equal.
  rewrite join_tail; cbv beta. unfold member_text at 1.
  rewrite <- !app_assoc. do 3 f_equal.
  induction kvs as [|kv' kvs IH]; [reflexivity|].
  cbn [fold_right members_text]. unfold member_text at 1.
  rewrite <- !app_assoc, IH. reflexivity.
Qed.

(** ** Parsing what [JSON.stringify] wrote *)

Lemma parse_value_skip (fuel : nat) (a s : jsstring) :
  forallb is_ws a = true -> parse_value fuel (a ++ s) = parse_value fuel s.
Proof.
  intros H; destruct fuel; [reflexivity|].
  cbn [parse_value]. rewrite (skip_ws_app a s H). reflexivity.
Qed.

Lemma indent_ws (ind : jsstring) :
  forallb is_ws ind = true -> forallb is_ws (ind ++ u "  ") = true.
Proof. intros H; rewrite forallb_app, H; reflexivity. Qed.

Lemma newline_indent_ws (ind : jsstring) :
  forallb is_ws ind = true -> forallb is_ws (newline ++ ind) = true.
Proof. intros H; cbn; exact H. Qed.

(** The first code unit of a value's text is no white space and closes
    neither an array nor an object. *)
Lemma stringify_first (ind : jsstring) (v : json) :
  numbers_roundtrip v = true ->
  exists c t, stringify_at ind v = c :: t
              /\ is_ws c = false /\ N.eqb c 93 = false /\ N.eqb c 125 = false.
Proof.
  intros Hn. destruct v as [| [|] | x | s | [|i items] | [|kv props]];
    try (eexists _, _; split; [reflexivity | repeat split; reflexivity]).
  cbn [numbers_roundtrip] in Hn.
  destruct (number_roundtrips_spec x Hn) as (c & tok & E & _ & Hc & _).
  destruct (digit_not_special c Hc) as (W & _ & _ & _ & B & C).
  exists c, tok; cbn [stringify_at]; auto.
Qed.

(** One step of each parser. *)

Lemma parse_value_array (f : nat) (s : jsstring) (c : N) (t : jsstring) :
  skip_ws s = c :: t -> N.eqb c 93 = false ->
  parse_value (S f) (u "[" ++ s)
  = match parse_elements f s with
    | Some (items, rest) => Some (JArr items, rest)
    | None => None
    end.
Proof. intros H B. cbn. rewrite H, B. reflexivity. Qed.

Lemma parse_value_object (f : nat) (s : jsstring) (c : N) (t : jsstring) :
  skip_ws s = c :: t -> N.eqb c 125 = false ->
  parse_value (S f) (u "{" ++ s)
  = match parse_members f s with
    | Some (members, rest) =>
        Some (JObj (fold_left (fun o kv => obj_set (fst kv) (snd kv) o)
                      members []), rest)
    | None => None
    end.
Proof. intros H B. cbn. rewrite H, B. reflexivity. Qed.

Lemma parse_elements_more (f : nat) (s : jsstring) (v : json)
  (r r' : jsstring) :
  parse_value f s = Some (v, r) -> skip_ws r = 44%N :: r' ->
  parse_elements (S f) s
  = match parse_elements f r' with
    | Some (vs, rest) => Some (v :: vs, rest)
    | None => None
    end.
Proof. intros H E. cbn [parse_elements]. rewrite H, E. reflexivity. Qed.

Lemma parse_elements_last (f : nat) (s : jsstring) (v : json)
  (r r' : jsstring) :
  parse_value f s = Some (v, r) -> skip_ws r = 93%N :: r' ->
  parse_elements (S f) s = Some ([v], r').
Proof. intros H E. cbn [parse_elements]. rewrite H, E. reflexivity. Qed.

Lemma parse_members_key (f : nat) (a : jsstring) (k s : jsstring) :
  forallb is_ws a = true ->
  parse_members (S f) (a ++ QuoteJSONString k ++ u ": " ++ s)
  = match parse_value f s with
    | Some (v, rest) =>
        match skip_ws rest with
        | c :: rest' =>
            if N.eqb c 44 then
              match parse_members f rest' with
              | Some (ms, rest'') => Some ((k, v) :: ms, rest'')
              | None => None
              end
            else if N.eqb c 125 then Some ([(k, v)], rest')
            else None
        | [] => None
        end
    | None => None
    end.
Proof.
  intros Ha. cbn [parse_members]. rewrite (skip_ws_app a _ Ha).
  unfold QuoteJSONString. rewrite <- !app_assoc.
  cbn [app skip_ws is_ws N.eqb Pos.eqb orb].
  rewrite parse_chars_quote.
  cbn [app u map list_ascii_of_string skip_ws].
  change (is_ws (N_of_ascii ":")) with false. cbv iota.
  change (N.eqb (N_of_ascii ":") 58) with true. cbv iota.
  rewrite <- (parse_value_skip f [N_of_ascii " "] s eq_refl).
  reflexivity.
Qed.

Definition elements_size (items : list json) : nat :=
  fold_right (fun i n => S (size i + n)) O items.

Definition members_size (props : list (jsstring * json)) : nat :=
  fold_right (fun kv n => S (size (snd kv) + n)) O props.

Lemma follows_elements (indent stepback : jsstring) (vs : list json)
  (rest : jsstring) :
  follows (elements_text indent stepback vs rest) = true.
Proof. destruct vs; reflexivity. Qed.

Lemma follows_members (indent stepback : jsstring)
  (kvs : list (jsstring * json)) (rest : jsstring) :
  follows (members_text indent stepback kvs rest) = true.
Proof. destruct kvs; reflexivity. Qed.

Lemma skip_ws_close (stepback : jsstring) (close : string) (c : N)
  (rest : jsstring) :
  forallb is_ws stepback = true -> u close = [c] -> is_ws c = false ->
  skip_ws (newline ++ stepback ++ u close ++ rest) = c :: rest.
Proof.
  intros Hs -> Hc. rewrite app_assoc, skip_ws_app by exact Hs.
  apply skip_ws_stop; exact Hc.
Qed.

Lemma parse_text (fuel : nat) :
  (forall v ind rest,
     (size v <= fuel)%nat ->
     numbers_roundtrip v = true -> distinct_keys v = true ->
     forallb is_ws ind = true -> follows rest = true ->
     parse_value fuel (stringify_at ind v ++ rest) = Some (v, rest))
  /\ (forall v vs indent stepback rest,
        (elements_size (v :: vs) <= fuel)%nat ->
        forallb (fun i => numbers_roundtrip i) (v :: vs) = true ->
        forallb (fun i => distinct_keys i) (v :: vs) = true ->
        forallb is_ws indent = true -> forallb is_ws stepback = true ->
        parse_elements fuel
          (newline ++ indent ++ stringify_at indent v
           ++ elements_text indent stepback vs rest)
        = Some (v :: vs, rest))
  /\ (forall kv kvs indent stepback rest,
        (members_size (kv :: kvs) <= fuel)%nat ->
        forallb (fun kv => numbers_roundtrip (snd kv)) (kv :: kvs) = true ->
        forallb (fun kv => distinct_keys (snd kv)) (kv :: kvs) = true ->
        forallb is_ws indent = true -> forallb is_ws stepback = true ->
        parse_members fuel
          (newline ++ indent ++ member_text indent kv
           ++ members_text indent stepback kvs rest)
        = Some (kv :: kvs, rest)).
Proof.
  induction fuel as [|f (IHv & IHe & IHm)].
  { repeat split; intros.
    - destruct v; simpl in H; lia.
    - simpl in H; lia.
    - simpl in H; lia. }
  split; [|split].
  - (* a value *)
    intros v ind rest Hsize Hnum Hkeys Hind Hrest.
    destruct v as [| [|] | x | s | [|i items] | [|kv props]];
      try reflexivity.
    + apply parse_value_number; assumption.
    + cbn [stringify_at]; unfold QuoteJSONString.
      rewrite <- !app_assoc.
      cbn [parse_value app skip_ws is_ws N.eqb Pos.eqb orb].
      rewrite parse_chars_quote. reflexivity.
    + rewrite stringify_array.
      cbn [numbers_roundtrip] in Hnum. cbn [distinct_keys] in Hkeys.
      assert (Hi : numbers_roundtrip i = true).
      { cbn [forallb] in Hnum; apply andb_true_iff in Hnum; tauto. }
      destruct (stringify_first (ind ++ u "  ") i Hi) as (c & t & E & W & B & _).
      rewrite (parse_value_array f _ c
                 (t ++ elements_text (ind ++ u "  ") ind items rest)).
      * rewrite IHe; [reflexivity | | exact Hnum | exact Hkeys
                     | apply indent_ws; exact Hind | exact Hind].
        cbn [size] in Hsize. fold (elements_size (i :: items)) in Hsize. lia.
      * rewrite app_assoc, skip_ws_app
          by (apply newline_indent_ws, indent_ws; exact Hind).
        rewrite E. apply skip_ws_stop; exact W.
      * exact B.
    + rewrite stringify_object.
      cbn [numbers_roundtrip] in Hnum. cbn [distinct_keys] in Hkeys.
      apply andb_true_iff in Hkeys; destruct Hkeys as [Hdist Hkeys].
      rewrite (parse_value_object f _ 34%N
                 (quote_chars (fst kv) ++ [34%N] ++ u ": "
                  ++ stringify_at (ind ++ u "  ") (snd kv)
                  ++ members_text (ind ++ u "  ") ind props rest)).
      * rewrite IHm; [ | | exact Hnum | exact Hkeys
                     | apply indent_ws; exact Hind | exact Hind].
        -- rewrite (fold_obj_set (kv :: props) []);
             [reflexivity | apply distinct_NoDup; exact Hdist].
        -- cbn [size] in Hsize. fold (members_size (kv :: props)) in Hsize. lia.
      * rewrite app_assoc, skip_ws_app
          by (apply newline_indent_ws, indent_ws; exact Hind).
        unfold member_text, QuoteJSONString. rewrite <- !app_assoc.
        reflexivity.
      * reflexivity.
  - (* the elements of an array *)
    intros v vs indent stepback rest Hsize Hnum Hkeys Hind Hstep.
    cbn [forallb] in Hnum; apply andb_true_iff in Hnum; destruct Hnum as [Hv Hvs].
    cbn [forallb] in Hkeys; apply andb_true_iff in Hkeys; destruct Hkeys as [Kv Kvs].
    cbn [elements_size fold_right] in Hsize. fold (elements_size vs) in Hsize.
    assert (Hpv : parse_value f (newline ++ indent ++ stringify_at indent v
                                 ++ elements_text indent stepback vs rest)
                  = Some (v, elements_text indent stepback vs rest)).
    { rewrite app_assoc, parse_value_skip by (apply newline_indent_ws; exact Hind).
      apply IHv; [lia | exact Hv | exact Kv | exact Hind | apply follows_elements]. }
    destruct vs as [|v' vs].
    + apply (parse_elements_last f _ v _ rest Hpv).
      apply (skip_ws_close stepback "]"); [exact Hstep | reflexivity | reflexivity].
    + rewrite (parse_elements_more f _ v _
                 (newline ++ indent ++ stringify_at indent v'
                  ++ elements_text indent stepback vs rest) Hpv);
        [|reflexivity].
      rewrite IHe; [reflexivity | | exact Hvs | exact Kvs | exact Hind | exact Hstep].
      fold (elements_size (v' :: vs)) in Hsize. lia.
  - (* the members of an object *)
    intros kv kvs indent stepback rest Hsize Hnum Hkeys Hind Hstep.
    cbn [forallb] in Hnum; apply andb_true_iff in Hnum; destruct Hnum as [Hv Hvs].
    cbn [forallb] in Hkeys; apply andb_true_iff in Hkeys; destruct Hkeys as [Kv Kvs].
    cbn [members_size fold_right] in Hsize. fold (members_size kvs) in Hsize.
    unfold member_text at 1. rewrite <- !app_assoc.
    rewrite (app_assoc newline indent).
    rewrite parse_members_key by (apply newline_indent_ws; exact Hind).
    rewrite IHv; [ | lia | exact Hv | exact Kv | exact Hind | apply follows_members].
    destruct kvs as [|kv' kvs].
    + cbn [members_text].
      rewrite (skip_ws_close stepback "}" 125%N);
        [destruct kv; reflexivity | exact Hstep | reflexivity | reflexivity].
    + cbn [members_text]. cbn [app u map list_ascii_of_string skip_ws].
      change (is_ws (N_of_ascii ",")) with false. cbv iota.
      change (N.eqb (N_of_ascii ",") 44) with true. cbv iota.
      rewrite IHm; [destruct kv; reflexivity | | exact Hvs | exact Kvs
                   | exact Hind | exact Hstep].
      fold (members_size (kv' :: kvs)) in Hsize. lia.
Qed.

(** Induction on values, through the lists inside them. *)
Section JsonInduction.

Variable P : json -> Prop.
Hypothesis HNull : P JNull.
Hypothesis HBool : forall b, P (JBool b).
Hypothesis HNum : forall x, P (JNum x).
Hypothesis HStr : forall s, P (JStr s).
Hypothesis HArr : forall items, Forall P items -> P (JArr items).
Hypothesis HObj :
  forall props, Forall (fun kv => P (snd kv)) props -> P (JObj props).

Fixpoint json_induction (v : json) : P v :=
  match v with
  | JNull => HNull
  | JBool b => HBool b
  | JNum x => HNum x
  | JStr s => HStr s
  | JArr items =>
      HArr items
        ((fix all (l : list json) : Forall P l :=
            match l with
            | [] => Forall_nil P
            | i :: rest => Forall_cons i (json_induction i) (all rest)
            end) items)
  | JObj props =>
      HObj props
        ((fix all (l : list (jsstring * json)) :
            Forall (fun kv => P (snd kv)) l :=
            match l with
            | [] => Forall_nil _
            | kv :: rest => Forall_cons kv (json_induction (snd kv)) (all rest)
            end) props)
  end.

End JsonInduction.

(** The text is at least as long as the fuel its value needs. *)
Lemma size_le_length (v : json) :
  numbers_roundtrip v = true ->
  forall ind, (size v <= length (stringify_at ind v))%nat.
Proof.
  induction v as [| b | x | s | items IH | props IH] using json_induction;
    intros Hn ind.
  - simpl; lia.
  - destruct b; simpl; lia.
  - cbn [numbers_roundtrip] in Hn.
    destruct (number_roundtrips_spec x Hn) as (c & tok & E & _).
    cbn [stringify_at size]. rewrite E. simpl; lia.
  - cbn [stringify_at size]. unfold QuoteJSONString. simpl; lia.
  - destruct items as [|i items]; [simpl; lia|].
    pose proof (stringify_array ind i items []) as E.
    rewrite app_nil_r in E. rewrite E. clear E.
    cbn [numbers_roundtrip forallb] in Hn.
    apply andb_true_iff in Hn; destruct Hn as [Hi Hitems].
    inversion IH as [|? ? IHi IHitems]; subst.
    specialize (IHi Hi (ind ++ u "  ")).
    assert (Hrest : (elements_size items
                     <= length (elements_text (ind ++ u "  ") ind items []))%nat).
    { clear - IHitems Hitems. generalize (ind ++ u "  "); intros ind'.
      induction items as [|j items IHl].
      - simpl; lia.
      - cbn [forallb] in Hitems.
        apply andb_true_iff in Hitems; destruct Hitems as [Hj Hitems].
        inversion IHitems as [|? ? IHj IHitems']; subst.
        specialize (IHl Hitems IHitems'). specialize (IHj Hj ind').
        cbn [elements_size fold_right elements_text].
        fold (elements_size items).
        rewrite !length_app. simpl length. lia. }
    cbn [size fold_right]. fold (elements_size items).
    rewrite !length_app. simpl length. lia.
  - destruct props as [|kv props]; [simpl; lia|].
    pose proof (stringify_object ind kv props []) as E.
    rewrite app_nil_r in E. rewrite E. clear E.
    cbn [numbers_roundtrip forallb] in Hn.
    apply andb_true_iff in Hn; destruct Hn as [Hi Hprops].
    inversion IH as [|? ? IHi IHprops]; subst.
    specialize (IHi Hi (ind ++ u "  ")).
    assert (Hrest : (members_size props
                     <= length (members_text (ind ++ u "  ") ind props []))%nat).
    { clear - IHprops Hprops. generalize (ind ++ u "  "); intros ind'.
      induction props as [|j props IHl].
      - simpl; lia.
      - cbn [forallb] in Hprops.
        apply andb_true_iff in Hprops; destruct Hprops as [Hj Hprops].
        inversion IHprops as [|? ? IHj IHprops']; subst.
        specialize (IHl Hprops IHprops'). specialize (IHj Hj ind').
        cbn [members_size fold_right members_text].
        fold (members_size props). unfold member_text.
        rewrite !length_app. simpl length. lia. }
    cbn [size fold_right]. fold (members_size props). unfold member_text.
    rewrite !length_app. simpl length. lia.
Qed.

(** [JSON.parse] reads what [JSON.stringify] wrote as the value written,
    for a value whose numbers round-trip and whose objects have no
    repeated name. *)
Theorem JSON_parse_stringify (v : json) :
  numbers_roundtrip v = true -> distinct_keys v = true ->
  JSON_parse (JSON_stringify v) = Some v.
Proof.
  intros Hn Hk. unfold JSON_parse, JSON_stringify.
  pose proof (size_le_length v Hn []) as Hs.
  destruct (parse_text (2 * length (stringify_at [] v) + 2)) as [Hv _].
  specialize (Hv v [] [] ltac:(lia) Hn Hk eq_refl eq_refl).
  rewrite app_nil_r in Hv. rewrite Hv. reflexivity.
Qed.

(** ** What [JSON.parse] returns has no repeated property name *)

Lemma obj_set_keys (k : jsstring) (v : json) (acc : list (jsstring * json)) :
  map fst (obj_set k v acc)
  = if existsb (jsstring_eqb k) (map fst acc) then map fst acc
    else map fst acc ++ [k].
Proof.
  induction acc as [|[k' v'] acc IH]; [reflexivity|]. cbn [obj_set map fst existsb].
  destruct (jsstring_eqb k k'); [reflexivity|].
  cbn [map fst orb]. rewrite IH.
  destruct (existsb (jsstring_eqb k) (map fst acc)); reflexivity.
Qed.

Lemma obj_set_NoDup (k : jsstring) (v : json) (acc : list (jsstring * json)) :
  NoDup (map fst acc) -> NoDup (map fst (obj_set k v acc)).
Proof.
  intros H. rewrite obj_set_keys.
  destruct (existsb (jsstring_eqb k) (map fst acc)) eqn:E; [exact H|].
  apply NoDup_app; [exact H | repeat constructor; intros [] |].
  intros x Hx [<-|[]].
  apply existsb_eqb_In in Hx; congruence.
Qed.

Lemma obj_set_values (P : json -> bool) (k : jsstring) (v : json)
  (acc : list (jsstring * json)) :
  P v = true -> forallb (fun kv => P (snd kv)) acc = true ->
  forallb (fun kv => P (snd kv)) (obj_set k v acc) = true.
Proof.
  intros Hv. induction acc as [|[k' v'] acc IH]; cbn [obj_set forallb snd].
  - intros _; rewrite Hv; reflexivity.
  - intros H; apply andb_true_iff in H; destruct H as [H1 H2].
    destruct (jsstring_eqb k k'); cbn [forallb snd].
    + rewrite Hv, H2; reflexivity.
    + rewrite H1, (IH H2); reflexivity.
Qed.

Lemma fold_obj_set_distinct (ms acc : list (jsstring * json)) :
  NoDup (map fst acc) ->
  forallb (fun kv => distinct_keys (snd kv)) acc = true ->
  forallb (fun kv => distinct_keys (snd kv)) ms = true ->
  distinct_keys
    (JObj (fold_left (fun o kv => obj_set (fst kv) (snd kv) o) ms acc)) = true.
Proof.
  revert acc; induction ms as [|[k v] ms IH]; intros acc Hd Ha Hm.
  - cbn [fold_left distinct_keys].
    apply andb_true_iff; split; [apply distinct_NoDup; exact Hd | exact Ha].
  - cbn [forallb snd] in Hm; apply andb_true_iff in Hm; destruct Hm as [Hv Hm].
    cbn [fold_left fst snd]. apply IH.
    + apply obj_set_NoDup; exact Hd.
    + apply obj_set_values; assumption.
    + exact Hm.
Qed.

Ltac break_parse H :=
  repeat match type of H with
         | context [match ?x with _ => _ end] =>
             let E := fresh "E" in destruct x eqn:E; try discriminate H
         end.

Lemma parse_distinct (fuel : nat) :
  (forall s v rest, parse_value fuel s = Some (v, rest) ->
                    distinct_keys v = true)
  /\ (forall s vs rest, parse_elements fuel s = Some (vs, rest) ->
                        forallb (fun i => distinct_keys i) vs = true)
  /\ (forall s ms rest, parse_members fuel s = Some (ms, rest) ->
                        forallb (fun kv => distinct_keys (snd kv)) ms = true).
Proof.
  induction fuel as [|f (IHv & IHe & IHm)].
  { repeat split; intros; discriminate. }
  split; [|split].
  - intros s v rest H. cbn [parse_value] in H.
    break_parse H; injection H as <- _; try reflexivity.
    + cbn [distinct_keys]. eapply IHe; eassumption.
    + apply fold_obj_set_distinct; [constructor | reflexivity |].
      eapply IHm; eassumption.
  - intros s vs rest H. cbn [parse_elements] in H.
    break_parse H; injection H as <- _; cbn [forallb].
    + apply andb_true_iff; split; [eapply IHv | eapply IHe]; eassumption.
    + rewrite andb_true_r. eapply IHv; eassumption.
  - intros s ms rest H. cbn [parse_members] in H.
    break_parse H; injection H as <- _; cbn [forallb snd].
    + apply andb_true_iff; split; [eapply IHv | eapply IHm]; eassumption.
    + rewrite andb_true_r. eapply IHv; eassumption.
Qed.

Lemma JSON_parse_distinct (text : jsstring) (v : json) :
  JSON_parse text = Some v -> distinct_keys v = true.
Proof.
  unfold JSON_parse. intros H.
  destruct (parse_value (2 * length text + 2) text) as [[v' rest]|] eqn:E;
    [|discriminate].
  destruct (skip_ws rest); [|discriminate]. injection H as <-.
  destruct (parse_distinct (2 * length text + 2)) as [Hv _].
  eapply Hv; eassumption.
Qed.

(** * The fuel of [JSON_parse] never runs out *)

Lemma skip_ws_length (s : jsstring) : (length (skip_ws s) <= length s)%nat.
Proof.
  induction s as [|c s IH]; [reflexivity|]. cbn [skip_ws].
  destruct (is_ws c); cbn [length]; lia.
Qed.

Lemma skip_ws_cons_length (s : jsstring) (c : N) (rest : jsstring) :
  skip_ws s = c :: rest -> (length rest < length s)%nat.
Proof.
  intros H. pose proof (skip_ws_length s) as L. rewrite H in L.
  cbn [length] in L. lia.
Qed.

Lemma parse_chars_length_bounded (n : nat) (s str rest : jsstring) :
  (length s <= n)%nat ->
  parse_chars s = Some (str, rest) -> (length rest <= length s)%nat.
Proof.
  revert s str rest.
  induction n as [|n IH]; intros s str rest Hle H.
  - destruct s; [discriminate | cbn in Hle; lia].
  - destruct s as [|c s]; [discriminate|]. cbn [length] in Hle.
    cbn [parse_chars] in H.
    assert (Hcons : forall v t, (length t <= n)%nat ->
                cons_fst v (parse_chars t) = Some (str, rest) ->
                (length rest <= length t)%nat).
    { intros v t Ht Hc. unfold cons_fst in Hc.
      destruct (parse_chars t) as [[str' rest']|] eqn:E; [|discriminate].
      injection Hc as _ <-. eapply IH; eassumption. }
    destruct (N.eqb c 34); [injection H as _ <-; cbn [length]; lia|].
    destruct (N.eqb c 92).
    + destruct s as [|e s1]; [discriminate|]. cbn [length] in *.
      destruct (N.eqb e 117).
      * destruct s1 as [|h1 [|h2 [|h3 [|h4 s2]]]]; try discriminate.
        cbn [length] in *.
        destruct (hex4 h1 h2 h3 h4); [|discriminate].
        apply Hcons in H; lia.
      * destruct (unescape e); [|discriminate].
        apply Hcons in H; lia.
    + destruct (N.ltb c 32); [discriminate|].
      apply Hcons in H; cbn [length]; lia.
Qed.

Lemma parse_chars_length (s str rest : jsstring) :
  parse_chars s = Some (str, rest) -> (length rest <= length s)%nat.
Proof. apply (parse_chars_length_bounded (length s)); lia. Qed.

Lemma span_length (p : N -> bool) (s a b : jsstring) :
  span p s = (a, b) -> (length b <= length s)%nat.
Proof.
  revert a b; induction s as [|c s IH]; intros a b H; cbn [span] in H.
  - injection H as <- <-; reflexivity.
  - destruct (p c).
    + destruct (span p s) as [a' b'] eqn:E. injection H as <- <-.
      specialize (IH a' b' eq_refl). cbn [length]. lia.
    + injection H as <- <-; reflexivity.
Qed.

(** What a parser leaves is no longer than what it was given. *)
Lemma parse_length (fuel : nat) :
  (forall s v rest, parse_value fuel s = Some (v, rest) ->
                    (length rest <= length s)%nat)
  /\ (forall s vs rest, parse_elements fuel s = Some (vs, rest) ->
                        (length rest <= length s)%nat)
  /\ (forall s ms rest, parse_members fuel s = Some (ms, rest) ->
                        (length rest <= length s)%nat).
Proof.
  induction fuel as [|f (IHv & IHe & IHm)].
  { repeat split; intros; discriminate. }
  split; [|split].
  - intros s v rest H. cbn [parse_value] in H.
    destruct (skip_ws s) as [|c t] eqn:Es; [discriminate|].
    pose proof (skip_ws_cons_length s c t Es) as Ls.
    destruct (N.eqb c 34).
    { destruct (parse_chars t) as [[str r]|] eqn:Ec; [|discriminate].
      injection H as _ <-. apply parse_chars_length in Ec. lia. }
    destruct (N.eqb c 91).
    { destruct (skip_ws t) as [|c' t'] eqn:Et; [discriminate|].
      pose proof (skip_ws_cons_length t c' t' Et).
      destruct (N.eqb c' 93); [injection H as _ <-; lia|].
      destruct (parse_elements f t) as [[items r]|] eqn:Ee; [|discriminate].
      injection H as _ <-. apply IHe in Ee. lia. }
    destruct (N.eqb c 123).
    { destruct (skip_ws t) as [|c' t'] eqn:Et; [discriminate|].
      pose proof (skip_ws_cons_length t c' t' Et).
      destruct (N.eqb c' 125); [injection H as _ <-; lia|].
      destruct (parse_members f t) as [[ms r]|] eqn:Ee; [|discriminate].
      injection H as _ <-. apply IHm in Ee. lia. }
    destruct (is_digit c || N.eqb c 45)%bool.
    { destruct (span is_numchar (c :: t)) as [tok r] eqn:Esp.
      destruct (number_of_token tok); [|discriminate].
      injection H as _ <-. apply span_length in Esp. cbn [length] in Esp. lia. }
    assert (Hskip : forall n, (length (skipn n (c :: t)) <= length s)%nat).
    { intros n. rewrite length_skipn. cbn [length]. lia. }
    unfold after_literal in H.
    destruct (is_literal "true" (c :: t));
      [injection H as _ <-; exact (Hskip 4%nat)|].
    destruct (is_literal "false" (c :: t));
      [injection H as _ <-; exact (Hskip 5%nat)|].
    destruct (is_literal "null" (c :: t));
      [injection H as _ <-; exact (Hskip 4%nat)|].
    discriminate.
  - intros s vs rest H. cbn [parse_elements] in H.
    destruct (parse_value f s) as [[v r]|] eqn:Ev; [|discriminate].
    apply IHv in Ev.
    destruct (skip_ws r) as [|c r'] eqn:Er; [discriminate|].
    pose proof (skip_ws_cons_length r c r' Er).
    destruct (N.eqb c 44).
    + destruct (parse_elements f r') as [[vs' r'']|] eqn:Ee; [|discriminate].
      injection H as _ <-. apply IHe in Ee. lia.
    + destruct (N.eqb c 93); [|discriminate]. injection H as _ <-. lia.
  - intros s ms rest H. cbn [parse_members] in H.
    destruct (skip_ws s) as [|q s1] eqn:Es; [discriminate|].
    pose proof (skip_ws_cons_length s q s1 Es).
    destruct (N.eqb q 34); [|discriminate].
    destruct (parse_chars s1) as [[k s2]|] eqn:Ek; [|discriminate].
    apply parse_chars_length in Ek.
    destruct (skip_ws s2) as [|colon s3] eqn:E2; [discriminate|].
    pose proof (skip_ws_cons_length s2 colon s3 E2).
    destruct (N.eqb colon 58); [|discriminate].
    destruct (parse_value f s3) as [[v r]|] eqn:Ev; [|discriminate].
    apply IHv in Ev.
    destruct (skip_ws r) as [|c r'] eqn:Er; [discriminate|].
    pose proof (skip_ws_cons_length r c r' Er).
    destruct (N.eqb c 44).
    + destruct (parse_members f r') as [[ms' r'']|] eqn:Ee; [|discriminate].
      injection H as _ <-. apply IHm in Ee. lia.
    + destruct (N.eqb c 125); [|discriminate]. injection H as _ <-. lia.
Qed.

(** With two units of fuel per code unit, more fuel changes nothing. *)
Lemma parse_fuel (f : nat) :
  (forall s f', (2 * length s + 1 <= f)%nat -> (f <= f')%nat ->
                parse_value f' s = parse_value f s)
  /\ (forall s f', (2 * length s + 2 <= f)%nat -> (f <= f')%nat ->
                   parse_elements f' s = parse_elements f s)
  /\ (forall s f', (2 * length s + 2 <= f)%nat -> (f <= f')%nat ->
                   parse_members f' s = parse_members f s).
Proof.
  induction f as [|f (IHv & IHe & IHm)].
  { repeat split; intros; lia. }
  destruct (parse_length f) as (Lv & _ & _).
  split; [|split].
  - intros s f' Hs Hf. destruct f' as [|f']; [lia|].
    cbn [parse_value].
    destruct (skip_ws s) as [|c t] eqn:Es; [reflexivity|].
    pose proof (skip_ws_cons_length s c t Es) as Ls.
    rewrite (IHe t f'), (IHm t f') by lia. reflexivity.
  - intros s f' Hs Hf. destruct f' as [|f']; [lia|].
    cbn [parse_elements].
    rewrite (IHv s f') by lia.
    destruct (parse_value f s) as [[v r]|] eqn:Ev; [|reflexivity].
    apply Lv in Ev.
    destruct (skip_ws r) as [|c r'] eqn:Er; [reflexivity|].
    pose proof (skip_ws_cons_length r c r' Er).
    rewrite (IHe r' f') by lia. reflexivity.
  - intros s f' Hs Hf. destruct f' as [|f']; [lia|].
    cbn [parse_members].
    destruct (skip_ws s) as [|q s1] eqn:Es; [reflexivity|].
    pose proof (skip_ws_cons_length s q s1 Es).
    destruct (N.eqb q 34); [|reflexivity].
    destruct (parse_chars s1) as [[k s2]|] eqn:Ek; [|reflexivity].
    apply parse_chars_length in Ek.
    destruct (skip_ws s2) as [|colon s3] eqn:E2; [reflexivity|].
    pose proof (skip_ws_cons_length s2 colon s3 E2).
    destruct (N.eqb colon 58); [|reflexivity].
    rewrite (IHv s3 f') by lia.
    destruct (parse_value f s3) as [[v r]|] eqn:Ev; [|reflexivity].
    apply Lv in Ev.
    destruct (skip_ws r) as [|c r'] eqn:Er; [reflexivity|].
    pose proof (skip_ws_cons_length r c r' Er).
    rewrite (IHm r' f') by lia. reflexivity.
Qed.

(** [JSON_parse] gives every text the fuel it can use: no text is
    refused, or read differently, for want of fuel. *)
Theorem JSON_parse_fuel (text : jsstring) (fuel : nat) :
  (2 * length text + 2 <= fuel)%nat ->
  parse_value fuel text = parse_value (2 * length text + 2) text.
Proof.
  intros H. destruct (parse_fuel (2 * length text + 2)) as [Hv _].
  apply Hv; lia.
Qed.

(** * Numbers survive the round trip *)

(** ** Decimal digits *)

Lemma digits_aux_app (fuel : nat) (n : Z) (acc : jsstring) :
  digits_aux fuel n acc = digits_aux fuel n [] ++ acc.
Proof.
  revert n acc; induction fuel as [|f IH]; intros n acc; [reflexivity|].
  cbn [digits_aux]. destruct (n / 10 =? 0); [reflexivity|].
  rewrite (IH (n / 10) (_ :: acc)), (IH (n / 10) [_]), <- app_assoc.
  reflexivity.
Qed.

Lemma digits_aux_fuel (f f' : nat) (n : Z) :
  (0 < f)%nat -> (f <= f')%nat -> 0 <= n < 2 ^ Z.of_nat f ->
  digits_aux f' n [] = digits_aux f n [].
Proof.
  revert f' n; induction f as [|f IH]; intros f' n Hf Hle Hn; [lia|].
  destruct f' as [|f']; [lia|].
  cbn [digits_aux]. destruct (Z.eqb_spec (n / 10) 0) as [E|E]; [reflexivity|].
  rewrite (digits_aux_app f'), (digits_aux_app f). f_equal.
  rewrite Nat2Z.inj_succ, Z.pow_succ_r in Hn by lia.
  assert (10 <= n) by lia_div.
  assert (2 <= Z.of_nat f).
  { destruct f as [|[|f]]; [cbn in Hn; lia | cbn in Hn; lia | lia]. }
  apply IH; [lia | lia | lia_div].
Qed.

Lemma log2_fuel (n : Z) : 0 <= n -> n < 2 ^ Z.of_nat (S (Z.to_nat (Z.log2 n))).
Proof.
  intros Hn. rewrite Nat2Z.inj_succ, Z2Nat.id by apply Z.log2_nonneg.
  destruct (Z.eq_dec n 0) as [->|Hz]; [reflexivity|].
  apply Z.log2_spec; lia.
Qed.

Lemma digits_small (n : Z) : 0 <= n < 10 -> digits n = [digit_char n].
Proof.
  intros Hn. unfold digits. cbn [digits_aux].
  rewrite Z.mod_small, Z.div_small by lia. reflexivity.
Qed.

Lemma digits_step (n : Z) :
  10 <= n -> digits n = digits (n / 10) ++ [digit_char (n mod 10)].
Proof.
  intros Hn. unfold digits at 1. cbn [digits_aux].
  destruct (Z.eqb_spec (n / 10) 0) as [E|E]; [lia_div|].
  rewrite digits_aux_app. f_equal.
  unfold digits.
  assert (H10 : 0 <= n / 10) by lia_div.
  pose proof (log2_fuel (n / 10) H10) as Hf.
  assert (Hlog : Z.log2 (n / 10) < Z.log2 n).
  { apply Z.log2_lt_pow2; [lia_div|].
    pose proof (Z.log2_spec n ltac:(lia)) as [_ Hhi].
    rewrite Z.pow_succ_r in Hhi by apply Z.log2_nonneg. lia_div. }
  pose proof (Z.log2_nonneg (n / 10)).
  apply digits_aux_fuel; [lia | lia | exact (conj H10 Hf)].
Qed.

(** Induction on a number through its decimal digits. *)
Lemma digits_ind (P : Z -> Prop) :
  (forall n, 0 <= n < 10 -> P n) ->
  (forall n, 10 <= n -> P (n / 10) -> P n) ->
  forall n, 0 <= n -> P n.
Proof.
  intros Hsmall Hstep n Hn.
  assert (H : forall k, (0 <= k) -> forall m, 0 <= m <= k -> P m).
  { intros k Hk. pattern k. apply natlike_ind; [| |exact Hk].
    - intros m Hm. apply Hsmall; lia.
    - intros x Hx IH m Hm.
      destruct (Z_lt_le_dec m 10); [apply Hsmall; lia|].
      apply Hstep; [lia|]. apply IH. lia_div. }
  apply (H n Hn); lia.
Qed.

Lemma digit_val_char (d : Z) : 0 <= d < 10 -> digit_val (digit_char d) = d.
Proof. intros H. unfold digit_val, digit_char. lia. Qed.

Lemma is_digit_char (d : Z) : 0 <= d < 10 -> is_digit (digit_char d) = true.
Proof.
  intros H. unfold is_digit, digit_char.
  apply andb_true_iff; split; apply N.leb_le; lia.
Qed.

Lemma digits_val_app (a b : jsstring) :
  digits_val (a ++ b) = digits_val a * 10 ^ Z.of_nat (length b) + digits_val b.
Proof.
  unfold digits_val. rewrite fold_left_app.
  generalize (fold_left (fun acc c => 10 * acc + digit_val c) a 0).
  induction b as [|c b IH]; intros x.
  - cbn. lia.
  - cbn [fold_left length]. rewrite IH, (IH (10 * 0 + digit_val c)).
    rewrite Nat2Z.inj_succ, Z.pow_succ_r by lia. lia.
Qed.

Lemma digits_val_single (c : N) : digits_val [c] = digit_val c.
Proof. unfold digits_val; cbn [fold_left]. lia. Qed.

Lemma digits_val_digits (n : Z) : 0 <= n -> digits_val (digits n) = n.
Proof.
  apply (digits_ind (fun n => digits_val (digits n) = n)).
  - intros m Hm. rewrite digits_small by exact Hm.
    rewrite digits_val_single, digit_val_char by exact Hm. reflexivity.
  - intros m Hm IH. rewrite digits_step, digits_val_app, IH by exact Hm.
    rewrite digits_val_single, digit_val_char by lia_div.
    cbn [length]. change (10 ^ Z.of_nat 1) with 10. lia_div.
Qed.

Lemma digits_all (n : Z) : 0 <= n -> forallb is_digit (digits n) = true.
Proof.
  apply (digits_ind (fun n => forallb is_digit (digits n) = true)).
  - intros m Hm. rewrite digits_small by exact Hm.
    cbn [forallb]. rewrite is_digit_char by exact Hm. reflexivity.
  - intros m Hm IH. rewrite digits_step, forallb_app, IH by exact Hm.
    cbn [forallb]. rewrite is_digit_char by lia_div. reflexivity.
Qed.

(** The digits of a positive number start with a digit that is not 0. *)
Lemma digits_head (n : Z) :
  0 < n -> exists d rest, digits n = digit_char d :: rest /\ 1 <= d < 10.
Proof.
  intros Hn. assert (H0 : 0 <= n) by lia. revert Hn.
  apply (digits_ind (fun n => 0 < n -> exists d rest,
                         digits n = digit_char d :: rest /\ 1 <= d < 10));
    [| |exact H0].
  - intros m Hm Hp. exists m, []. rewrite digits_small by exact Hm.
    split; [reflexivity | lia].
  - intros m Hm IH _. destruct IH as (d & rest & E & Hd); [lia_div|].
    exists d, (rest ++ [digit_char (m mod 10)]).
    rewrite digits_step, E by exact Hm. split; [reflexivity | exact Hd].
Qed.

(** A number of [k] digits lies between [10^(k-1)] and [10^k]. *)
Lemma digits_bounds (n : Z) :
  0 < n ->
  10 ^ (Z.of_nat (length (digits n)) - 1) <= n
  < 10 ^ Z.of_nat (length (digits n)).
Proof.
  intros Hn. assert (H0 : 0 <= n) by lia. revert Hn.
  apply (digits_ind (fun n => 0 < n ->
           10 ^ (Z.of_nat (length (digits n)) - 1) <= n
           < 10 ^ Z.of_nat (length (digits n)))); [| |exact H0].
  - intros m Hm Hp. rewrite digits_small by exact Hm. cbn. lia.
  - intros m Hm IH _. rewrite digits_step by exact Hm.
    rewrite length_app. cbn [length]. rewrite Nat2Z.inj_add.
    change (Z.of_nat 1) with 1.
    destruct IH as [Hlo Hhi]; [lia_div|].
    assert (Hk : 1 <= Z.of_nat (length (digits (m / 10)))).
    { destruct (digits_head (m / 10)) as (d & rest & E & _); [lia_div|].
      rewrite E; cbn [length]; lia. }
    replace (Z.of_nat (length (digits (m / 10))) + 1 - 1)
      with (Z.succ (Z.of_nat (length (digits (m / 10))) - 1)) by lia.
    rewrite Z.pow_succ_r by lia.
    rewrite Z.pow_add_r by lia. change (10 ^ 1) with 10.
    split; lia_div.
Qed.

Lemma digits_length_mul10 (n : Z) :
  0 < n -> length (digits (10 * n)) = S (length (digits n)).
Proof.
  intros Hn. rewrite digits_step by lia.
  replace (10 * n / 10) with n by lia_div.
  rewrite length_app. cbn [length]. lia.
Qed.

(** ** Normal form *)

Lemma strip_zeros_spec (fuel : nat) (m e : Z) :
  m <> 0 -> Z.abs m < 2 ^ Z.of_nat fuel ->
  exists j, 0 <= j
            /\ strip_zeros fuel m e = (m / 10 ^ j, e + j)
            /\ m = (m / 10 ^ j) * 10 ^ j
            /\ (m / 10 ^ j) mod 10 <> 0.
Proof.
  revert m e; induction fuel as [|f IH]; intros m e Hm Hb.
  - cbn in Hb. lia.
  - cbn [strip_zeros].
    destruct (Z.eqb_spec (m mod 10) 0) as [E|E].
    + rewrite Nat2Z.inj_succ, Z.pow_succ_r in Hb by lia.
      destruct (IH (m / 10) (e + 1)) as (j & Hj & Hs & Hv & Hn);
        [lia_div | lia_div |].
      exists (j + 1).
      assert (Hp : 10 ^ (j + 1) = 10 * 10 ^ j) by (rewrite Z.pow_add_r; lia).
      assert (Hd : m / 10 ^ (j + 1) = m / 10 / 10 ^ j).
      { rewrite Hp, Z.div_div by lia. reflexivity. }
      rewrite Hd. repeat split; [lia | rewrite Hs; f_equal; lia | | exact Hn].
      rewrite Hp. lia_div.
    + exists 0. rewrite Z.pow_0_r, Z.div_1_r, Z.add_0_r.
      repeat split; [lia | lia | exact E].
Qed.

Lemma abs_lt_log2 (m : Z) :
  Z.abs m < 2 ^ Z.of_nat (S (Z.to_nat (Z.log2 (Z.abs m)))).
Proof. apply log2_fuel; lia. Qed.

Lemma normalize_spec (m e : Z) :
  m <> 0 ->
  exists j, 0 <= j
            /\ normalize m e = Fin (m / 10 ^ j) (e + j)
            /\ m = (m / 10 ^ j) * 10 ^ j
            /\ (m / 10 ^ j) mod 10 <> 0.
Proof.
  intros Hm. unfold normalize.
  destruct (Z.eqb_spec m 0) as [|_]; [contradiction|].
  destruct (strip_zeros_spec _ m e Hm (abs_lt_log2 m)) as (j & Hj & Hs & Hv & Hn).
  exists j. rewrite Hs. auto.
Qed.

(** A number whose last digit is not 0 is in normal form. *)
Lemma normalize_canonical (m e : Z) : m mod 10 <> 0 -> normalize m e = Fin m e.
Proof.
  intros Hn. assert (Hm : m <> 0) by (intros ->; apply Hn; reflexivity).
  destruct (normalize_spec m e Hm) as (j & Hj & Hs & Hv & Hn').
  assert (j = 0).
  { destruct (Z.eq_dec j 0) as [|Hj0]; [assumption|]. exfalso. apply Hn.
    replace j with (Z.succ (j - 1)) in Hv by lia.
    rewrite Z.pow_succ_r in Hv by lia. rewrite Hv.
    rewrite Z.mul_assoc, (Z.mul_comm _ 10), <- Z.mul_assoc, Z.mul_comm.
    apply Z.mod_mul; lia. }
  subst j. rewrite Z.pow_0_r, Z.div_1_r, Z.add_0_r in Hs. exact Hs.
Qed.

Lemma pow10_factor (a b x y : Z) :
  a mod 10 <> 0 -> 0 <= x < y -> a * 10 ^ x <> b * 10 ^ y.
Proof.
  intros Ha Hxy E. apply Ha.
  replace y with (x + Z.succ (y - x - 1)) in E by lia.
  rewrite Z.pow_add_r, Z.pow_succ_r in E by lia.
  assert (Hp : 0 < 10 ^ x) by (apply Z.pow_pos_nonneg; lia).
  assert (Ea : a = b * 10 ^ (y - x - 1) * 10) by nia.
  rewrite Ea. apply Z.mod_mul; lia.
Qed.

Lemma pow10_unique (a b x y : Z) :
  a mod 10 <> 0 -> b mod 10 <> 0 -> 0 <= x -> 0 <= y ->
  a * 10 ^ x = b * 10 ^ y -> x = y /\ a = b.
Proof.
  intros Ha Hb Hx Hy E.
  destruct (Z.lt_trichotomy x y) as [L|[->|L]].
  - exfalso; exact (pow10_factor a b x y Ha (conj Hx L) E).
  - split; [reflexivity|].
    assert (Hp : 0 < 10 ^ y) by (apply Z.pow_pos_nonneg; lia). nia.
  - exfalso; exact (pow10_factor b a y x Hb (conj Hy L) (eq_sym E)).
Qed.

(** Trailing zeros of the significand go to the exponent. *)
Lemma normalize_zeros (m e j : Z) :
  m mod 10 <> 0 -> 0 <= j -> normalize (m * 10 ^ j) (e - j) = Fin m e.
Proof.
  intros Hn Hj.
  assert (Hm : m <> 0) by (intros ->; apply Hn; reflexivity).
  assert (Hp : 0 < 10 ^ j) by (apply Z.pow_pos_nonneg; lia).
  destruct (normalize_spec (m * 10 ^ j) (e - j)) as (i & Hi & Hs & Hv & Hq);
    [nia|].
  destruct (pow10_unique m _ j i Hn Hq Hj Hi Hv) as [Eji Em].
  rewrite Hs, <- Em. f_equal. lia.
Qed.

(** ** The range tests look at the value, not at how it is written *)

Lemma position_mul10 (m e : Z) :
  0 < m -> position (10 * m) (e - 1) = position m e.
Proof.
  intros Hm. unfold position. rewrite digits_length_mul10 by exact Hm. lia.
Qed.

Lemma leb_iff (a b c d : Z) : (a <= b <-> c <= d) -> (a <=? b) = (c <=? d).
Proof.
  intros H. destruct (Z.leb_spec a b), (Z.leb_spec c d); try reflexivity; lia.
Qed.

Lemma pow10_pred (e : Z) : 0 < e -> 10 ^ e = 10 * 10 ^ (e - 1).
Proof.
  intros He. replace e with (Z.succ (e - 1)) at 1 by lia.
  apply Z.pow_succ_r; lia.
Qed.

Lemma overflows_mul10 (m e : Z) :
  0 < m -> overflows (10 * m) (e - 1) = overflows m e.
Proof.
  intros Hm. unfold overflows. rewrite position_mul10 by exact Hm.
  destruct (310 <? position m e); [reflexivity|].
  destruct (position m e <? -330); [reflexivity|].
  generalize (2 ^ 1024 - 2 ^ 970); intros T.
  destruct (Z.leb_spec 0 (e - 1)), (Z.leb_spec 0 e); try lia; apply leb_iff.
  - rewrite (pow10_pred e) by lia.
    replace (10 * m * 10 ^ (e - 1)) with (m * (10 * 10 ^ (e - 1))) by ring.
    tauto.
  - assert (e = 0) by lia; subst e.
    change (- (0 - 1)) with 1. change (10 ^ 1) with 10. change (10 ^ 0) with 1.
    lia.
  - replace (- (e - 1)) with (- e + 1) by lia.
    rewrite (pow10_pred (- e + 1)) by lia.
    replace (- e + 1 - 1) with (- e) by lia.
    assert (0 < 10 ^ (- e)) by (apply Z.pow_pos_nonneg; lia). nia.
Qed.

Lemma underflows_mul10 (m e : Z) :
  0 < m -> underflows (10 * m) (e - 1) = underflows m e.
Proof.
  intros Hm. unfold underflows. rewrite position_mul10 by exact Hm.
  destruct (310 <? position m e); [reflexivity|].
  destruct (position m e <? -330); [reflexivity|].
  assert (HT : 10 < 2 ^ 1075) by reflexivity.
  revert HT; generalize (2 ^ 1075); intros T HT.
  destruct (Z.leb_spec 0 (e - 1)), (Z.leb_spec 0 e); try lia; try reflexivity.
  - assert (e = 0) by lia; subst e.
    change (- (0 - 1)) with 1. change (10 ^ 1) with 10.
    destruct (Z.leb_spec (10 * m * T) 10); [nia | reflexivity].
  - apply leb_iff.
    replace (- (e - 1)) with (- e + 1) by lia.
    rewrite (pow10_pred (- e + 1)) by lia.
    replace (- e + 1 - 1) with (- e) by lia.
    assert (0 < 10 ^ (- e)) by (apply Z.pow_pos_nonneg; lia). nia.
Qed.

Lemma overflows_scale (m e j : Z) :
  0 < m -> 0 <= j -> overflows (m * 10 ^ j) (e - j) = overflows m e.
Proof.
  intros Hm Hj. revert e. pattern j. apply natlike_ind; [| |exact Hj].
  - intros e. rewrite Z.pow_0_r, Z.mul_1_r, Z.sub_0_r. reflexivity.
  - intros x Hx IH e. rewrite Z.pow_succ_r by lia.
    assert (0 < 10 ^ x) by (apply Z.pow_pos_nonneg; lia).
    replace (m * (10 * 10 ^ x)) with (10 * (m * 10 ^ x)) by lia.
    replace (e - Z.succ x) with (e - x - 1) by lia.
    rewrite overflows_mul10 by nia. apply IH.
Qed.

Lemma underflows_scale (m e j : Z) :
  0 < m -> 0 <= j -> underflows (m * 10 ^ j) (e - j) = underflows m e.
Proof.
  intros Hm Hj. revert e. pattern j. apply natlike_ind; [| |exact Hj].
  - intros e. rewrite Z.pow_0_r, Z.mul_1_r, Z.sub_0_r. reflexivity.
  - intros x Hx IH e. rewrite Z.pow_succ_r by lia.
    assert (0 < 10 ^ x) by (apply Z.pow_pos_nonneg; lia).
    replace (m * (10 * 10 ^ x)) with (10 * (m * 10 ^ x)) by lia.
    replace (e - Z.succ x) with (e - x - 1) by lia.
    rewrite underflows_mul10 by nia. apply IH.
Qed.

(** ** The numbers [JSON.parse] returns *)

Lemma number_of_decimal_canonical (negative : bool) (m e : Z) :
  0 <= m -> canonical (number_of_decimal negative m e) = true.
Proof.
  intros Hm. unfold number_of_decimal.
  destruct (Z.eqb_spec m 0) as [|Hz]; [reflexivity|].
  destruct (overflows m e) eqn:Ho; [reflexivity|].
  destruct (underflows m e) eqn:Hu; [reflexivity|].
  set (s := if negative then - m else m).
  assert (Hs : s <> 0) by (unfold s; destruct negative; lia).
  assert (Habs : Z.abs s = m) by (unfold s; destruct negative; lia).
  destruct (normalize_spec s e Hs) as (j & Hj & Hn & Hv & Hq).
  rewrite Hn. cbn [canonical].
  set (q := s / 10 ^ j) in *.
  assert (Hp : 0 < 10 ^ j) by (apply Z.pow_pos_nonneg; lia).
  assert (Hm' : m = Z.abs q * 10 ^ j).
  { rewrite <- Habs, Hv, Z.abs_mul, (Z.abs_eq (10 ^ j)) by lia. reflexivity. }
  assert (Hq0 : 0 < Z.abs q) by nia.
  rewrite <- (overflows_scale (Z.abs q) (e + j) j Hq0 Hj).
  rewrite <- (underflows_scale (Z.abs q) (e + j) j Hq0 Hj).
  replace (e + j - j) with e by lia. rewrite <- Hm', Ho, Hu.
  apply Z.eqb_neq in Hq. rewrite Hq. apply orb_true_r.
Qed.

(** ** Reading a token from its parts *)

Lemma is_digit_numchar (c : N) : is_digit c = true -> is_numchar c = true.
Proof. intros H; unfold is_numchar; rewrite H; reflexivity. Qed.

Lemma digits_numchars (s : jsstring) :
  forallb is_digit s = true -> forallb is_numchar s = true.
Proof.
  induction s as [|c s IH]; [reflexivity|]. cbn [forallb].
  rewrite !andb_true_iff. intros [Hc Hs].
  split; [apply is_digit_numchar; exact Hc | apply IH; exact Hs].
Qed.

Lemma span_all (p : N -> bool) (s : jsstring) :
  forallb p s = true -> span p s = (s, []).
Proof.
  intros H. rewrite <- (app_nil_r s) at 1. apply span_app; [exact H | reflexivity].
Qed.

Lemma exponent_of_text (ex : Z) : exponent_of (exponent_text ex) = Some ex.
Proof.
  unfold exponent_text, exponent_of.
  assert (Hd := digits_all (Z.abs ex) ltac:(lia)).
  assert (Hv := digits_val_digits (Z.abs ex) ltac:(lia)).
  assert (Hne : nonempty (digits (Z.abs ex)) = true).
  { destruct (Z.eq_dec ex 0) as [->|Hz]; [reflexivity|].
    destruct (digits_head (Z.abs ex)) as (d & rest & E & _); [lia|].
    rewrite E; reflexivity. }
  change (u "e") with [101%N]. change (u "-") with [45%N].
  change (u "+") with [43%N].
  destruct (Z.ltb_spec ex 0); cbn [app N.eqb Pos.eqb orb];
    rewrite Hne, Hd, Hv; cbn [andb]; f_equal; lia.
Qed.

Lemma exponent_text_numchars (ex : Z) :
  forallb is_numchar (exponent_text ex) = true.
Proof.
  unfold exponent_text. rewrite !forallb_app.
  rewrite (digits_numchars _ (digits_all (Z.abs ex) ltac:(lia))).
  destruct (ex <? 0); reflexivity.
Qed.

Definition int_ok (int : jsstring) : bool :=
  match int with
  | [] => false
  | [_] => true
  | c :: _ => negb (N.eqb c 48)
  end.

(** A token without fraction. *)
Lemma unsigned_number_int (negative : bool) (int ex_text : jsstring) (ex : Z) :
  forallb is_digit int = true -> int_ok int = true ->
  (ex_text = [] /\ ex = 0 \/ ex_text = exponent_text ex) ->
  unsigned_number negative (int ++ ex_text)
  = Some (number_of_decimal negative (digits_val int) ex).
Proof.
  intros Hd Hok Hex. unfold unsigned_number.
  rewrite (span_app is_digit int ex_text Hd)
    by (destruct Hex as [[-> _]| ->]; reflexivity).
  fold (int_ok int). rewrite Hok.
  destruct Hex as [[-> ->]| ->].
  - cbn [exponent_of andb]. rewrite app_nil_r. reflexivity.
  - change (exponent_text ex) with (101%N :: skipn 1 (exponent_text ex)) at 1.
    cbn [N.eqb Pos.eqb andb].
    change (101%N :: skipn 1 (exponent_text ex)) with (exponent_text ex).
    rewrite exponent_of_text, app_nil_r. cbn [length].
    rewrite Z.sub_0_r. reflexivity.
Qed.

(** A token with a fraction. *)
Lemma unsigned_number_frac (negative : bool) (int frac ex_text : jsstring)
  (ex : Z) :
  forallb is_digit int = true -> int_ok int = true ->
  forallb is_digit frac = true -> nonempty frac = true ->
  (ex_text = [] /\ ex = 0 \/ ex_text = exponent_text ex) ->
  unsigned_number negative (int ++ u "." ++ frac ++ ex_text)
  = Some (number_of_decimal negative (digits_val (int ++ frac))
            (ex - Z.of_nat (length frac))).
Proof.
  intros Hd Hok Hf Hne Hex. unfold unsigned_number.
  rewrite (span_app is_digit int _ Hd) by reflexivity.
  fold (int_ok int). rewrite Hok.
  cbn [u map list_ascii_of_string app].
  change (N.eqb (N_of_ascii ".") 46) with true. cbv iota.
  rewrite (span_app is_digit frac ex_text Hf)
    by (destruct Hex as [[-> _]| ->]; reflexivity).
  rewrite Hne. cbn [andb].
  destruct Hex as [[-> ->]| ->].
  - reflexivity.
  - rewrite exponent_of_text. reflexivity.
Qed.

(** ** Reading what [Number::toString] wrote *)

Definition signed (negative : bool) (m : Z) : Z := if negative then - m else m.

Lemma number_of_decimal_scaled (negative : bool) (m e j : Z) :
  0 < m -> m mod 10 <> 0 ->
  overflows m e = false -> underflows m e = false -> 0 <= j ->
  number_of_decimal negative (m * 10 ^ j) (e - j) = Fin (signed negative m) e.
Proof.
  intros Hm Hn Ho Hu Hj. unfold number_of_decimal.
  assert (Hp : 0 < 10 ^ j) by (apply Z.pow_pos_nonneg; lia).
  destruct (Z.eqb_spec (m * 10 ^ j) 0) as [E|_]; [nia|].
  rewrite (overflows_scale m e j Hm Hj), Ho.
  rewrite (underflows_scale m e j Hm Hj), Hu.
  replace (if negative then - (m * 10 ^ j) else m * 10 ^ j)
    with (signed negative m * 10 ^ j) by (unfold signed; destruct negative; ring).
  apply normalize_zeros; [|exact Hj].
  unfold signed; destruct negative; [lia_div | exact Hn].
Qed.

Lemma number_of_decimal_exact (negative : bool) (m e : Z) :
  0 < m -> m mod 10 <> 0 ->
  overflows m e = false -> underflows m e = false ->
  number_of_decimal negative m e = Fin (signed negative m) e.
Proof.
  intros Hm Hn Ho Hu.
  pose proof (number_of_decimal_scaled negative m e 0 Hm Hn Ho Hu ltac:(lia)) as H.
  rewrite Z.pow_0_r, Z.mul_1_r, Z.sub_0_r in H. exact H.
Qed.

Lemma digits_val_zeros (j : nat) : digits_val (repeat (ch "0") j) = 0.
Proof.
  induction j as [|j IH]; [reflexivity|].
  change (repeat (ch "0") (S j)) with ([ch "0"] ++ repeat (ch "0") j).
  rewrite digits_val_app, IH. reflexivity.
Qed.

Lemma zeros_digits (j : nat) : forallb is_digit (repeat (ch "0") j) = true.
Proof. induction j as [|j IH]; [reflexivity | exact IH]. Qed.

Lemma int_ok_head (c : N) (t : jsstring) :
  N.eqb c 48 = false -> int_ok (c :: t) = true.
Proof. intros H; destruct t; cbn; [reflexivity | rewrite H; reflexivity]. Qed.

Lemma digit_char_head (d : Z) : 1 <= d < 10 -> N.eqb (digit_char d) 48 = false.
Proof. intros H; apply N.eqb_neq; unfold digit_char; lia. Qed.

Lemma forallb_firstn {A : Type} (p : A -> bool) (n : nat) (l : list A) :
  forallb p l = true -> forallb p (firstn n l) = true.
Proof.
  intros H. rewrite <- (firstn_skipn n l), forallb_app in H.
  apply andb_true_iff in H; tauto.
Qed.

Lemma forallb_skipn {A : Type} (p : A -> bool) (n : nat) (l : list A) :
  forallb p l = true -> forallb p (skipn n l) = true.
Proof.
  intros H. rewrite <- (firstn_skipn n l), forallb_app in H.
  apply andb_true_iff in H; tauto.
Qed.

Lemma nonempty_length (s : jsstring) : (0 < length s)%nat -> nonempty s = true.
Proof. destruct s; cbn; [lia | reflexivity]. Qed.

(** The text of a positive number in normal form and in range is a
    token that starts with a digit and reads as the number, with either
    sign. *)
Lemma positive_toString_reads (negative : bool) (m e : Z) :
  0 < m -> m mod 10 <> 0 ->
  overflows m e = false -> underflows m e = false ->
  unsigned_number negative (positive_toString m e)
  = Some (Fin (signed negative m) e)
  /\ forallb is_numchar (positive_toString m e) = true
  /\ exists c t, positive_toString m e = c :: t /\ is_digit c = true.
Proof.
  intros Hm Hn Ho Hu.
  pose proof (digits_all m ltac:(lia)) as Hall.
  pose proof (digits_val_digits m ltac:(lia)) as Hval.
  destruct (digits_head m Hm) as (d & rest & Hs & Hd).
  pose proof (digit_char_head d Hd) as Hd48.
  pose proof (is_digit_char d ltac:(lia)) as Hdd.
  unfold positive_toString.
  set (s := digits m) in *.
  set (k := Z.of_nat (length s)).
  assert (Hk : k = Z.of_nat (S (length rest))) by (unfold k; rewrite Hs; reflexivity).
  rewrite Nat2Z.inj_succ in Hk.
  destruct ((k <=? k + e) && (k + e <=? 21)) eqn:A.
  { (* digits and zeros *)
    apply andb_true_iff in A; destruct A as [A1 A2].
    apply Z.leb_le in A1, A2.
    replace (k + e - k) with e by lia.
    set (zeros := repeat (ch "0") (Z.to_nat e)).
    assert (Hz : forallb is_digit (s ++ zeros) = true)
      by (rewrite forallb_app, Hall; apply zeros_digits).
    split; [|split].
    - rewrite <- (app_nil_r (s ++ zeros)).
      rewrite (unsigned_number_int negative (s ++ zeros) [] 0 Hz);
        [| rewrite Hs; apply int_ok_head; exact Hd48 | left; auto].
      f_equal. rewrite digits_val_app, Hval. unfold zeros.
      rewrite digits_val_zeros, repeat_length, Z2Nat.id, Z.add_0_r by lia.
      pose proof (number_of_decimal_scaled negative m e e Hm Hn Ho Hu ltac:(lia)) as H.
      rewrite Z.sub_diag in H. exact H.
    - apply digits_numchars; exact Hz.
    - exists (digit_char d), (rest ++ zeros). rewrite Hs. auto. }
  destruct ((0 <? k + e) && (k + e <=? 21)) eqn:B.
  { (* a decimal point inside the digits *)
    apply andb_true_iff in B; destruct B as [B1 B2].
    apply Z.ltb_lt in B1. apply Z.leb_le in B2.
    assert (A' : k + e < k).
    { apply andb_false_iff in A. destruct A as [A|A];
        [apply Z.leb_gt in A | apply Z.leb_gt in A]; lia. }
    set (n := Z.to_nat (k + e)).
    assert (Hn1 : (0 < n)%nat) by (unfold n; lia).
    assert (Hn2 : (n < length s)%nat) by (unfold n, k in *; lia).
    assert (Hint : forallb is_digit (firstn n s) = true)
      by (apply forallb_firstn; exact Hall).
    assert (Hfrac : forallb is_digit (skipn n s) = true)
      by (apply forallb_skipn; exact Hall).
    assert (Hlen : length (skipn n s) = (length s - n)%nat) by apply length_skipn.
    split; [|split].
    - rewrite <- (app_nil_r (skipn n s)).
      rewrite (unsigned_number_frac negative (firstn n s) (skipn n s) [] 0
                 Hint);
        [ | | exact Hfrac | apply nonempty_length; lia | left; auto].
      + f_equal. rewrite firstn_skipn, Hval, Hlen.
        replace (0 - Z.of_nat (length s - n)) with e by (unfold n, k in *; lia).
        apply number_of_decimal_exact; assumption.
      + rewrite Hs. destruct n as [|n']; [lia|]. cbn [firstn].
        apply int_ok_head; exact Hd48.
    - rewrite !forallb_app, (digits_numchars _ Hint), (digits_numchars _ Hfrac).
      reflexivity.
    - rewrite Hs. destruct n as [|n']; [lia|]. cbn [firstn app]. eauto. }
  destruct ((-6 <? k + e) && (k + e <=? 0)) eqn:C.
  { (* zeros after the decimal point *)
    apply andb_true_iff in C; destruct C as [C1 C2].
    apply Z.ltb_lt in C1. apply Z.leb_le in C2.
    set (zeros := repeat (ch "0") (Z.to_nat (- (k + e)))).
    assert (Hf : forallb is_digit (zeros ++ s) = true)
      by (rewrite forallb_app, Hall; unfold zeros; rewrite zeros_digits; reflexivity).
    change (u "0." ++ zeros ++ s) with ([ch "0"] ++ u "." ++ zeros ++ s).
    split; [|split].
    - replace ([ch "0"] ++ u "." ++ zeros ++ s)
        with ([ch "0"] ++ u "." ++ (zeros ++ s) ++ [])
        by (rewrite app_nil_r; reflexivity).
      rewrite (unsigned_number_frac negative [ch "0"] (zeros ++ s) [] 0
                 eq_refl eq_refl Hf);
        [ | rewrite Hs; destruct zeros; reflexivity | left; auto].
      f_equal. rewrite digits_val_app, digits_val_app, Hval.
      unfold zeros at 2. rewrite digits_val_zeros.
      rewrite length_app. unfold zeros. rewrite repeat_length.
      replace (0 - Z.of_nat (Z.to_nat (- (k + e)) + length s)) with e
        by (unfold k; lia).
      replace (digits_val [ch "0"] * 10 ^ Z.of_nat (Z.to_nat (- (k + e)) + length s)
               + (0 * 10 ^ Z.of_nat (length s) + m)) with m
        by (change (digits_val [ch "0"]) with 0; lia).
      apply number_of_decimal_exact; assumption.
    - rewrite !forallb_app, (digits_numchars _ Hall).
      unfold zeros. rewrite (digits_numchars _ (zeros_digits _)). reflexivity.
    - eexists _, _. split; reflexivity. }
  (* exponential notation *)
  rewrite Hs. destruct rest as [|r rest']; cbv beta iota.
  - split; [|split].
    + rewrite (unsigned_number_int negative [digit_char d]
                 (exponent_text (k + e - 1)) (k + e - 1));
        [ | cbn [forallb]; rewrite Hdd; reflexivity | reflexivity
          | right; reflexivity].
      f_equal. rewrite <- Hs, Hval. cbn [length] in Hk.
      replace (k + e - 1) with e by lia.
      apply number_of_decimal_exact; assumption.
    + rewrite forallb_app, exponent_text_numchars.
      cbn [forallb]. rewrite (is_digit_numchar _ Hdd). reflexivity.
    + eexists _, _. split; [reflexivity | exact Hdd].
  - assert (Hrest : forallb is_digit (r :: rest') = true).
    { rewrite Hs in Hall. cbn [forallb] in Hall.
      apply andb_true_iff in Hall. tauto. }
    split; [|split].
    + rewrite app_assoc.
      change (([digit_char d] ++ u ".") ++ (r :: rest') ++ exponent_text (k + e - 1))
        with ([digit_char d] ++ u "." ++ (r :: rest') ++ exponent_text (k + e - 1)).
      rewrite (unsigned_number_frac negative [digit_char d] (r :: rest')
                 (exponent_text (k + e - 1)) (k + e - 1));
        [ | cbn [forallb]; rewrite Hdd; reflexivity | reflexivity
          | exact Hrest | reflexivity | right; reflexivity].
      f_equal.
      change ([digit_char d] ++ r :: rest') with (digit_char d :: r :: rest').
      rewrite <- Hs, Hval.
      replace (k + e - 1 - Z.of_nat (length (r :: rest'))) with e by lia.
      apply number_of_decimal_exact; assumption.
    + rewrite !forallb_app, exponent_text_numchars, (digits_numchars _ Hrest).
      cbn [forallb]. rewrite (is_digit_numchar _ Hdd). reflexivity.
    + eexists _, _. split; [reflexivity | exact Hdd].
Qed.

(** ** Every finite number that [JSON.parse] returns round-trips *)

Lemma span_forallb (p : N -> bool) (s a b : jsstring) :
  span p s = (a, b) -> forallb p a = true.
Proof.
  revert a b; induction s as [|c s IH]; intros a b H; cbn [span] in H.
  - injection H as <- <-; reflexivity.
  - destruct (p c) eqn:Hc.
    + destruct (span p s) as [a' b'] eqn:E. injection H as <- <-.
      cbn [forallb]. rewrite Hc, (IH a' b' eq_refl). reflexivity.
    + injection H as <- <-; reflexivity.
Qed.

Lemma digits_val_nonneg (s : jsstring) :
  forallb is_digit s = true -> 0 <= digits_val s.
Proof.
  unfold digits_val.
  assert (H : forall acc, 0 <= acc -> forallb is_digit s = true ->
                          0 <= fold_left (fun a c => 10 * a + digit_val c) s acc).
  { induction s as [|c s IH]; intros acc Hacc Hs; [exact Hacc|].
    cbn [forallb] in Hs; apply andb_true_iff in Hs; destruct Hs as [Hc Hs].
    cbn [fold_left]. apply IH; [|exact Hs].
    unfold is_digit in Hc; apply andb_true_iff in Hc.
    rewrite !N.leb_le in Hc. unfold digit_val. lia. }
  apply H; lia.
Qed.

Lemma unsigned_number_canonical (negative : bool) (t : jsstring) (x : number) :
  unsigned_number negative t = Some x -> canonical x = true.
Proof.
  unfold unsigned_number.
  destruct (span is_digit t) as [int t2] eqn:Ei.
  pose proof (span_forallb _ _ _ _ Ei) as Hint.
  assert (Hgen : forall frac t3 ok,
             forallb is_digit frac = true ->
             (if match int with
                 | [] => false
                 | [_] => true
                 | c :: _ :: _ => negb (N.eqb c 48)
                 end && ok
              then match exponent_of t3 with
                   | Some ex =>
                       Some (number_of_decimal negative (digits_val (int ++ frac))
                               (ex - Z.of_nat (length frac)))
                   | None => None
                   end
              else None) = Some x -> canonical x = true).
  { intros frac t3 ok Hfrac H.
    destruct (_ && ok); [|discriminate].
    destruct (exponent_of t3); [|discriminate]. injection H as <-.
    apply number_of_decimal_canonical, digits_val_nonneg.
    rewrite forallb_app, Hint, Hfrac; reflexivity. }
  destruct t2 as [|c t2'].
  - apply Hgen; reflexivity.
  - destruct (N.eqb c 46).
    + destruct (span is_digit t2') as [f t'] eqn:Ef.
      apply Hgen. exact (span_forallb _ _ _ _ Ef).
    + apply Hgen; reflexivity.
Qed.

Lemma number_of_token_canonical (tok : jsstring) (x : number) :
  number_of_token tok = Some x -> canonical x = true.
Proof.
  unfold number_of_token. destruct tok as [|c t].
  - apply unsigned_number_canonical.
  - destruct (N.eqb c 45); apply unsigned_number_canonical.
Qed.

Lemma fold_obj_set_values (P : json -> bool) (ms acc : list (jsstring * json)) :
  forallb (fun kv => P (snd kv)) acc = true ->
  forallb (fun kv => P (snd kv)) ms = true ->
  forallb (fun kv => P (snd kv))
    (fold_left (fun o kv => obj_set (fst kv) (snd kv) o) ms acc) = true.
Proof.
  revert acc; induction ms as [|[k v] ms IH]; intros acc Ha Hm; [exact Ha|].
  cbn [forallb snd] in Hm; apply andb_true_iff in Hm; destruct Hm as [Hv Hm].
  cbn [fold_left fst snd]. apply IH; [|exact Hm].
  apply obj_set_values; assumption.
Qed.

Lemma parse_canonical (fuel : nat) :
  (forall s v rest, parse_value fuel s = Some (v, rest) ->
                    canonical_numbers v = true)
  /\ (forall s vs rest, parse_elements fuel s = Some (vs, rest) ->
                        forallb (fun i => canonical_numbers i) vs = true)
  /\ (forall s ms rest, parse_members fuel s = Some (ms, rest) ->
                        forallb (fun kv => canonical_numbers (snd kv)) ms = true).
Proof.
  induction fuel as [|f (IHv & IHe & IHm)].
  { repeat split; intros; discriminate. }
  split; [|split].
  - intros s v rest H. cbn [parse_value] in H.
    break_parse H; injection H as <- _; try reflexivity.
    + cbn [canonical_numbers]. eapply IHe; eassumption.
    + cbn [canonical_numbers].
      apply fold_obj_set_values; [reflexivity|]. eapply IHm; eassumption.
    + cbn [canonical_numbers]. eapply number_of_token_canonical; eassumption.
  - intros s vs rest H. cbn [parse_elements] in H.
    break_parse H; injection H as <- _; cbn [forallb].
    + apply andb_true_iff; split; [eapply IHv | eapply IHe]; eassumption.
    + rewrite andb_true_r. eapply IHv; eassumption.
  - intros s ms rest H. cbn [parse_members] in H.
    break_parse H; injection H as <- _; cbn [forallb snd].
    + apply andb_true_iff; split; [eapply IHv | eapply IHm]; eassumption.
    + rewrite andb_true_r. eapply IHv; eassumption.
Qed.

Lemma JSON_parse_canonical (text : jsstring) (v : json) :
  JSON_parse text = Some v -> canonical_numbers v = true.
Proof.
  unfold JSON_parse. intros H.
  destruct (parse_value (2 * length text + 2) text) as [[v' rest]|] eqn:E;
    [|discriminate].
  destruct (skip_ws rest); [|discriminate]. injection H as <-.
  destruct (parse_canonical (2 * length text + 2)) as [Hv _].
  eapply Hv; eassumption.
Qed.

Lemma number_eqb_refl (x : number) : number_eqb x x = true.
Proof.
  destruct x as [m e|[|]]; cbn; [|reflexivity|reflexivity].
  rewrite !Z.eqb_refl; reflexivity.
Qed.

(** A finite number in normal form is written as a token that reads as
    the same number. *)
Lemma canonical_roundtrips (x : number) :
  canonical x = true -> finite x = true -> number_roundtrips x = true.
Proof.
  destruct x as [m e|]; [|discriminate]. intros Hc _.
  cbn [canonical] in Hc. apply orb_true_iff in Hc. destruct Hc as [Hc|Hc].
  { apply andb_true_iff in Hc; destruct Hc as [Hm He].
    apply Z.eqb_eq in Hm, He; subst. reflexivity. }
  rewrite !andb_true_iff, !negb_true_iff in Hc. destruct Hc as [[Hn Ho] Hu].
  apply Z.eqb_neq in Hn.
  assert (Hm : m <> 0) by (intros ->; apply Hn; reflexivity).
  unfold number_roundtrips. cbn [stringify_number number_toString].
  destruct (Z.eqb_spec m 0) as [|_]; [contradiction|].
  destruct (Z.ltb_spec m 0) as [Hneg|Hpos].
  - destruct (positive_toString_reads true (- m) e) as (Hr & Hall & c & t & E & Hd);
      [lia | lia_div | rewrite <- Z.abs_neq by lia; exact Ho
       | rewrite <- Z.abs_neq by lia; exact Hu |].
    change (u "-" ++ positive_toString (- m) e)
      with (45%N :: positive_toString (- m) e).
    cbn [forallb number_of_token N.eqb Pos.eqb]. rewrite Hall, Hr.
    unfold signed. rewrite Z.opp_involutive, number_eqb_refl. reflexivity.
  - destruct (positive_toString_reads false m e) as (Hr & Hall & c & t & E & Hd);
      [lia | exact Hn | rewrite <- (Z.abs_eq m) by lia; exact Ho
       | rewrite <- (Z.abs_eq m) by lia; exact Hu |].
    rewrite Hall. rewrite E in *. rewrite Hd. cbn [orb andb].
    unfold number_of_token.
    assert (H45 : N.eqb c 45 = false).
    { unfold is_digit in Hd. apply andb_true_iff in Hd.
      rewrite !N.leb_le in Hd. apply N.eqb_neq. lia. }
    rewrite H45, Hr. unfold signed. apply number_eqb_refl.
Qed.

Lemma canonical_numbers_roundtrip (v : json) :
  canonical_numbers v = true -> finite_numbers v = true ->
  numbers_roundtrip v = true.
Proof.
  induction v as [| b | x | s | items IH | props IH] using json_induction;
    try reflexivity.
  - apply canonical_roundtrips.
  - cbn [canonical_numbers finite_numbers numbers_roundtrip].
    induction IH as [|i items Hi _ IHl]; [reflexivity|].
    cbn [forallb]. rewrite !andb_true_iff.
    intros [C1 C2] [F1 F2]. auto.
  - cbn [canonical_numbers finite_numbers numbers_roundtrip].
    induction IH as [|kv props Hkv _ IHl]; [reflexivity|].
    cbn [forallb]. rewrite !andb_true_iff.
    intros [C1 C2] [F1 F2]. auto.
Qed.

(** The round trip at last: a value that [JSON.parse] returned and that
    holds no infinity is written as a text that reads as the same
    value. *)
Theorem JSON_roundtrip (text : jsstring) (v : json) :
  JSON_parse text = Some v -> finite_numbers v = true ->
  JSON_parse (JSON_stringify v) = Some v.
Proof.
  intros Hp Hf. apply JSON_parse_stringify.
  - apply canonical_numbers_roundtrip; [|exact Hf].
    exact (JSON_parse_canonical text v Hp).
  - exact (JSON_parse_distinct text v Hp).
Qed.

(** * The store across a write *)

Lemma readPhotosList_distinct (w : world) :
  distinct_keys (JArr (readPhotosList w)) = true.
Proof.
  rewrite readPhotosList_eq.
  destruct (photosJson w) as [| |raw]; try reflexivity.
  destruct (JSON_parse raw) as [v|] eqn:E; [|reflexivity].
  pose proof (JSON_parse_distinct raw v E) as H.
  destruct v; try reflexivity. exact H.
Qed.

(** What [readPhotosList] finds after [writePhotosList list]. *)
Lemma readPhotosList_written (list : list json) (w w' : world) :
  writePhotosList list w = Ok w' ->
  numbers_roundtrip (JArr list) = true ->
  distinct_keys (JArr list) = true ->
  photosJson w' = Text (JSON_stringify (JArr list))
  /\ readPhotosList w' = list.
Proof.
  unfold writePhotosList, writeFileSync. intros H Hn Hk.
  destruct (writable w); [|discriminate]. injection H as <-.
  split; [reflexivity|].
  rewrite readPhotosList_eq; cbn [photosJson].
  rewrite (JSON_parse_stringify (JArr list) Hn Hk). reflexivity.
Qed.

Lemma readPhotosList_canonical (w : world) :
  canonical_numbers (JArr (readPhotosList w)) = true.
Proof.
  rewrite readPhotosList_eq.
  destruct (photosJson w) as [| |raw]; try reflexivity.
  destruct (JSON_parse raw) as [v|] eqn:E; [|reflexivity].
  pose proof (JSON_parse_canonical raw v E) as H.
  destruct v; try reflexivity. exact H.
Qed.

(** The list read from the store round-trips when it holds no
    infinity. *)
Lemma readPhotosList_roundtrips (w : world) :
  finite_numbers (JArr (readPhotosList w)) = true ->
  numbers_roundtrip (JArr (readPhotosList w)) = true.
Proof.
  apply canonical_numbers_roundtrip, readPhotosList_canonical.
Qed.


(** C9, as the code has it.  When the list that [readPhotosList]
    returns holds no infinity, [writePhotosList(readPhotosList())]
    leaves the list unchanged: when the write succeeds, [photos.json]
    holds the text of that list and [readPhotosList] returns the list it
    returned before; when it fails, nothing was written.  This covers
    the store that is missing, unreadable or malformed (the list is
    empty, and the file is made to hold an empty array). *)
Theorem save_load_roundtrip (w : world) :
  finite_numbers (JArr (readPhotosList w)) = true ->
  (writable w = true ->
   exists w',
     writePhotosList (readPhotosList w) w = Ok w'
     /\ photosJson w' = Text (JSON_stringify (JArr (readPhotosList w)))
     /\ readPhotosList w' = readPhotosList w)
  /\ (writable w = false ->
      writePhotosList (readPhotosList w) w = Throw EACCES).
Proof.
  intros Hf. pose proof (readPhotosList_roundtrips w Hf) as Hn. split.
  - intros Hw.
    assert (E : writePhotosList (readPhotosList w) w
                = Ok (mkWorld (Text (JSON_stringify (JArr (readPhotosList w))))
                        (writable w) (uploads w))).
    { unfold writePhotosList, writeFileSync; rewrite Hw; reflexivity. }
    eexists; split; [exact E|].
    exact (readPhotosList_written _ _ _ E Hn (readPhotosList_distinct w)).
  - intros Hw. unfold writePhotosList, writeFileSync; rewrite Hw; reflexivity.
Qed.

(** A store whose text holds a literal beyond the binary64 range: it is
    read as [Infinity], which is written back as [null]. *)
Definition overflow_world : world :=
  mkWorld (Text (u "[1e999]")) true (Some []).

(** The claim that [save(load())] leaves the loaded list unchanged for
    every content fails on that store. *)
Lemma save_load_changes_infinity :
  readPhotosList overflow_world = [JNum (Inf false)]
  /\ exists w',
       writePhotosList (readPhotosList overflow_world) overflow_world = Ok w'
       /\ readPhotosList w' = [JNull]
       /\ readPhotosList w' <> readPhotosList overflow_world.
Proof.
  split; [vm_compute; reflexivity|].
  eexists; split; [vm_compute; reflexivity|].
  split; [vm_compute; reflexivity | vm_compute; discriminate].
Qed.

Lemma save_load_roundtrip_witness :
  finite_numbers (JArr (readPhotosList scenario_world)) = true
  /\ exists w',
       writePhotosList (readPhotosList scenario_world) scenario_world = Ok w'
       /\ readPhotosList w' = [march_photo].
Proof.
  assert (Hn : finite_numbers (JArr (readPhotosList scenario_world)) = true)
    by (vm_compute; reflexivity).
  split; [exact Hn|].
  destruct (proj1 (save_load_roundtrip scenario_world Hn) eq_refl)
    as (w' & Hw & _ & Hr).
  exists w'; split; [exact Hw|].
  rewrite Hr. vm_compute. reflexivity.
Defined.

(** * Uploads *)



(** The store after [item] was appended to the list read from [w]. *)
Definition appended (item : json) (w : world) : world :=
  mkWorld (Text (JSON_stringify (JArr (readPhotosList w ++ [item]))))
    (writable w) (uploads w).


(** * Runs on concrete input *)

Lemma readPhotosList_never_fails_witness :
  readPhotosList absent_world = []
  /\ readPhotosList garbage_world = []
  /\ readPhotosList object_world = []
  /\ readPhotosList scenario_world = [march_photo].
Proof.
  split; [|split; [|split]].
  - exact (proj1 (readPhotosList_never_fails absent_world) eq_refl).
  - destruct (readPhotosList_never_fails garbage_world) as (_ & _ & H & _).
    apply (H (u "[1, 2")); [reflexivity | vm_compute; reflexivity].
  - destruct (readPhotosList_never_fails object_world) as (_ & _ & _ & H & _).
    apply (H (u "{}") (JObj [])); [reflexivity | vm_compute; reflexivity |].
    intros items; discriminate.
  - destruct (readPhotosList_never_fails scenario_world) as (_ & _ & _ & _ & _ & H).
    apply (H (JSON_stringify (JArr [march_photo]))); [reflexivity|].
    vm_compute; reflexivity.
Defined.

Lemma requireAdmin_spec_witness :
  requireAdmin secret_config admin_request = Next
  /\ requireAdmin secret_config intruder_request
     = Respond (send 401 (error_body (u "Unauthorized")))
  /\ requireAdmin (mkConfig None) admin_request
     = Respond (send 500 (error_body (u "Server missing ADMIN_TOKEN"))).
Proof.
  split; [|split].
  - destruct (requireAdmin_spec secret_config admin_request)
      as (_ & Htoken & _ & Hsecret).
    apply (Hsecret (u "s3cret") eq_refl).
    apply Htoken; reflexivity.
  - destruct (requireAdmin_spec secret_config intruder_request)
      as (_ & _ & _ & Hsecret).
    apply (Hsecret (u "s3cret") eq_refl). vm_compute; discriminate.
  - exact (proj1 (requireAdmin_spec (mkConfig None) admin_request) eq_refl).
Defined.



Lemma rejected_upload_writes_nothing_witness :
  post_api_photos_upload secret_config intruder_request 1709596800000
    scenario_world
  = (send 401 (error_body (u "Unauthorized")), scenario_world)
  /\ post_api_photos_upload (mkConfig None) admin_request 1709596800000
       scenario_world
     = (send 500 (error_body (u "Server missing ADMIN_TOKEN")), scenario_world)
  /\ post_upload (query None None) 1709596800000 scenario_world
     = (send 400 (error_body (u "No file uploaded")), scenario_world).
Proof.
  split; [|split].
  - destruct (rejected_upload_writes_nothing secret_config intruder_request
                1709596800000 scenario_world) as (_ & H & _).
    apply (H (u "s3cret") eq_refl). vm_compute; discriminate.
  - destruct (rejected_upload_writes_nothing (mkConfig None) admin_request
                1709596800000 scenario_world) as (H & _).
    apply H; reflexivity.
  - destruct (rejected_upload_writes_nothing secret_config (query None None)
                1709596800000 scenario_world) as (_ & _ & _ & H & _).
    apply H; reflexivity.
Defined.


(** * The upload middleware *)

(** ** [path.extname] *)

(** A code unit that is neither a dot nor a slash. *)
Definition plain_unit (c : N) : bool := negb (N.eqb c 46) && negb (N.eqb c 47).

Lemma extname_loop_settled (codes : jsstring) (i : Z) (st : extname_state) :
  startDot st <> -1 -> ext_end st <> -1 -> preDotState st <> 0 ->
  matchedSlash st = false ->
  let st' := extname_loop codes i st in
  startDot st' = startDot st /\ ext_end st' = ext_end st
  /\ preDotState st' <> 0.
Proof.
  revert i st; induction codes as [|code rest IH]; intros i st Hd He Hp Hm.
  - simpl; auto.
  - cbn [extname_loop]. rewrite Hm; cbn [negb].
    destruct (N.eqb code 47); [cbn; auto|].
    apply Z.eqb_neq in He; rewrite He.
    pose proof Hd as Hd'; apply Z.eqb_neq in Hd'; rewrite Hd'; cbn [negb].
    apply Z.eqb_neq in He.
    destruct (N.eqb code 46).
    + destruct (preDotState st =? 1) eqn:E1; cbn [negb].
      * apply IH; auto.
      * cbv zeta.
        match goal with |- context [extname_loop rest (i - 1) ?s] =>
          destruct (IH (i - 1) s) as (A & B & C); cbn; auto; try lia
        end.
    + cbv zeta.
      match goal with |- context [extname_loop rest (i - 1) ?s] =>
        destruct (IH (i - 1) s) as (A & B & C); cbn; auto; try lia
      end.
Qed.

(** Before a dot is seen, a plain code unit changes nothing once
    [ext_end] is set. *)
Lemma extname_loop_plain (ext rest : jsstring) (i : Z) (st : extname_state) :
  forallb plain_unit ext = true ->
  startDot st = -1 -> ext_end st <> -1 ->
  extname_loop (ext ++ rest) i st
  = extname_loop rest (i - Z.of_nat (length ext)) st.
Proof.
  revert i; induction ext as [|c ext IH]; intros i Hc Hd He.
  - simpl. f_equal; lia.
  - cbn [forallb] in Hc. apply andb_true_iff in Hc; destruct Hc as [Hc Hr].
    apply andb_true_iff in Hc; destruct Hc as [H46 H47].
    apply negb_true_iff in H46, H47.
    cbn [app extname_loop]. rewrite H47, H46.
    apply Z.eqb_neq in He; rewrite He. cbv zeta. rewrite Hd; cbn [Z.eqb Pos.eqb negb].
    apply Z.eqb_neq in He.
    rewrite (IH (i - 1) Hr Hd He). f_equal. cbn [length]; lia.
Qed.

Lemma plain_unit_spec (c : N) :
  plain_unit c = true <-> (c =? 46)%N = false /\ (c =? 47)%N = false.
Proof.
  unfold plain_unit. rewrite andb_true_iff, !negb_true_iff. reflexivity.
Qed.

(** Single steps of the pass: the first code unit of the component, the
    first dot, a plain code unit before the dot. *)
Lemma extname_loop_first (c : N) (rest : jsstring) (i : Z) (st : extname_state) :
  plain_unit c = true -> startDot st = -1 -> ext_end st = -1 ->
  extname_loop (c :: rest) i st
  = extname_loop rest (i - 1)
      (mkExtname (-1) (startPart st) (i + 1) false (preDotState st)).
Proof.
  intros Hc Hd He. apply plain_unit_spec in Hc; destruct Hc as [H46 H47].
  cbn [extname_loop]. rewrite H47, H46, He. cbn [Z.eqb Pos.eqb]. cbv zeta.
  cbn [startDot]. rewrite Hd. reflexivity.
Qed.

Lemma extname_loop_dot (rest : jsstring) (i : Z) (st : extname_state) :
  startDot st = -1 -> ext_end st <> -1 ->
  extname_loop (46%N :: rest) i st
  = extname_loop rest (i - 1)
      (mkExtname i (startPart st) (ext_end st) (matchedSlash st)
         (preDotState st)).
Proof.
  intros Hd He. cbn [extname_loop N.eqb Pos.eqb].
  apply Z.eqb_neq in He; rewrite He. cbv zeta. rewrite Hd. reflexivity.
Qed.

Lemma extname_loop_before_dot (c : N) (rest : jsstring) (i : Z)
  (st : extname_state) :
  plain_unit c = true -> startDot st <> -1 -> ext_end st <> -1 ->
  extname_loop (c :: rest) i st
  = extname_loop rest (i - 1)
      (mkExtname (startDot st) (startPart st) (ext_end st) (matchedSlash st)
         (-1)).
Proof.
  intros Hc Hd He. apply plain_unit_spec in Hc; destruct Hc as [H46 H47].
  cbn [extname_loop]. rewrite H47, H46.
  apply Z.eqb_neq in He; rewrite He. cbv zeta.
  apply Z.eqb_neq in Hd; rewrite Hd. reflexivity.
Qed.

(** The state after the pass over a name that ends in a plain code unit,
    a dot and a non-empty extension of plain code units. *)
Lemma extname_loop_name (pre ext : jsstring) (c : N) :
  plain_unit c = true -> forallb plain_unit ext = true -> ext <> [] ->
  let path := pre ++ c :: 46%N :: ext in
  let st := extname_loop (rev path) (Z.of_nat (length path) - 1)
              (mkExtname (-1) 0 (-1) true 0) in
  startDot st = Z.of_nat (length pre) + 1
  /\ ext_end st = Z.of_nat (length path)
  /\ preDotState st <> 0.
Proof.
  intros Hc He Hne path st.
  assert (Hrev : rev path = rev ext ++ 46%N :: c :: rev pre).
  { unfold path. rewrite rev_app_distr. cbn [rev].
    rewrite <- !app_assoc. reflexivity. }
  assert (Hlen : Z.of_nat (length path)
                 = Z.of_nat (length pre) + 2 + Z.of_nat (length ext)).
  { unfold path. rewrite length_app. cbn [length]. lia. }
  destruct (rev ext) as [|e0 erest] eqn:Er.
  { exfalso; apply Hne. rewrite <- (rev_involutive ext), Er; reflexivity. }
  assert (Hall : forallb plain_unit (e0 :: erest) = true).
  { rewrite <- Er, forallb_forall. intros x Hx.
    apply in_rev in Hx. revert x Hx. apply forallb_forall. exact He. }
  assert (Hl : Z.of_nat (length ext) = Z.of_nat (length erest) + 1).
  { rewrite <- (length_rev ext), Er. cbn [length]. lia. }
  cbn [forallb] in Hall. apply andb_true_iff in Hall; destruct Hall as [H0 Hrest].
  unfold st. rewrite Hrev. cbn [app].
  rewrite extname_loop_first; [|exact H0|reflexivity|reflexivity].
  cbn [startPart preDotState].
  rewrite extname_loop_plain; [|exact Hrest|reflexivity|cbn [ext_end]; lia].
  rewrite extname_loop_dot; [|reflexivity|cbn [ext_end]; lia].
  cbn [startPart ext_end matchedSlash preDotState].
  rewrite (extname_loop_before_dot c); [|exact Hc|cbn [startDot]; lia|cbn [ext_end]; lia].
  cbn [startDot startPart ext_end matchedSlash].
  match goal with |- context [extname_loop (rev pre) ?j ?s] =>
    destruct (extname_loop_settled (rev pre) j s) as (A & B & C);
      [cbn [startDot]; lia | cbn [ext_end]; lia | cbn [preDotState]; lia
      | reflexivity |]
  end.
  cbn [startDot ext_end] in A, B. rewrite A, B.
  split; [lia|]. split; [lia | exact C].
Qed.

(** [path.extname] of such a name is the dot and the extension. *)
Lemma extname_name (pre ext : jsstring) (c : N) :
  plain_unit c = true -> forallb plain_unit ext = true -> ext <> [] ->
  extname (pre ++ c :: 46%N :: ext) = 46%N :: ext.
Proof.
  intros Hc He Hne.
  destruct (extname_loop_name pre ext c Hc He Hne) as (A & B & C).
  cbv zeta in A, B, C. unfold extname.
  set (path := pre ++ c :: 46%N :: ext) in *.
  set (st := extname_loop _ _ _) in *.
  assert (Hlen : Z.of_nat (length path)
                 = Z.of_nat (length pre) + 2 + Z.of_nat (length ext)).
  { unfold path. rewrite length_app. cbn [length]. lia. }
  assert (Hpos : (0 < length ext)%nat) by (destruct ext; [congruence | cbn; lia]).
  replace (startDot st =? -1) with false by (symmetry; apply Z.eqb_neq; lia).
  replace (ext_end st =? -1) with false by (symmetry; apply Z.eqb_neq; lia).
  replace (preDotState st =? 0) with false by (symmetry; apply Z.eqb_neq; lia).
  replace (startDot st =? ext_end st - 1) with false
    by (symmetry; apply Z.eqb_neq; lia).
  rewrite andb_false_r. cbn [orb andb].
  rewrite A, B, Hlen.
  replace (Z.to_nat (Z.of_nat (length pre) + 1)) with (length (pre ++ [c]))
    by (rewrite length_app; cbn [length]; lia).
  unfold path.
  replace (pre ++ c :: 46%N :: ext) with ((pre ++ [c]) ++ 46%N :: ext)
    by (rewrite <- app_assoc; reflexivity).
  rewrite skipn_app, skipn_all, Nat.sub_diag. cbn [skipn app].
  apply firstn_all2. cbn [length]. lia.
Qed.

(** A name without a dot has no extension. *)
Lemma extname_loop_no_dot (codes : jsstring) (i : Z) (st : extname_state) :
  ~ In 46%N codes -> startDot st = -1 ->
  startDot (extname_loop codes i st) = -1.
Proof.
  revert i st; induction codes as [|c rest IH]; intros i st Hn Hd.
  - exact Hd.
  - assert (Hc : (c =? 46)%N = false).
    { apply N.eqb_neq. intros ->. apply Hn; left; reflexivity. }
    assert (Hr : ~ In 46%N rest) by (intros H; apply Hn; right; exact H).
    cbn [extname_loop]. rewrite Hc.
    destruct (N.eqb c 47).
    + destruct (negb (matchedSlash st)); [exact Hd | apply IH; assumption].
    + cbv zeta. apply IH; [exact Hr|].
      destruct (ext_end st =? -1); cbn [startDot]; rewrite Hd;
        cbn [Z.eqb Pos.eqb negb startDot]; auto.
Qed.

Lemma extname_no_dot (path : jsstring) : ~ In 46%N path -> extname path = [].
Proof.
  intros Hn. unfold extname.
  rewrite extname_loop_no_dot; [reflexivity | | reflexivity].
  intros H; apply Hn, in_rev, H.
Qed.

(** A code unit of a stored name: a digit, a lower-case letter or a
    dot. *)
Definition name_unit (c : N) : bool :=
  (is_digit c || (N.leb 97 c && N.leb c 122) || N.eqb c 46)%bool.

Lemma hex_digit_unit (d : N) : (d < 16)%N -> name_unit (hex_digit d) = true.
Proof.
  intros H. unfold name_unit, hex_digit, is_digit.
  destruct (N.ltb_spec d 10).
  - replace (48 <=? 48 + d)%N with true by (symmetry; apply N.leb_le; lia).
    replace (48 + d <=? 57)%N with true by (symmetry; apply N.leb_le; lia).
    reflexivity.
  - replace (97 <=? 87 + d)%N with true by (symmetry; apply N.leb_le; lia).
    replace (87 + d <=? 122)%N with true by (symmetry; apply N.leb_le; lia).
    cbn [andb]. apply orb_true_iff; left. apply orb_true_r.
Qed.

Lemma toString_hex_units (bytes : list Byte.byte) :
  forallb name_unit (toString_hex bytes) = true
  /\ ~ In 46%N (toString_hex bytes)
  /\ length (toString_hex bytes) = (2 * length bytes)%nat.
Proof.
  induction bytes as [|b bytes (IH1 & IH2 & IH3)].
  - repeat split; auto.
  - pose proof (Byte.to_N_bounded b) as Hb.
    assert (H1 : (Byte.to_N b / 16 < 16)%N)
      by (apply N.Div0.div_lt_upper_bound; lia).
    assert (H2 : (Byte.to_N b mod 16 < 16)%N) by (apply N.mod_lt; lia).
    unfold toString_hex in *. cbn [flat_map hex_byte app forallb length].
    rewrite (hex_digit_unit _ H1), (hex_digit_unit _ H2), IH1, IH3.
    split; [reflexivity|]. split; [|lia].
    intros [H|[H|H]]; [| |exact (IH2 H)].
    + revert H. unfold hex_digit. generalize (Byte.to_N b / 16)%N.
      intros d; destruct (N.ltb d 10); lia.
    + revert H. unfold hex_digit. generalize (Byte.to_N b mod 16)%N.
      intros d; destruct (N.ltb d 10); lia.
Qed.

Lemma safe_extensions_images (ext : jsstring) :
  In ext safe_extensions ->
  forallb name_unit ext = true /\ image_re_test ext = true
  /\ exists e, ext = 46%N :: e /\ In e image_extensions.
Proof.
  unfold safe_extensions; cbn [map In].
  intros H.
  repeat (destruct H as [<-|H];
          [split; [reflexivity|]; split; [reflexivity|];
           eexists; split; [reflexivity|]; cbn; tauto|]).
  contradiction.
Qed.

Lemma image_re_test_app (a b : jsstring) :
  image_re_test b = true -> image_re_test (a ++ b) = true.
Proof.
  intros H. induction a as [|c a IH]; [exact H|].
  change (image_re_test ((c :: a) ++ b))
    with (image_re_at (c :: a ++ b) || image_re_test (a ++ b)).
  rewrite IH. apply orb_true_r.
Qed.

Section StoredName.

Variable toLowerCase : jsstring -> jsstring.

Lemma storage_filename_eq (file : part) (randomBytes : list Byte.byte) :
  exists ext,
    In ext safe_extensions
    /\ storage_filename toLowerCase file randomBytes
       = toString_hex randomBytes ++ ext
    /\ (In (toLowerCase (extname (originalname file))) safe_extensions ->
        ext = toLowerCase (extname (originalname file)))
    /\ (~ In (toLowerCase (extname (originalname file))) safe_extensions ->
        ext = u ".jpg").
Proof.
  unfold storage_filename.
  set (ext := toLowerCase (extname (originalname file))).
  destruct (existsb (jsstring_eqb ext) safe_extensions) eqn:E.
  - apply existsb_exists in E. destruct E as (x & Hx & Hxe).
    apply jsstring_eqb_eq in Hxe. subst x.
    exists ext; repeat split; auto. intros H; contradiction.
  - exists (u ".jpg"). split; [cbn; tauto|]. split; [reflexivity|].
    split; [|reflexivity].
    intros H. exfalso.
    assert (existsb (jsstring_eqb ext) safe_extensions = true).
    { apply existsb_exists. exists ext; split; [exact H|].
      apply jsstring_eqb_refl. }
    congruence.
Qed.

End StoredName.

Lemma forallb_In {A : Type} (p : A -> bool) (l : list A) (x : A) :
  forallb p l = true -> In x l -> p x = true.
Proof. intros H Hx. rewrite forallb_forall in H. exact (H x Hx). Qed.

(** What every stored name is made of. *)
Lemma storage_filename_units (toLowerCase : jsstring -> jsstring) (file : part)
  (randomBytes : list Byte.byte) :
  forallb name_unit (storage_filename toLowerCase file randomBytes) = true
  /\ image_re_test (storage_filename toLowerCase file randomBytes) = true.
Proof.
  destruct (storage_filename_eq toLowerCase file randomBytes)
    as (ext & Hin & Hname & _).
  destruct (toString_hex_units randomBytes) as (Hu & _ & _).
  destruct (safe_extensions_images ext Hin) as (Hx & Hre & _).
  rewrite Hname, forallb_app, Hu, Hx. split; [reflexivity|].
  apply image_re_test_app, Hre.
Qed.

(** ** The stored name *)

(** X1.  The name under which an upload is stored is the hexadecimal
    text of the random bytes (two lower-case digits a byte, 24 for the
    12 bytes drawn) followed by one of the six extensions .jpg, .jpeg,
    .png, .gif, .webp and .avif, whatever name and type the client
    sent.  It holds only digits, lower-case letters and one dot; so it
    has no slash, and it does not start with a dot when bytes were
    drawn.  The regular expression of the fallback of [/random-photo]
    accepts it. *)
Theorem stored_name_shape (toLowerCase : jsstring -> jsstring) (file : part)
  (randomBytes : list Byte.byte) :
  let name := storage_filename toLowerCase file randomBytes in
  (exists ext,
     In ext safe_extensions
     /\ name = toString_hex randomBytes ++ ext
     /\ length name = (2 * length randomBytes + length ext)%nat)
  /\ forallb name_unit name = true
  /\ ~ In 47%N name
  /\ (randomBytes <> [] -> forall c rest, name = c :: rest -> c <> 46%N)
  /\ image_re_test name = true.
Proof.
  intros name.
  destruct (storage_filename_eq toLowerCase file randomBytes)
    as (ext & Hin & Hname & _).
  fold name in Hname.
  destruct (toString_hex_units randomBytes) as (_ & Hd & Hl).
  destruct (storage_filename_units toLowerCase file randomBytes) as [Hall Hre].
  fold name in Hall, Hre.
  split.
  { exists ext. split; [exact Hin|]. split; [exact Hname|].
    rewrite Hname, length_app, Hl; reflexivity. }
  split; [exact Hall|].
  split.
  { intros Hin47. pose proof (forallb_In _ _ _ Hall Hin47) as E. discriminate E. }
  split; [|exact Hre].
  intros Hne c rest E ->. apply Hd.
  destruct (toString_hex randomBytes) as [|h t] eqn:Eh.
  - destruct randomBytes; [congruence|]. discriminate Hl.
  - rewrite Hname in E. injection E as -> _. left; reflexivity.
Qed.

(** A part named [Holiday.PNG], one without extension, and three bytes
    in place of the twelve. *)
Definition holiday_part : part :=
  mkPart (u "photo") (u "Holiday.PNG") (Some (u "image/png")) false.
Definition readme_part : part :=
  mkPart (u "photo") (u "README") (Some (u "image/png")) false.
Definition three_bytes : list Byte.byte := [Byte.x00; Byte.xff; Byte.x1a].

Lemma stored_name_shape_witness :
  image_re_test (storage_filename (map ascii_lower) holiday_part three_bytes)
  = true
  /\ forall c rest,
       storage_filename (map ascii_lower) holiday_part three_bytes = c :: rest ->
       c <> 46%N.
Proof.
  destruct (stored_name_shape (map ascii_lower) holiday_part three_bytes)
    as (_ & _ & _ & Hdot & Hre).
  split; [exact Hre|]. apply Hdot. discriminate.
Defined.

Lemma plain_unit_lower (c : N) : plain_unit (ascii_lower c) = plain_unit c.
Proof.
  unfold plain_unit, ascii_lower.
  destruct (N.leb_spec 65 c); cbn [andb]; [|reflexivity].
  destruct (N.leb_spec c 90); [|reflexivity].
  replace (c + 32 =? 46)%N with false by (symmetry; apply N.eqb_neq; lia).
  replace (c + 32 =? 47)%N with false by (symmetry; apply N.eqb_neq; lia).
  replace (c =? 46)%N with false by (symmetry; apply N.eqb_neq; lia).
  replace (c =? 47)%N with false by (symmetry; apply N.eqb_neq; lia).
  reflexivity.
Qed.

Lemma image_extension_plain (ext : jsstring) :
  In (map ascii_lower ext) image_extensions ->
  forallb plain_unit ext = true /\ ext <> []
  /\ In (46%N :: map ascii_lower ext) safe_extensions.
Proof.
  intros H.
  assert (Hp : forallb plain_unit (map ascii_lower ext) = true
               /\ map ascii_lower ext <> []
               /\ In (46%N :: map ascii_lower ext) safe_extensions).
  { revert H. generalize (map ascii_lower ext). intros e.
    unfold image_extensions; cbn [map In].
    intros H.
    repeat (destruct H as [<-|H];
            [split; [reflexivity|]; split; [discriminate|]; cbn; tauto|]).
    contradiction. }
  destruct Hp as (Hp & Hne & Hs).
  split; [|split; [destruct ext; [exact Hne | discriminate] | exact Hs]].
  rewrite forallb_forall in *. intros x Hx.
  rewrite <- plain_unit_lower. apply Hp, in_map, Hx.
Qed.

(** X2.  Which extension the stored name gets.  When the client's file
    name ends in a code unit other than a dot or a slash, a dot and one
    of jpg, jpeg, png, gif, webp, avif in any mix of cases,
    [path.extname] returns that dot and extension, and the stored name
    ends in its lower-case form (the host lower-casing the ASCII letters
    as ASCII).  A name without any dot has the empty extension and is
    stored as .jpg; so is every name whose lower-cased extension is not
    one of the six. *)
Theorem stored_name_extension (toLowerCase : jsstring -> jsstring)
  (file : part) (randomBytes : list Byte.byte) :
  (forall pre c ext,
     originalname file = pre ++ c :: 46%N :: ext ->
     plain_unit c = true ->
     In (map ascii_lower ext) image_extensions ->
     toLowerCase (46%N :: ext) = 46%N :: map ascii_lower ext ->
     extname (originalname file) = 46%N :: ext
     /\ storage_filename toLowerCase file randomBytes
        = toString_hex randomBytes ++ 46%N :: map ascii_lower ext)
  /\ (~ In 46%N (originalname file) ->
      toLowerCase [] = [] ->
      extname (originalname file) = []
      /\ storage_filename toLowerCase file randomBytes
         = toString_hex randomBytes ++ u ".jpg")
  /\ (~ In (toLowerCase (extname (originalname file))) safe_extensions ->
      storage_filename toLowerCase file randomBytes
      = toString_hex randomBytes ++ u ".jpg").
Proof.
  destruct (storage_filename_eq toLowerCase file randomBytes)
    as (e & Hin & Hname & Hsafe & Hjpg).
  split; [|split].
  - intros pre c ext Ho Hc Hext Hlow.
    destruct (image_extension_plain ext Hext) as (Hp & Hne & Hs).
    assert (He : extname (originalname file) = 46%N :: ext)
      by (rewrite Ho; apply extname_name; assumption).
    split; [exact He|].
    rewrite Hname, Hsafe; rewrite He, Hlow; [reflexivity | exact Hs].
  - intros Hn Hlow.
    pose proof (extname_no_dot _ Hn) as He. split; [exact He|].
    rewrite Hname, Hjpg; [reflexivity|].
    rewrite He, Hlow. cbn. intuition discriminate.
  - intros Hn. rewrite Hname, (Hjpg Hn). reflexivity.
Qed.

Lemma stored_name_extension_witness :
  storage_filename (map ascii_lower) holiday_part three_bytes = u "00ff1a.png"
  /\ storage_filename (map ascii_lower) readme_part three_bytes
     = u "00ff1a.jpg".
Proof.
  pose proof (stored_name_extension (map ascii_lower) holiday_part three_bytes)
    as (H & _ & _).
  pose proof (stored_name_extension (map ascii_lower) readme_part three_bytes)
    as (_ & H' & _).
  split.
  - exact (proj2 (H (u "Holida") (ch "y") (u "PNG") eq_refl eq_refl
                    (or_intror (or_intror (or_introl eq_refl))) eq_refl)).
  - refine (proj2 (H' _ eq_refl)).
    cbn. intros K; repeat (destruct K as [K|K]; [discriminate K|]); exact K.
Defined.





Lemma hex_digit_inj (a b : N) :
  (a < 16)%N -> (b < 16)%N -> hex_digit a = hex_digit b -> a = b.
Proof.
  unfold hex_digit. intros Ha Hb.
  destruct (N.ltb_spec a 10), (N.ltb_spec b 10); lia.
Qed.

Lemma hex_byte_inj (a b : Byte.byte) : hex_byte a = hex_byte b -> a = b.
Proof.
  unfold hex_byte. intros H. injection H as H1 H2.
  pose proof (Byte.to_N_bounded a) as Ha.
  pose proof (Byte.to_N_bounded b) as Hb.
  apply hex_digit_inj in H1; [|apply N.Div0.div_lt_upper_bound; lia
                              |apply N.Div0.div_lt_upper_bound; lia].
  apply hex_digit_inj in H2; [|apply N.mod_lt; lia | apply N.mod_lt; lia].
  assert (E : Byte.to_N a = Byte.to_N b).
  { rewrite (N.div_mod (Byte.to_N a) 16), (N.div_mod (Byte.to_N b) 16) by lia.
    rewrite H1, H2. reflexivity. }
  apply (f_equal Byte.of_N) in E. rewrite !Byte.of_to_N in E.
  congruence.
Qed.

Lemma toString_hex_inj (a b : list Byte.byte) (x y : jsstring) :
  length a = length b ->
  toString_hex a ++ x = toString_hex b ++ y -> a = b /\ x = y.
Proof.
  revert b; induction a as [|c a IH]; intros [|d b] Hl H; try discriminate.
  - split; [reflexivity | exact H].
  - unfold toString_hex in *. cbn [flat_map] in H.
    unfold hex_byte at 1 3 in H. cbn [app] in H.
    injection H as H1 H2 H.
    assert (E : c = d) by (apply hex_byte_inj; unfold hex_byte; congruence).
    destruct (IH b) as [-> ->]; [cbn in Hl; lia | exact H|].
    subst. split; reflexivity.
Qed.

Lemma storage_filename_inj (toLowerCase : jsstring -> jsstring)
  (file file' : part) (randomBytes randomBytes' : list Byte.byte) :
  length randomBytes = length randomBytes' ->
  storage_filename toLowerCase file randomBytes
  = storage_filename toLowerCase file' randomBytes' ->
  randomBytes = randomBytes'.
Proof.
  intros Hl H.
  destruct (storage_filename_eq toLowerCase file randomBytes)
    as (e & _ & E & _).
  destruct (storage_filename_eq toLowerCase file' randomBytes')
    as (e' & _ & E' & _).
  rewrite E, E' in H. exact (proj1 (toString_hex_inj _ _ _ _ Hl H)).
Qed.

(** X20.  Stored names are as different as the random bytes.  Two
    uploads whose random bytes differ (and are equally many) get
    different names, whatever the files; so among any uploads that drew
    pairwise different bytes, twelve each, no two stored names are
    equal; and no stored name is empty. *)
Theorem stored_names_unique (toLowerCase : jsstring -> jsstring)
  (stored : list (part * list Byte.byte)) :
  (forall x, In x stored -> length (snd x) = 12%nat) ->
  NoDup (map snd stored) ->
  NoDup (map (fun x => storage_filename toLowerCase (fst x) (snd x)) stored)
  /\ forall x, In x stored ->
       storage_filename toLowerCase (fst x) (snd x) <> [].
Proof.
  intros Hlen Hnd. split.
  - induction stored as [|[file bytes] stored IH]; [constructor|].
    cbn [map fst snd] in *. inversion Hnd as [|? ? Hnotin Hnd']; subst.
    constructor.
    + intros Hin. apply in_map_iff in Hin.
      destruct Hin as ([file' bytes'] & E & Hin'). cbn [fst snd] in E.
      apply Hnotin.
      assert (Hb : bytes' = bytes).
      { apply (storage_filename_inj toLowerCase file' file); [|exact E].
        pose proof (Hlen (file', bytes') (or_intror Hin')) as L1.
        pose proof (Hlen (file, bytes) (or_introl eq_refl)) as L2.
        cbn [snd] in L1, L2. congruence. }
      subst bytes'. apply (in_map snd) in Hin'. exact Hin'.
    + apply IH; [|exact Hnd'].
      intros x Hx. apply Hlen. right; exact Hx.
  - intros [file bytes] _. cbn [fst snd].
    destruct (storage_filename_eq toLowerCase file bytes)
      as (e & Hin & E & _).
    rewrite E. intros H. apply app_eq_nil in H. destruct H as [_ ->].
    revert Hin. unfold safe_extensions. cbn.
    intros K; repeat (destruct K as [K|K]; [discriminate K|]); exact K.
Qed.

Lemma stored_names_unique_witness :
  NoDup [storage_filename (map ascii_lower) holiday_part
           [Byte.x00; Byte.x01; Byte.x02; Byte.x03; Byte.x04; Byte.x05;
            Byte.x06; Byte.x07; Byte.x08; Byte.x09; Byte.x0a; Byte.x0b];
         storage_filename (map ascii_lower) holiday_part
           [Byte.x00; Byte.x01; Byte.x02; Byte.x03; Byte.x04; Byte.x05;
            Byte.x06; Byte.x07; Byte.x08; Byte.x09; Byte.x0a; Byte.xff]].
Proof.
  refine (proj1 (stored_names_unique (map ascii_lower)
                   [(holiday_part, _); (holiday_part, _)] _ _)).
  - intros x [<-|[<-|[]]]; reflexivity.
  - repeat constructor; cbn; intuition discriminate.
Defined.

(** ** A file part on the upload routes *)



Section Parts.

Variable toLowerCase : jsstring -> jsstring.


End Parts.



(** * The answers of the routes *)

(** An answer that reports an error: a status from 400 on with a body
    [{ error: msg }], [msg] a non-empty string. *)
Definition reports_error (r : response) : Prop :=
  In (status r) [400; 401; 404; 413; 500]
  /\ exists msg, msg <> [] /\ body r = Some (error_body msg).

(** An answer that reports success: status 200 or 201 and a body. *)
Definition reports_success (r : response) : Prop :=
  (status r = 200 \/ status r = 201) /\ body r <> None.

Definition well_formed (r : response) : Prop :=
  reports_success r \/ reports_error r.

Lemma send_error (st : Z) (msg : jsstring) :
  In st [400; 401; 404; 413; 500] -> msg <> [] ->
  well_formed (send st (error_body msg)).
Proof. intros Hs Hm. right. split; [exact Hs|]. exists msg; auto. Qed.

Lemma send_success (st : Z) (b : json) :
  st = 200 \/ st = 201 -> well_formed (send st b).
Proof. intros Hs. left. split; [exact Hs | discriminate]. Qed.

Ltac error_literal :=
  apply send_error; [cbn; tauto | discriminate].

Lemma errorHandler_well_formed (e : jserror) : well_formed (errorHandler e).
Proof.
  unfold errorHandler.
  destruct (match err_code e with
            | Some c => jsstring_eqb c (u "LIMIT_FILE_SIZE")
            | None => false
            end); [error_literal|].
  destruct (nonempty (err_message e)
            && ci_includes (u "Only image uploads allowed") (err_message e));
    [error_literal|].
  apply send_error; [cbn; tauto|].
  destruct (err_message e); [discriminate | discriminate].
Qed.

Lemma handle_errors_well_formed (w : world) (r : result (response * world)) :
  (forall x, r = Ok x -> well_formed (fst x)) ->
  well_formed (fst (handle_errors w r)).
Proof.
  intros H. destruct r as [x|e]; cbn [handle_errors fst].
  - apply H; reflexivity.
  - apply errorHandler_well_formed.
Qed.

Lemma random_file_well_formed (w : world) (rnd : random) :
  well_formed (random_file w rnd).
Proof.
  unfold random_file. destruct (uploads w) as [files|]; [|error_literal].
  cbv zeta. destruct (length (filter image_re_test files) =? 0)%nat;
    [error_literal|].
  destruct (nth_error _ _); apply send_success; auto.
Qed.

(** X5.  Every answer of the six routes is well formed: either the
    status is 200 or 201 and there is a body, or the status is one of
    400, 401, 404, 413 and 500 and the body is [{ error: msg }] with a
    non-empty message.  No route answers 200 without a body (the index
    drawn is always within the list), and no error is reported with an
    empty message (an error without message is answered
    "Upload failed"). *)
Theorem answers_well_formed (h : host) (cfg : config) (req : request)
  (now : Z) (rnd : random) (w : world) :
  well_formed (get_api_photos w)
  /\ well_formed (get_api_photos_random w rnd)
  /\ well_formed (route_random_photo h w req rnd)
  /\ well_formed (fst (post_api_photos_upload cfg req now w))
  /\ well_formed (fst (post_upload req now w))
  /\ well_formed get_api_health.
Proof.
  split; [apply send_success; auto|].
  split.
  { unfold get_api_photos_random. cbv zeta.
    destruct (readPhotosList w) as [|p l] eqn:E; [error_literal|].
    destruct (nth_error_random_index (p :: l) rnd) as (pick & Hn & _);
      [discriminate|].
    cbn [length Nat.eqb]. cbn [length] in Hn. rewrite Hn.
    left; split; [auto | discriminate]. }
  split.
  { unfold route_random_photo, get_random_photo. cbv zeta.
    destruct (negb (length (readPhotosList w) =? 0)%nat);
      [|apply random_file_well_formed].
    destruct (candidates h (query_month req) (query_year req) (readPhotosList w))
      as [filtered|e]; cbn [bind try_catch]; [|apply errorHandler_well_formed].
    destruct (length filtered =? 0)%nat; [error_literal|].
    destruct (nth_error filtered _) as [pick|];
      [|apply errorHandler_well_formed].
    destruct (picked pick) as [b|e]; cbn [bind try_catch];
      [apply send_success; auto | apply errorHandler_well_formed]. }
  split.
  { unfold post_api_photos_upload.
    destruct (requireAdmin cfg req) as [|r] eqn:E.
    - apply handle_errors_well_formed. intros x.
      unfold upload_single, admin_upload_handler.
      destruct (multipart req); cbn [bind]; try discriminate.
      + intros H; injection H as <-. error_literal.
      + destruct (writePhotosList _ w); cbn [bind]; [|discriminate].
        intros H; injection H as <-. apply send_success; auto.
    - unfold requireAdmin in E. cbn [fst].
      destruct (ADMIN_TOKEN cfg); [|injection E as <-; error_literal].
      destruct (negb _); [injection E as <-; error_literal | discriminate]. }
  split; [|apply send_success; auto].
  unfold post_upload. apply handle_errors_well_formed. intros x.
  unfold upload_single, public_upload_handler.
  destruct (multipart req); cbn [bind]; try discriminate.
  - intros H; injection H as <-. error_literal.
  - destruct (writePhotosList _ w); cbn [bind]; [|discriminate].
    intros H; injection H as <-. apply send_success; auto.
Qed.

(** * The headers the admin guard accepts *)

(** X6.  The headers the admin guard lets through, told from the
    header itself: a secret must be configured and not empty, and the
    Authorization header must be [Bearer ] followed by the secret, or
    the bare secret when the secret does not itself start with
    [Bearer ].  A request without the header, or with an empty one, is
    never let through, whatever the configuration. *)
Theorem requireAdmin_accepts (cfg : config) (req : request) :
  (requireAdmin cfg req = Next <->
   exists secret,
     env_ADMIN_TOKEN cfg = Some secret /\ secret <> []
     /\ (authorization req = Some (u "Bearer " ++ secret)
         \/ (authorization req = Some secret
             /\ startsWith (u "Bearer ") secret = false)))
  /\ (authorization req = None \/ authorization req = Some [] ->
      requireAdmin cfg req <> Next).
Proof.
  assert (Hiff : requireAdmin cfg req = Next <->
    exists secret,
      env_ADMIN_TOKEN cfg = Some secret /\ secret <> []
      /\ (authorization req = Some (u "Bearer " ++ secret)
          \/ (authorization req = Some secret
              /\ startsWith (u "Bearer ") secret = false))).
  { unfold requireAdmin, ADMIN_TOKEN.
    destruct (env_ADMIN_TOKEN cfg) as [[|c0 s0]|] eqn:Ecfg; cbn [nonempty].
    - split; [discriminate | intros (s & H & Hne & _); congruence].
    - remember (c0 :: s0) as secret eqn:Hsecret.
      assert (Hne0 : secret <> []) by (subst secret; discriminate).
      clear Hsecret.
      cbv zeta. unfold presented_token, authorization_header.
      destruct (authorization req) as [hd|] eqn:Eh.
      + destruct (startsWith (u "Bearer ") hd) eqn:Es.
        * apply startsWith_prefix in Es. destruct Es as [rest ->].
          replace (slice 7 (u "Bearer " ++ rest)) with rest
            by (symmetry; apply (slice_prefix (u "Bearer ") rest)).
          destruct (jsstring_eqb rest secret) eqn:Eq; cbn [negb].
          -- apply jsstring_eqb_eq in Eq. subst rest. split; [|reflexivity].
             intros _. exists secret. split; [reflexivity|].
             split; [exact Hne0 | left; reflexivity].
          -- split; [discriminate|]. apply jsstring_eqb_neq in Eq.
             intros (s & H & Hne & [H1 | [H1 H2]]).
             ++ assert (s = secret) by congruence. subst s.
                assert (E1 : u "Bearer " ++ rest = u "Bearer " ++ secret)
                  by congruence.
                apply app_inv_head in E1. contradiction.
             ++ assert (s = secret) by congruence. subst s.
                assert (E1 : u "Bearer " ++ rest = secret) by congruence.
                assert (startsWith (u "Bearer ") secret = true).
                { apply startsWith_prefix. exists rest. symmetry; exact E1. }
                congruence.
        * destruct (jsstring_eqb hd secret) eqn:Eq; cbn [negb].
          -- apply jsstring_eqb_eq in Eq. subst hd. split; [|reflexivity].
             intros _. exists secret. split; [reflexivity|].
             split; [exact Hne0 | right; split; [reflexivity | exact Es]].
          -- split; [discriminate|]. apply jsstring_eqb_neq in Eq.
             intros (s & H & Hne & [H1 | [H1 H2]]).
             ++ assert (s = secret) by congruence. subst s.
                assert (E1 : hd = u "Bearer " ++ secret) by congruence.
                assert (startsWith (u "Bearer ") hd = true).
                { apply startsWith_prefix. exists secret. exact E1. }
                congruence.
             ++ assert (s = secret) by congruence. subst s.
                assert (E1 : hd = secret) by congruence. contradiction.
      + replace (startsWith (u "Bearer ") []) with false by reflexivity.
        destruct (jsstring_eqb [] secret) eqn:Eq; cbn [negb].
        * apply jsstring_eqb_eq in Eq. congruence.
        * split; [discriminate|].
          intros (s & H & Hne & [H1 | [H1 H2]]); discriminate.
    - split; [discriminate | intros (s & H & _); discriminate]. }
  split; [exact Hiff|].
  intros Hh Hn. apply Hiff in Hn.
  destruct Hn as (s & _ & Hne & [H1 | [H1 _]]).
  - destruct Hh as [Hh|Hh]; rewrite Hh in H1; discriminate.
  - destruct Hh as [Hh|Hh]; rewrite Hh in H1; [discriminate|].
    injection H1 as <-. apply Hne; reflexivity.
Qed.

Lemma requireAdmin_accepts_witness :
  requireAdmin secret_config admin_request = Next
  /\ requireAdmin secret_config (query None None) <> Next.
Proof.
  destruct (requireAdmin_accepts secret_config admin_request) as [H _].
  destruct (requireAdmin_accepts secret_config (query None None)) as [_ H'].
  split.
  - apply H. exists (u "s3cret"). split; [reflexivity|].
    split; [discriminate | left; reflexivity].
  - apply H'. left; reflexivity.
Defined.
(** * The store at start-up *)

(** X7.  [ensurePhotosJson], run when the server starts, leaves an
    existing [photos.json] alone, whatever it holds; it writes an empty
    array when the file is missing, and throws when that write fails.
    When it returns, the file exists, the list that [readPhotosList]
    returns is the one it returned before, the upload directory is
    untouched, and running it again changes nothing. *)
Theorem ensurePhotosJson_spec (w : world) :
  (existsSync w = true -> ensurePhotosJson w = Ok w)
  /\ (existsSync w = false -> writable w = false ->
      ensurePhotosJson w = Throw EACCES)
  /\ (forall w', ensurePhotosJson w = Ok w' ->
      existsSync w' = true
      /\ readPhotosList w' = readPhotosList w
      /\ uploads w' = uploads w
      /\ (existsSync w = false -> photosJson w' = Text (u "[]"))
      /\ ensurePhotosJson w' = Ok w').
Proof.
  unfold ensurePhotosJson, existsSync, writePhotosList, writeFileSync.
  split; [intros H; rewrite H; reflexivity|].
  split; [intros H Hw; rewrite H, Hw; reflexivity|].
  intros w'. rewrite !readPhotosList_eq.
  destruct (photosJson w) eqn:E; cbn [negb].
  - destruct (writable w); [|discriminate]. intros H; injection H as <-.
    cbn [photosJson uploads negb]. repeat split; reflexivity.
  - intros H; injection H as <-. rewrite E. cbn [negb].
    repeat split; try reflexivity. discriminate.
  - intros H; injection H as <-. rewrite E. cbn [negb].
    repeat split; try reflexivity. discriminate.
Qed.

Lemma ensurePhotosJson_spec_witness :
  exists w',
    ensurePhotosJson absent_world = Ok w'
    /\ existsSync w' = true /\ readPhotosList w' = []
    /\ ensurePhotosJson garbage_world = Ok garbage_world.
Proof.
  destruct (ensurePhotosJson_spec absent_world) as (_ & _ & H).
  destruct (ensurePhotosJson_spec garbage_world) as (H' & _).
  eexists. split; [reflexivity|].
  destruct (H _ eq_refl) as (He & Hr & _).
  split; [exact He|]. split; [exact Hr | exact (H' eq_refl)].
Defined.

(** * What a write keeps of a list *)

(** The value that [JSON.stringify] writes down for [v]: an infinity is
    written as [null], everything else as it is. *)
Fixpoint written (v : json) : json :=
  match v with
  | JNum (Inf _) => JNull
  | JArr items => JArr (map written items)
  | JObj props => JObj (map (fun kv => (fst kv, written (snd kv))) props)
  | _ => v
  end.

Lemma stringify_written (v : json) :
  forall ind, stringify_at ind (written v) = stringify_at ind v.
Proof.
  induction v as [| b | x | s | items IH | props IH] using json_induction;
    intros ind; try reflexivity.
  - destruct x as [m e|neg]; reflexivity.
  - destruct items as [|i items]; [reflexivity|].
    cbn [written map stringify_at]. do 3 f_equal.
    rewrite map_map.
    assert (E : map (fun x => stringify_at (ind ++ u "  ") (written x)) (i :: items)
                = map (fun x => stringify_at (ind ++ u "  ") x) (i :: items)).
    { apply map_ext_in. intros a Ha. rewrite Forall_forall in IH.
      apply IH, Ha. }
    cbn [map] in E. rewrite E. reflexivity.
  - destruct props as [|kv props]; [reflexivity|].
    cbn [written map stringify_at]. do 3 f_equal.
    rewrite map_map.
    assert (E : map (fun x => QuoteJSONString (fst (fst x, written (snd x)))
                              ++ u ": "
                              ++ stringify_at (ind ++ u "  ")
                                   (snd (fst x, written (snd x))))
                  (kv :: props)
                = map (fun x => QuoteJSONString (fst x) ++ u ": "
                                ++ stringify_at (ind ++ u "  ") (snd x))
                    (kv :: props)).
    { apply map_ext_in. intros a Ha. cbn [fst snd].
      rewrite Forall_forall in IH. rewrite (IH a Ha). reflexivity. }
    cbn [map] in E. cbn [fst snd] in *. rewrite E. reflexivity.
Qed.

Lemma forallb_map_Forall {A B : Type} (p : B -> bool) (q : A -> bool) (f : A -> B)
  (l : list A) :
  Forall (fun a => q a = true -> p (f a) = true) l ->
  forallb q l = true -> forallb p (map f l) = true.
Proof.
  induction 1 as [|a l Ha _ IH]; [reflexivity|].
  cbn [forallb map]. rewrite !andb_true_iff. intros [H1 H2]. auto.
Qed.

Lemma forallb_map_snd (p q : json -> bool) (f : json -> json)
  (props : list (jsstring * json)) :
  Forall (fun kv => q (snd kv) = true -> p (f (snd kv)) = true) props ->
  forallb (fun kv => q (snd kv)) props = true ->
  forallb (fun kv => p (snd kv)) (map (fun kv => (fst kv, f (snd kv))) props)
  = true.
Proof.
  induction 1 as [|a l Ha _ IH]; [reflexivity|].
  cbn [forallb map snd]. rewrite !andb_true_iff. intros [H1 H2]. auto.
Qed.

Lemma written_canonical (v : json) :
  canonical_numbers v = true -> canonical_numbers (written v) = true.
Proof.
  induction v as [| b | x | s | items IH | props IH] using json_induction;
    try (intros; reflexivity).
  - destruct x; [auto | reflexivity].
  - cbn [written canonical_numbers]. apply forallb_map_Forall. exact IH.
  - cbn [written canonical_numbers]. apply forallb_map_snd. exact IH.
Qed.

Lemma written_finite (v : json) : finite_numbers (written v) = true.
Proof.
  induction v as [| b | x | s | items IH | props IH] using json_induction;
    try reflexivity.
  - destruct x; reflexivity.
  - cbn [written finite_numbers].
    apply (forallb_map_Forall _ (fun _ => true)).
    + eapply Forall_impl; [|exact IH]. cbv beta. auto.
    + clear. induction items; auto.
  - cbn [written finite_numbers].
    apply (forallb_map_snd _ (fun _ => true)).
    + eapply Forall_impl; [|exact IH]. cbv beta. auto.
    + clear. induction props; auto.
Qed.

Lemma written_distinct (v : json) :
  distinct_keys v = true -> distinct_keys (written v) = true.
Proof.
  induction v as [| b | x | s | items IH | props IH] using json_induction;
    try (intros; reflexivity).
  - destruct x; reflexivity.
  - cbn [written distinct_keys]. apply forallb_map_Forall. exact IH.
  - cbn [written distinct_keys]. rewrite !andb_true_iff. intros [Hd Hp].
    split.
    + rewrite map_map. cbn [fst]. exact Hd.
    + revert Hp. apply forallb_map_snd. exact IH.
Qed.

(** A value without infinity is written as it is. *)
Lemma written_id (v : json) : finite_numbers v = true -> written v = v.
Proof.
  induction v as [| b | x | s | items IH | props IH] using json_induction;
    try (intros; reflexivity).
  - destruct x; [reflexivity | discriminate].
  - cbn [written finite_numbers]. intros H. f_equal.
    induction IH as [|i items Hi _ IHl]; [reflexivity|].
    cbn [forallb] in H. apply andb_true_iff in H. destruct H as [H1 H2].
    cbn [map]. rewrite (Hi H1), (IHl H2). reflexivity.
  - cbn [written finite_numbers]. intros H. f_equal.
    induction IH as [|[k x] props Hi _ IHl]; [reflexivity|].
    cbn [forallb snd] in H. apply andb_true_iff in H. destruct H as [H1 H2].
    cbn [map fst snd] in *. rewrite (Hi H1), (IHl H2). reflexivity.
Qed.

Lemma written_written (v : json) : written (written v) = written v.
Proof. apply written_id, written_finite. Qed.

(** The text of a value reads as the value written down. *)
Lemma JSON_parse_written (v : json) :
  canonical_numbers v = true -> distinct_keys v = true ->
  JSON_parse (JSON_stringify v) = Some (written v).
Proof.
  intros Hc Hd. unfold JSON_stringify.
  rewrite <- (stringify_written v []).
  apply JSON_parse_stringify.
  - apply canonical_numbers_roundtrip;
      [apply written_canonical, Hc | apply written_finite].
  - apply written_distinct, Hd.
Qed.

Lemma written_list (l : list json) : written (JArr l) = JArr (map written l).
Proof. reflexivity. Qed.

(** X8.  Reading after writing.  For a list whose numbers are as
    [JSON.parse] returns them and whose objects repeat no property name
    (every list the server writes is such), [writePhotosList(list)]
    followed by [readPhotosList()] returns the list with each infinity
    replaced by [null] and nothing else changed: the same length, the
    same order, every string, [null], boolean, nested array and object
    as it was; and the very list when it holds no infinity.  The write
    fails only when the file cannot be written. *)
Theorem write_then_read (list : list json) (w : world) :
  canonical_numbers (JArr list) = true -> distinct_keys (JArr list) = true ->
  (writable w = true ->
   exists w',
     writePhotosList list w = Ok w'
     /\ readPhotosList w' = map written list
     /\ length (readPhotosList w') = length list
     /\ (finite_numbers (JArr list) = true -> readPhotosList w' = list))
  /\ (writable w = false -> writePhotosList list w = Throw EACCES).
Proof.
  intros Hc Hd. unfold writePhotosList, writeFileSync.
  split; intros Hw; [|rewrite Hw; reflexivity].
  exists (mkWorld (Text (JSON_stringify (JArr list))) (writable w) (uploads w)).
  split; [rewrite Hw; reflexivity|].
  assert (E : readPhotosList
                (mkWorld (Text (JSON_stringify (JArr list))) (writable w) (uploads w))
              = map written list).
  { rewrite readPhotosList_eq. cbn [photosJson].
    rewrite (JSON_parse_written (JArr list) Hc Hd). reflexivity. }
  rewrite E. split; [reflexivity|]. split; [apply length_map|].
  intros Hf. apply written_id in Hf. rewrite written_list in Hf.
  injection Hf as Hf. exact Hf.
Qed.

Lemma write_then_read_witness :
  exists w',
    writePhotosList [JObj [(u "n", JNum (Fin 5 (-1)))]; JNull; JNum (Inf false)]
      absent_world = Ok w'
    /\ readPhotosList w'
       = [JObj [(u "n", JNum (Fin 5 (-1)))]; JNull; JNull].
Proof.
  destruct (write_then_read
              [JObj [(u "n", JNum (Fin 5 (-1)))]; JNull; JNum (Inf false)]
              absent_world eq_refl eq_refl) as [H _].
  destruct (H eq_refl) as (w' & Hw & Hr & _).
  exists w'. split; [exact Hw | exact Hr].
Defined.

(** X9.  [writePhotosList(readPhotosList())] on any store that can be
    written, whatever [photos.json] holds: the list read afterwards is
    the list read before with each infinity replaced by [null], of the
    same length; and doing it once more writes the same text again, so
    nothing changes any further. *)
Theorem save_load_general (w : world) :
  writable w = true ->
  exists w',
    writePhotosList (readPhotosList w) w = Ok w'
    /\ readPhotosList w' = map written (readPhotosList w)
    /\ length (readPhotosList w') = length (readPhotosList w)
    /\ writePhotosList (readPhotosList w') w' = Ok w'.
Proof.
  intros Hw.
  pose proof (readPhotosList_canonical w) as Hc.
  pose proof (readPhotosList_distinct w) as Hd.
  unfold writePhotosList, writeFileSync.
  exists (mkWorld (Text (JSON_stringify (JArr (readPhotosList w))))
            (writable w) (uploads w)).
  split; [rewrite Hw; reflexivity|].
  assert (E : readPhotosList
                (mkWorld (Text (JSON_stringify (JArr (readPhotosList w))))
                   (writable w) (uploads w))
              = map written (readPhotosList w)).
  { rewrite readPhotosList_eq at 1. cbn [photosJson].
    rewrite (JSON_parse_written _ Hc Hd). reflexivity. }
  rewrite E. split; [reflexivity|]. split; [apply length_map|].
  cbn [writable uploads]. rewrite Hw. do 2 f_equal.
  unfold JSON_stringify. rewrite <- written_list. rewrite stringify_written.
  reflexivity.
Qed.

Lemma save_load_general_witness :
  exists w',
    writePhotosList (readPhotosList overflow_world) overflow_world = Ok w'
    /\ readPhotosList w' = [JNull]
    /\ writePhotosList (readPhotosList w') w' = Ok w'.
Proof.
  destruct (save_load_general overflow_world eq_refl) as (w' & Hw & Hr & _ & Hi).
  exists w'. split; [exact Hw|]. split; [|exact Hi].
  rewrite Hr. vm_compute. reflexivity.
Defined.

(** * A sequence of uploads *)

(** One upload request: the route it is sent to, the request, and the
    clock when the handler runs. *)
Record upload : Type := mkUpload {
  to_admin_route : bool;
  upload_request : request;
  upload_time : Z
}.

Definition run_upload (cfg : config) (w : world) (x : upload) : response * world :=
  if to_admin_route x
  then post_api_photos_upload cfg (upload_request x) (upload_time x) w
  else post_upload (upload_request x) (upload_time x) w.

(** The store after the requests were served one after the other. *)
Definition run_uploads (cfg : config) (xs : list upload) (w : world) : world :=
  fold_left (fun w x => snd (run_upload cfg w x)) xs w.

(** The record an upload request adds when the store can be written:
    none unless a file was stored and, on the admin route, the guard let
    the request through. *)
Definition record_of (cfg : config) (x : upload) : option json :=
  match multipart (upload_request x) with
  | Stored name =>
      if to_admin_route x then
        match requireAdmin cfg (upload_request x) with
        | Next => Some (admin_item name (upload_time x))
        | Respond _ => None
        end
      else Some (public_item name (upload_time x))
  | _ => None
  end.

Definition records_of (cfg : config) (xs : list upload) : list json :=
  flat_map (fun x => match record_of cfg x with
                     | Some item => [item]
                     | None => []
                     end) xs.

Lemma run_upload_world (cfg : config) (w : world) (x : upload) :
  writable w = true ->
  snd (run_upload cfg w x)
  = match record_of cfg x with
    | Some item => appended item w
    | None => w
    end.
Proof.
  intros Hw. unfold run_upload, record_of, post_api_photos_upload, post_upload,
    upload_single, admin_upload_handler, public_upload_handler,
    writePhotosList, writeFileSync, appended.
  destruct (to_admin_route x).
  - destruct (requireAdmin cfg (upload_request x));
      destruct (multipart (upload_request x)); cbn [bind handle_errors snd];
      try reflexivity.
    rewrite Hw; reflexivity.
  - destruct (multipart (upload_request x)); cbn [bind handle_errors snd];
      try reflexivity.
    rewrite Hw; reflexivity.
Qed.

Lemma record_of_item (cfg : config) (x : upload) (item : json) :
  record_of cfg x = Some item ->
  canonical_numbers item = true /\ distinct_keys item = true
  /\ written item = item.
Proof.
  unfold record_of.
  destruct (multipart (upload_request x)); try discriminate.
  destruct (to_admin_route x).
  - destruct (requireAdmin cfg (upload_request x)); [|discriminate].
    intros H; injection H as <-. repeat split; reflexivity.
  - intros H; injection H as <-. repeat split; reflexivity.
Qed.

(** The list read after [item] was appended. *)
Lemma readPhotosList_appended (item : json) (w : world) :
  canonical_numbers item = true -> distinct_keys item = true ->
  readPhotosList (appended item w)
  = map written (readPhotosList w) ++ [written item].
Proof.
  intros Hc Hd. unfold appended. rewrite readPhotosList_eq at 1.
  cbn [photosJson]. rewrite JSON_parse_written.
  - rewrite written_list, map_app. reflexivity.
  - pose proof (readPhotosList_canonical w) as H.
    cbn [canonical_numbers] in *. rewrite forallb_app, H. cbn [forallb].
    rewrite Hc; reflexivity.
  - pose proof (readPhotosList_distinct w) as H.
    cbn [distinct_keys] in *. rewrite forallb_app, H. cbn [forallb].
    rewrite Hd; reflexivity.
Qed.

Lemma map_written_written (l : list json) :
  map written (map written l) = map written l.
Proof.
  rewrite map_map. apply map_ext. intros v. apply written_written.
Qed.

(** X10.  The store is append-only.  After any sequence of upload
    requests on either route, accepted or not, served one after the
    other on a store that can be written, the list read is the list
    read at the start followed by one record for each request that had
    a file stored (and, on the admin route, passed the guard), in the
    order of the requests.  No record is lost, reordered or changed by a
    later upload; the only change to the earlier content is that the
    first write turns its infinities into [null]. *)
Theorem uploads_accumulate (cfg : config) (xs : list upload) (w : world) :
  writable w = true ->
  readPhotosList (run_uploads cfg xs w)
  = (match records_of cfg xs with
     | [] => readPhotosList w
     | _ :: _ => map written (readPhotosList w)
     end) ++ records_of cfg xs.
Proof.
  revert w; induction xs as [|x xs IH]; intros w Hw.
  - cbn. rewrite app_nil_r. reflexivity.
  - unfold run_uploads in *. cbn [fold_left].
    rewrite (run_upload_world cfg w x Hw).
    unfold records_of in *. cbn [flat_map].
    destruct (record_of cfg x) as [item|] eqn:E.
    + destruct (record_of_item cfg x item E) as (Hc & Hd & Hwr).
      rewrite (IH (appended item w) Hw).
      rewrite (readPhotosList_appended item w Hc Hd), Hwr.
      cbn [app].
      destruct (flat_map _ xs) as [|r rs].
      * rewrite app_nil_r. reflexivity.
      * rewrite map_app, map_written_written. cbn [map]. rewrite Hwr.
        rewrite <- app_assoc. reflexivity.
    + cbn [app]. exact (IH w Hw).
Qed.

Lemma uploads_accumulate_witness :
  readPhotosList
    (run_uploads secret_config
       [mkUpload false admin_request 1709596800000;
        mkUpload true intruder_request 1709596800001;
        mkUpload true admin_request 1709596800002]
       absent_world)
  = [public_item (u "ab12cd34.png") 1709596800000;
     admin_item (u "ab12cd34.png") 1709596800002].
Proof.
  rewrite (uploads_accumulate secret_config _ absent_world eq_refl).
  reflexivity.
Defined.

(** * Time stamps: what [toISOString] writes, [Date.parse] reads *)

(** The last [w] decimal digits of [n], most significant first. *)
Fixpoint fixed (w : nat) (n : Z) : jsstring :=
  match w with
  | O => []
  | S w' => fixed w' (n / 10) ++ [digit_char (n mod 10)]
  end.

Lemma fixed_zero (w : nat) : fixed w 0 = repeat (ch "0") w.
Proof.
  induction w as [|w IH]; [reflexivity|].
  cbn [fixed]. change (0 / 10) with 0. rewrite IH.
  change [digit_char (0 mod 10)] with (repeat (ch "0") 1).
  rewrite <- repeat_app. f_equal. lia.
Qed.

Lemma length_digits_pos (n : Z) : 0 <= n -> (1 <= length (digits n))%nat.
Proof.
  intros Hn. destruct (Z.ltb_spec n 10).
  - rewrite digits_small by lia. cbn; lia.
  - rewrite digits_step by lia. rewrite length_app. cbn [length]. lia.
Qed.

(** A number below [10^w] padded to [w] digits is its [w] last digits. *)
Lemma pad_fixed (w : nat) (n : Z) :
  0 <= n < 10 ^ Z.of_nat w -> (1 <= w)%nat -> pad w n = fixed w n.
Proof.
  revert n; induction w as [|w IH]; intros n Hn Hw; [lia|].
  destruct (Z.ltb_spec n 10) as [Hs|Hl].
  - unfold pad. rewrite digits_small by lia. cbn [length fixed].
    rewrite Z.div_small, Z.mod_small, fixed_zero by lia.
    f_equal. f_equal. lia.
  - assert (H10 : 0 <= n / 10 < 10 ^ Z.of_nat w).
    { rewrite Nat2Z.inj_succ, Z.pow_succ_r in Hn by lia. lia_div. }
    assert (Hw' : (1 <= w)%nat).
    { destruct w; [|lia]. cbn in Hn. lia. }
    cbn [fixed]. rewrite <- (IH (n / 10) H10 Hw').
    unfold pad. rewrite (digits_step n Hl), length_app. cbn [length].
    replace (S w - (length (digits (n / 10)) + 1))%nat
      with (w - length (digits (n / 10)))%nat by lia.
    rewrite app_assoc. reflexivity.
Qed.

Lemma number2_digits (a b : Z) :
  0 <= a < 10 -> 0 <= b < 10 ->
  number2 (digit_char a) (digit_char b) = Some (10 * a + b).
Proof.
  intros Ha Hb. unfold number2.
  rewrite !is_digit_char by assumption. cbn [andb].
  unfold digits_val. cbn [fold_left]. rewrite !digit_val_char by assumption.
  f_equal; lia.
Qed.

Lemma number2_fixed (n : Z) :
  0 <= n < 100 ->
  exists a b, fixed 2 n = [a; b] /\ number2 a b = Some n.
Proof.
  intros Hn. exists (digit_char (n / 10 mod 10)), (digit_char (n mod 10)).
  split; [reflexivity|].
  rewrite number2_digits by lia_div. f_equal. lia_div.
Qed.

(** How the host of the examples reads a date and time written in the
    format of [toISOString]. *)
Lemma iso_parse_fields (y m d hh mi s ms : Z) :
  0 <= y <= 9999 -> 1 <= m <= 12 ->
  1 <= d <= month_start (if isLeap y then 1 else 0) m
            - month_start (if isLeap y then 1 else 0) (m - 1) ->
  0 <= hh < 24 -> 0 <= mi < 60 -> 0 <= s < 60 -> 0 <= ms < 1000 ->
  iso_parse (fixed 4 y ++ u "-" ++ fixed 2 m ++ u "-" ++ fixed 2 d
             ++ u "T" ++ fixed 2 hh ++ u ":" ++ fixed 2 mi ++ u ":"
             ++ fixed 2 s ++ u "." ++ fixed 3 ms ++ u "Z")
  = Some (MakeDate y (m - 1) d 0 0 0 0
          + (hh * 3600000 + mi * 60000 + s * 1000 + ms)).
Proof.
  intros Hy Hm Hd Hh Hmi Hs Hms.
  assert (Hdd : 0 <= d < 100).
  { destruct (isLeap y);
      assert (m = 1 \/ m = 2 \/ m = 3 \/ m = 4 \/ m = 5 \/ m = 6 \/ m = 7
              \/ m = 8 \/ m = 9 \/ m = 10 \/ m = 11 \/ m = 12) as Hc by lia;
      repeat (destruct Hc as [->|Hc]; [cbn in Hd; lia|]); subst; cbn in Hd; lia. }
  destruct (number2_fixed m) as (m1 & m2 & Em & Nm); [lia|].
  destruct (number2_fixed d) as (a1 & a2 & Ea & Na); [lia|].
  destruct (number2_fixed hh) as (h1 & h2 & Eh & Nh); [lia|].
  destruct (number2_fixed mi) as (i1 & i2 & Ei & Ni); [lia|].
  destruct (number2_fixed s) as (s1 & s2 & Es & Ns); [lia|].
  rewrite Em, Ea, Eh, Ei, Es.
  cbn [fixed app u map list_ascii_of_string N_of_ascii].
  unfold iso_parse.
  cbn [N.eqb Pos.eqb andb forallb].
  rewrite !is_digit_char by lia_div. cbn [andb].
  rewrite Nm, Na.
  unfold iso_time. rewrite Nh, Ni, Ns.
  cbn [N.eqb Pos.eqb andb forallb].
  rewrite !is_digit_char by lia_div. cbn [andb].
  replace (hh <? 24) with true by (symmetry; apply Z.ltb_lt; lia).
  replace (mi <? 60) with true by (symmetry; apply Z.ltb_lt; lia).
  replace (s <? 60) with true by (symmetry; apply Z.ltb_lt; lia).
  assert (Ey : digits_val
                 [digit_char (y / 10 / 10 / 10 mod 10);
                  digit_char (y / 10 / 10 mod 10);
                  digit_char (y / 10 mod 10); digit_char (y mod 10)] = y).
  { unfold digits_val. cbn [fold_left]. rewrite !digit_val_char by lia_div.
    lia_div. }
  assert (Ems : digits_val
                  [digit_char (ms / 10 / 10 mod 10); digit_char (ms / 10 mod 10);
                   digit_char (ms mod 10)] = ms).
  { unfold digits_val. cbn [fold_left]. rewrite !digit_val_char by lia_div.
    lia_div. }
  rewrite Ey, Ems.
  replace (1 <=? m) with true by (symmetry; apply Z.leb_le; lia).
  replace (m <=? 12) with true by (symmetry; apply Z.leb_le; lia).
  replace (1 <=? d) with true by (symmetry; apply Z.leb_le; lia).
  match goal with |- context [d <=? ?x] =>
    replace (d <=? x) with true by (symmetry; apply Z.leb_le; lia)
  end.
  reflexivity.
Qed.

Lemma InLeapYear_eq (t : Z) :
  InLeapYear t = if isLeap (YearFromTime t) then 1 else 0.
Proof. reflexivity. Qed.

(** The month found is the one whose days hold the day of the year. *)
Lemma MonthFromTime_spec (t : Z) :
  0 <= MonthFromTime t <= 11
  /\ month_start (InLeapYear t) (MonthFromTime t) <= DayWithinYear t
     < month_start (InLeapYear t) (MonthFromTime t + 1).
Proof.
  pose proof (DayWithinYear_range t) as Hr.
  unfold MonthFromTime, DaysInYear in *. rewrite InLeapYear_eq.
  destruct (isLeap (YearFromTime t));
    repeat match goal with
           | |- context [if ?a <? ?b then _ else _] => destruct (Z.ltb_spec a b)
           end; cbn; lia.
Qed.

Lemma DateFromTime_range (t : Z) :
  1 <= DateFromTime t
  <= month_start (InLeapYear t) (MonthFromTime t + 1)
     - month_start (InLeapYear t) (MonthFromTime t).
Proof.
  pose proof (MonthFromTime_spec t) as [_ H]. unfold DateFromTime. lia.
Qed.

Lemma time_fields (t : Z) :
  HourFromTime t * 3600000 + MinFromTime t * 60000 + SecFromTime t * 1000
  + msFromTime t = TimeWithinDay t.
Proof.
  unfold HourFromTime, MinFromTime, SecFromTime, msFromTime, TimeWithinDay,
    msPerDay.
  lia_div.
Qed.

Lemma toISOString_fixed (t : Z) :
  0 <= YearFromTime t <= 9999 ->
  toISOString t
  = fixed 4 (YearFromTime t) ++ u "-" ++ fixed 2 (MonthFromTime t + 1)
    ++ u "-" ++ fixed 2 (DateFromTime t) ++ u "T" ++ fixed 2 (HourFromTime t)
    ++ u ":" ++ fixed 2 (MinFromTime t) ++ u ":" ++ fixed 2 (SecFromTime t)
    ++ u "." ++ fixed 3 (msFromTime t) ++ u "Z".
Proof.
  intros Hy. unfold toISOString. cbv zeta.
  replace ((0 <=? YearFromTime t) && (YearFromTime t <=? 9999)) with true
    by (symmetry; apply andb_true_iff; split; apply Z.leb_le; lia).
  pose proof (MonthFromTime_spec t) as [Hm _].
  pose proof (DateFromTime_range t) as Hd.
  assert (Hd' : 1 <= DateFromTime t <= 31).
  { revert Hd. generalize (DateFromTime t). intros d.
    rewrite InLeapYear_eq. destruct (isLeap (YearFromTime t));
      assert (Hc : MonthFromTime t = 0 \/ MonthFromTime t = 1
                   \/ MonthFromTime t = 2 \/ MonthFromTime t = 3
                   \/ MonthFromTime t = 4 \/ MonthFromTime t = 5
                   \/ MonthFromTime t = 6 \/ MonthFromTime t = 7
                   \/ MonthFromTime t = 8 \/ MonthFromTime t = 9
                   \/ MonthFromTime t = 10 \/ MonthFromTime t = 11) by lia;
      repeat (destruct Hc as [->|Hc]; [cbn; lia|]); rewrite Hc; cbn; lia. }
  rewrite (pad_fixed 4), !(pad_fixed 2), (pad_fixed 3); try lia;
    unfold HourFromTime, MinFromTime, SecFromTime, msFromTime;
    try (cbn [Z.of_nat Pos.of_succ_nat Pos.succ Z.pow Z.pow_pos Pos.iter Z.mul Pos.mul];
         lia_div).
  reflexivity.
Qed.

Lemma iso_parse_toISOString (t : Z) :
  0 <= YearFromTime t <= 9999 -> iso_parse (toISOString t) = Some t.
Proof.
  intros Hy. rewrite (toISOString_fixed t Hy).
  pose proof (MonthFromTime_spec t) as [Hm Hw].
  pose proof (DateFromTime_range t) as Hd.
  rewrite InLeapYear_eq in Hd, Hw.
  rewrite iso_parse_fields; try lia.
  - f_equal. rewrite time_fields. unfold MakeDate.
    replace (MonthFromTime t + 1 - 1) with (MonthFromTime t) by lia.
    unfold DateFromTime. rewrite InLeapYear_eq.
    unfold DayWithinYear, TimeWithinDay, Day, msPerDay. lia_div.
  - replace (MonthFromTime t + 1 - 1) with (MonthFromTime t) by lia. exact Hd.
  - unfold HourFromTime; lia_div.
  - unfold MinFromTime; lia_div.
  - unfold SecFromTime; lia_div.
  - unfold msFromTime; lia_div.
Qed.

(** The time values of the years 0 to 9999. *)
Lemma YearFromTime_range (t : Z) :
  -62167219200000 <= t <= 253402300799999 -> 0 <= YearFromTime t <= 9999.
Proof.
  intros Ht. unfold YearFromTime.
  pose proof (YearFromDay_spec (Day t)) as Hy.
  assert (Hd : -719528 <= Day t <= 2932896) by (unfold Day, msPerDay; lia_div).
  revert Hy. generalize (YearFromDay (Day t)). intros y.
  unfold DayFromYear. intros Hy. lia_div.
Qed.

(** X11.  The time stamp of an upload reads back as the instant of the
    upload.  For every instant of the years 0 to 9999,
    [new Date(...)] of the string that [toISOString] wrote is that
    instant again, on a host that reads the format of [toISOString]
    (year, month, day, hours, minutes, seconds and milliseconds in UTC);
    so the effective date of the record of either upload route is the
    instant at which the handler ran. *)
Theorem upload_time_read_back (now : Z) :
  -62167219200000 <= now <= 253402300799999 ->
  length (toISOString now) = 24%nat
  /\ Date_new utc_host (JStr (toISOString now)) = Some now
  /\ getFullYear utc_host (Date_new utc_host (JStr (toISOString now)))
     = Some (YearFromTime now)
  /\ getMonth utc_host (Date_new utc_host (JStr (toISOString now)))
     = Some (MonthFromTime now).
Proof.
  intros Ht. pose proof (YearFromTime_range now Ht) as Hy.
  assert (Hp : Date_new utc_host (JStr (toISOString now)) = Some now)
    by (exact (iso_parse_toISOString now Hy)).
  split; [rewrite (toISOString_fixed now Hy); reflexivity|].
  split; [exact Hp|]. rewrite Hp.
  cbn [getFullYear getMonth option_map]. unfold LocalTime.
  cbn [LocalTZA utc_host]. unfold UTC. rewrite Z.add_0_r. split; reflexivity.
Qed.

Lemma upload_time_read_back_witness :
  Date_new utc_host (JStr (toISOString 1709596800000)) = Some 1709596800000.
Proof.
  refine (proj1 (proj2 (upload_time_read_back 1709596800000 _))). lia.
Defined.

(** * From an upload to the selection by date *)



Section Found.

Variable h : host.





Lemma item_not_null (name : jsstring) (now : Z) (item : json) :
  item = admin_item name now \/ item = public_item name now ->
  item <> JNull /\ canonical_numbers item = true /\ distinct_keys item = true
  /\ written item = item.
Proof. intros [-> | ->]; repeat split; discriminate. Qed.



End Found.


(** * Filters that match nothing *)









(** * What is read of a query parameter *)








(** * The draw is uniform *)








(** * The answer of [/random-photo] carries a [url] *)





(** * The text without gap *)

Fixpoint compact_elements (items : list json) (rest : jsstring) : jsstring :=
  match items with
  | [] => u "]" ++ rest
  | v :: vs => u "," ++ stringify_compact v ++ compact_elements vs rest
  end.

Definition compact_member (kv : jsstring * json) : jsstring :=
  QuoteJSONString (fst kv) ++ u ":" ++ stringify_compact (snd kv).

Fixpoint compact_members (props : list (jsstring * json)) (rest : jsstring) :
  jsstring :=
  match props with
  | [] => u "}" ++ rest
  | kv :: kvs => u "," ++ compact_member kv ++ compact_members kvs rest
  end.

Lemma compact_array (v : json) (vs : list json) (rest : jsstring) :
  stringify_compact (JArr (v :: vs)) ++ rest
  = u "[" ++ stringify_compact v ++ compact_elements vs rest.
Proof.
  cbn [stringify_compact]. rewrite <- !app_assoc. f_equal.
  rewrite join_tail; cbv beta. f_equal.
  induction vs as [|v' vs IH]; [reflexivity|].
  cbn [fold_right compact_elements]. rewrite IH. reflexivity.
Qed.

Lemma compact_object (kv : jsstring * json) (kvs : list (jsstring * json))
  (rest : jsstring) :
  stringify_compact (JObj (kv :: kvs)) ++ rest
  = u "{" ++ compact_member kv ++ compact_members kvs rest.
Proof.
  cbn [stringify_compact]. rewrite <- !app_assoc. f_equal.
  rewrite join_tail; cbv beta. unfold compact_member at 1.
  rewrite <- !app_assoc. do 3 f_equal.
  induction kvs as [|kv' kvs IH]; [reflexivity|].
  cbn [fold_right compact_members]. unfold compact_member at 1.
  rewrite <- !app_assoc, IH. reflexivity.
Qed.

Lemma compact_first (v : json) :
  numbers_roundtrip v = true ->
  exists c t, stringify_compact v = c :: t
              /\ is_ws c = false /\ N.eqb c 93 = false /\ N.eqb c 125 = false.
Proof.
  intros Hn. destruct v as [| [|] | x | s | items | props];
    try (eexists _, _; split; [reflexivity | repeat split; reflexivity]).
  cbn [numbers_roundtrip] in Hn.
  destruct (number_roundtrips_spec x Hn) as (c & tok & E & _ & Hc & _).
  destruct (digit_not_special c Hc) as (W & _ & _ & _ & B & C).
  exists c, tok; cbn [stringify_compact]; auto.
Qed.

Lemma parse_members_compact (f : nat) (k s : jsstring) :
  parse_members (S f) (QuoteJSONString k ++ u ":" ++ s)
  = match parse_value f s with
    | Some (v, rest) =>
        match skip_ws rest with
        | c :: rest' =>
            if N.eqb c 44 then
              match parse_members f rest' with
              | Some (ms, rest'') => Some ((k, v) :: ms, rest'')
              | None => None
              end
            else if N.eqb c 125 then Some ([(k, v)], rest')
            else None
        | [] => None
        end
    | None => None
    end.
Proof.
  cbn [parse_members].
  unfold QuoteJSONString. rewrite <- !app_assoc.
  cbn [app skip_ws is_ws N.eqb Pos.eqb orb].
  rewrite parse_chars_quote.
  cbn [app u map list_ascii_of_string skip_ws].
  change (is_ws (N_of_ascii ":")) with false. cbv iota.
  change (N.eqb (N_of_ascii ":") 58) with true. cbv iota.
  reflexivity.
Qed.

Lemma follows_compact_elements (vs : list json) (rest : jsstring) :
  follows (compact_elements vs rest) = true.
Proof. destruct vs; reflexivity. Qed.

Lemma follows_compact_members (kvs : list (jsstring * json)) (rest : jsstring) :
  follows (compact_members kvs rest) = true.
Proof. destruct kvs; reflexivity. Qed.

Lemma parse_compact (fuel : nat) :
  (forall v rest,
     (size v <= fuel)%nat ->
     numbers_roundtrip v = true -> distinct_keys v = true ->
     follows rest = true ->
     parse_value fuel (stringify_compact v ++ rest) = Some (v, rest))
  /\ (forall v vs rest,
        (elements_size (v :: vs) <= fuel)%nat ->
        forallb (fun i => numbers_roundtrip i) (v :: vs) = true ->
        forallb (fun i => distinct_keys i) (v :: vs) = true ->
        parse_elements fuel (stringify_compact v ++ compact_elements vs rest)
        = Some (v :: vs, rest))
  /\ (forall kv kvs rest,
        (members_size (kv :: kvs) <= fuel)%nat ->
        forallb (fun kv => numbers_roundtrip (snd kv)) (kv :: kvs) = true ->
        forallb (fun kv => distinct_keys (snd kv)) (kv :: kvs) = true ->
        parse_members fuel (compact_member kv ++ compact_members kvs rest)
        = Some (kv :: kvs, rest)).
Proof.
  induction fuel as [|f (IHv & IHe & IHm)].
  { repeat split; intros.
    - destruct v; simpl in H; lia.
    - simpl in H; lia.
    - simpl in H; lia. }
  split; [|split].
  - intros v rest Hsize Hnum Hkeys Hrest.
    destruct v as [| [|] | x | s | [|i items] | [|kv props]];
      try reflexivity.
    + apply parse_value_number; assumption.
    + cbn [stringify_compact]; unfold QuoteJSONString.
      rewrite <- !app_assoc.
      cbn [parse_value app skip_ws is_ws N.eqb Pos.eqb orb].
      rewrite parse_chars_quote. reflexivity.
    + rewrite compact_array.
      cbn [numbers_roundtrip] in Hnum. cbn [distinct_keys] in Hkeys.
      assert (Hi : numbers_roundtrip i = true).
      { cbn [forallb] in Hnum; apply andb_true_iff in Hnum; tauto. }
      destruct (compact_first i Hi) as (c & t & E & W & B & _).
      rewrite (parse_value_array f _ c (t ++ compact_elements items rest)).
      * rewrite IHe; [reflexivity | | exact Hnum | exact Hkeys].
        cbn [size] in Hsize. fold (elements_size (i :: items)) in Hsize. lia.
      * rewrite E. apply skip_ws_stop; exact W.
      * exact B.
    + rewrite compact_object.
      cbn [numbers_roundtrip] in Hnum. cbn [distinct_keys] in Hkeys.
      apply andb_true_iff in Hkeys; destruct Hkeys as [Hdist Hkeys].
      rewrite (parse_value_object f _ 34%N
                 (quote_chars (fst kv) ++ [34%N] ++ u ":"
                  ++ stringify_compact (snd kv)
                  ++ compact_members props rest)).
      * rewrite IHm; [ | | exact Hnum | exact Hkeys].
        -- rewrite (fold_obj_set (kv :: props) []);
             [reflexivity | apply distinct_NoDup; exact Hdist].
        -- cbn [size] in Hsize. fold (members_size (kv :: props)) in Hsize. lia.
      * unfold compact_member, QuoteJSONString. rewrite <- !app_assoc.
        reflexivity.
      * reflexivity.
  - intros v vs rest Hsize Hnum Hkeys.
    cbn [forallb] in Hnum; apply andb_true_iff in Hnum; destruct Hnum as [Hv Hvs].
    cbn [forallb] in Hkeys; apply andb_true_iff in Hkeys; destruct Hkeys as [Kv Kvs].
    cbn [elements_size fold_right] in Hsize. fold (elements_size vs) in Hsize.
    assert (Hpv : parse_value f (stringify_compact v ++ compact_elements vs rest)
                  = Some (v, compact_elements vs rest)).
    { apply IHv; [lia | exact Hv | exact Kv | apply follows_compact_elements]. }
    destruct vs as [|v' vs].
    + apply (parse_elements_last f _ v _ rest Hpv). reflexivity.
    + rewrite (parse_elements_more f _ v _
                 (stringify_compact v' ++ compact_elements vs rest) Hpv);
        [|reflexivity].
      rewrite IHe; [reflexivity | | exact Hvs | exact Kvs].
      fold (elements_size (v' :: vs)) in Hsize. lia.
  - intros kv kvs rest Hsize Hnum Hkeys.
    cbn [forallb] in Hnum; apply andb_true_iff in Hnum; destruct Hnum as [Hv Hvs].
    cbn [forallb] in Hkeys; apply andb_true_iff in Hkeys; destruct Hkeys as [Kv Kvs].
    cbn [members_size fold_right] in Hsize. fold (members_size kvs) in Hsize.
    unfold compact_member at 1. rewrite <- !app_assoc.
    rewrite parse_members_compact.
    rewrite IHv; [ | lia | exact Hv | exact Kv | apply follows_compact_members].
    destruct kvs as [|kv' kvs].
    + destruct kv; reflexivity.
    + cbn [compact_members]. cbn [app u map list_ascii_of_string skip_ws].
      change (is_ws (N_of_ascii ",")) with false. cbv iota.
      change (N.eqb (N_of_ascii ",") 44) with true. cbv iota.
      rewrite IHm; [destruct kv; reflexivity | | exact Hvs | exact Kvs].
      fold (members_size (kv' :: kvs)) in Hsize. lia.
Qed.

(** [JSON.parse] reads the text without gap as the value written. *)
Lemma JSON_parse_compact (v : json) :
  numbers_roundtrip v = true -> distinct_keys v = true ->
  JSON_parse (stringify_compact v) = Some v.
Proof.
  intros Hn Hk. unfold JSON_parse.
  set (text := stringify_compact v).
  destruct (parse_compact (size v + (2 * length text + 2))) as [Hv _].
  specialize (Hv v [] ltac:(lia) Hn Hk eq_refl).
  rewrite app_nil_r in Hv. fold text in Hv.
  rewrite <- (JSON_parse_fuel text (size v + (2 * length text + 2))) by lia.
  rewrite Hv. reflexivity.
Qed.

(** * What arrives at the client *)

Lemma compact_written (v : json) :
  stringify_compact (written v) = stringify_compact v.
Proof.
  induction v as [| b | x | s | items IH | props IH] using json_induction;
    try reflexivity.
  - destruct x as [m e|neg]; reflexivity.
  - cbn [written stringify_compact]. do 3 f_equal.
    rewrite map_map. apply map_ext_in. intros a Ha.
    rewrite Forall_forall in IH. apply IH, Ha.
  - cbn [written stringify_compact]. do 3 f_equal.
    rewrite map_map. apply map_ext_in. intros a Ha. cbn [fst snd].
    rewrite Forall_forall in IH. rewrite (IH a Ha). reflexivity.
Qed.

(** A value as it arrives: its infinities are [null]. *)
Lemma res_json_written (res : response) (b : json) :
  body res = Some b ->
  canonical_numbers b = true -> distinct_keys b = true ->
  res_json res = Ok (written b).
Proof.
  intros Hb Hc Hd. unfold res_json, JSON_parse_or_throw. rewrite Hb.
  rewrite <- compact_written.
  rewrite JSON_parse_compact; [reflexivity| |].
  - apply canonical_numbers_roundtrip;
      [apply written_canonical, Hc | apply written_finite].
  - apply written_distinct, Hd.
Qed.


Section Transmitted.

(** A property of values that strings have, that the properties of an
    object inherit, and that an object has when its properties have it
    and their names differ. *)
Variable p : json -> bool.
Hypothesis p_string : forall s, p (JStr s) = true.
Hypothesis p_inherit :
  forall props, p (JObj props) = true ->
    forallb (fun kv => p (snd kv)) props = true.
Hypothesis p_object :
  forall props, forallb (fun kv => p (snd kv)) props = true ->
    distinct (map fst props) = true -> p (JObj props) = true.




End Transmitted.
















(** X19.  What a client of the listing routes receives.  The body of
    [GET /api/health] reads as [{ ok: true }].  The body of
    [GET /api/photos], read with [res.json()], is the list that
    [readPhotosList] returned with each infinity replaced by [null];
    after an upload it ends with the record of that upload.  The body
    of a 200 answer of [GET /api/photos/random] is an element of the
    list, its infinities replaced by [null]. *)
Theorem listing_received (w : world) :
  res_json get_api_health = Ok (JObj [(u "ok", JBool true)])
  /\ res_json (get_api_photos w) = Ok (JArr (map written (readPhotosList w)))
  /\ (forall name now item,
        item = admin_item name now \/ item = public_item name now ->
        res_json (get_api_photos (appended item w))
        = Ok (JArr (map written (readPhotosList w) ++ [item])))
  /\ (forall rnd,
        readPhotosList w <> [] ->
        exists pick,
          In pick (readPhotosList w)
          /\ get_api_photos_random w rnd = send 200 pick
          /\ res_json (get_api_photos_random w rnd) = Ok (written pick)).
Proof.
  assert (Hall : forall w0,
            res_json (get_api_photos w0)
            = Ok (JArr (map written (readPhotosList w0)))).
  { intros w0.
    rewrite (res_json_written (get_api_photos w0) (JArr (readPhotosList w0))
               eq_refl (readPhotosList_canonical w0)
               (readPhotosList_distinct w0)).
    reflexivity. }
  split; [vm_compute; reflexivity|].
  split; [apply Hall|]. split.
  - intros name now item Hitem. rewrite Hall.
    destruct (item_not_null name now item Hitem) as (_ & Hc & Hd & Hw).
    rewrite (readPhotosList_appended item w Hc Hd), Hw.
    rewrite map_app, map_written_written. cbn [map]. rewrite Hw. reflexivity.
  - intros rnd Hne.
    destruct (nth_error_random_index (readPhotosList w) rnd Hne)
      as (pick & Hn & Hin).
    exists pick. split; [exact Hin|].
    assert (E : get_api_photos_random w rnd = send 200 pick).
    { unfold get_api_photos_random. cbv zeta.
      apply length_eqb_0_false in Hne. rewrite Hne, Hn. reflexivity. }
    split; [exact E|]. rewrite E.
    apply (res_json_written (send 200 pick) pick eq_refl).
    + exact (forallb_In _ _ _ (readPhotosList_canonical w) Hin).
    + exact (forallb_In _ _ _ (readPhotosList_distinct w) Hin).
Qed.

Lemma listing_received_witness :
  res_json (get_api_photos
              (appended (admin_item (u "ab12cd34.png") 1709596800000)
                 absent_world))
  = Ok (JArr [admin_item (u "ab12cd34.png") 1709596800000]).
Proof.
  destruct (listing_received absent_world) as (_ & _ & H & _).
  exact (H (u "ab12cd34.png") 1709596800000 _ (or_introl eq_refl)).
Defined.

(** ** Records without a time stamp *)

Lemma local_epoch (t : Z) :
  (0 <= t < msPerDay -> YearFromTime t = 1970 /\ MonthFromTime t = 0)
  /\ (- msPerDay <= t < 0 -> YearFromTime t = 1969 /\ MonthFromTime t = 11).
Proof.
  split; intros Ht.
  - assert (Hd : Day t = 0) by (unfold Day; apply Z.div_small; exact Ht).
    unfold MonthFromTime, DayWithinYear, InLeapYear, YearFromTime.
    rewrite Hd. split; reflexivity.
  - assert (Hd : Day t = -1) by (unfold Day, msPerDay in *; lia_div).
    unfold MonthFromTime, DayWithinYear, InLeapYear, YearFromTime.
    rewrite Hd. split; reflexivity.
Qed.

(** X21.  A record without a truthy [uploadedAt] and without a truthy
    [dateUploaded] (absent, [null], an empty string, zero or [false]),
    and every element of the list that is no object and not [null], has
    the epoch as its effective date.  It is filed under January 1970 on
    a server whose local time is UTC or ahead of it (by less than a
    day), and under December 1969 on a server whose local time is
    behind UTC: there [year=1970] does not select it and [year=1969]
    with [month=11] or [month=12] does. *)
Theorem record_without_time_stamp (h : host) (p : json) :
  p <> JNull ->
  (forall props, p = JObj props ->
     truthy (lookup (u "uploadedAt") props) = false
     /\ truthy (lookup (u "dateUploaded") props) = false) ->
  effective_date h p = Ok (Some 0)
  /\ (0 <= LocalTZA h 0 < msPerDay ->
      year_keeps h (Some (QStr (u "1970"))) p = true
      /\ month_keeps h (Some (QStr (u "0"))) p = true
      /\ year_keeps h (Some (QStr (u "1969"))) p = false)
  /\ (- msPerDay <= LocalTZA h 0 < 0 ->
      year_keeps h (Some (QStr (u "1969"))) p = true
      /\ month_keeps h (Some (QStr (u "11"))) p = true
      /\ month_keeps h (Some (QStr (u "12"))) p = true
      /\ year_keeps h (Some (QStr (u "1970"))) p = false).
Proof.
  intros Hn Hp.
  assert (He : effective_date h p = Ok (Some 0)).
  { destruct p as [| b | x | s | items | props]; try reflexivity.
    - congruence.
    - destruct (Hp props eq_refl) as [Ha Hb].
      rewrite effective_date_object.
      destruct (lookup (u "uploadedAt") props) as [a|],
               (lookup (u "dateUploaded") props) as [b|];
        cbn [truthy] in Ha, Hb; rewrite ?Ha, ?Hb; reflexivity. }
  split; [exact He|].
  unfold year_keeps, month_keeps, date_matches. rewrite He.
  cbn [q_truthy nonempty u map list_ascii_of_string getFullYear getMonth
       option_map].
  unfold LocalTime. rewrite Z.add_0_l.
  destruct (local_epoch (LocalTZA h 0)) as [Hpos Hneg].
  split; intros Ht.
  - destruct (Hpos Ht) as [-> ->]. repeat split; reflexivity.
  - destruct (Hneg Ht) as [-> ->]. repeat split; reflexivity.
Qed.

(** A host four hours behind UTC. *)
Definition western_host : host := mkHost (fun _ => -14400000) iso_parse.

Lemma record_without_time_stamp_witness :
  year_keeps western_host (Some (QStr (u "1969")))
    (JObj [(u "filename", JStr (u "a.jpg"))]) = true
  /\ year_keeps utc_host (Some (QStr (u "1970")))
       (JObj [(u "filename", JStr (u "a.jpg"))]) = true.
Proof.
  assert (Hp : forall props,
            JObj [(u "filename", JStr (u "a.jpg"))] = JObj props ->
            truthy (lookup (u "uploadedAt") props) = false
            /\ truthy (lookup (u "dateUploaded") props) = false).
  { intros props E. injection E as <-. split; reflexivity. }
  destruct (record_without_time_stamp western_host
              (JObj [(u "filename", JStr (u "a.jpg"))])
              ltac:(discriminate) Hp) as (_ & _ & Hw).
  destruct (record_without_time_stamp utc_host
              (JObj [(u "filename", JStr (u "a.jpg"))])
              ltac:(discriminate) Hp) as (_ & Hu & _).
  split.
  - apply Hw. cbn. unfold msPerDay. lia.
  - apply Hu. cbn. unfold UTC, msPerDay. lia.
Defined.

(** ** The model at work *)

Example toISOString_epoch : toISOString 0 = u "1970-01-01T00:00:00.000Z".
Proof. vm_compute; reflexivity. Qed.

Example toISOString_leap_day :
  toISOString 951782400000 = u "2000-02-29T00:00:00.000Z"
  /\ toISOString (-1) = u "1969-12-31T23:59:59.999Z"
  /\ toISOString 8640000000000000 = u "+275760-09-13T00:00:00.000Z".
Proof. repeat split; vm_compute; reflexivity. Qed.

Example iso_parse_reads_toISOString :
  iso_parse (u "2024-03-05T00:00:00Z") = Some 1709596800000
  /\ iso_parse (toISOString 1709596800000) = Some 1709596800000
  /\ iso_parse (u "2023-02-29") = None.
Proof. repeat split; vm_compute; reflexivity. Qed.

Example number_texts :
  map number_toString
    [Fin 15 2; Fin 15 (-1); Fin 1 21; Fin 123 (-9); Fin 1 (-6); Fin (-25) (-1)]
  = map u ["1500"; "1.5"; "1e+21"; "1.23e-7"; "0.000001"; "-2.5"]%string.
Proof. vm_compute; reflexivity. Qed.

Example JSON_parse_values :
  JSON_parse (u " [1, -2.50, 1e3, 1e999, 1e-999, true, null, [], {}] ")
  = Some (JArr [JNum (Fin 1 0); JNum (Fin (-25) (-1)); JNum (Fin 1 3);
                JNum (Inf false); JNum (Fin 0 0); JBool true; JNull;
                JArr []; JObj []])
  /\ JSON_parse (u "[1,]") = None
  /\ JSON_parse (u "[01]") = None
  /\ JSON_parse (u "[1 2]") = None
  /\ JSON_parse (u "") = None.
Proof. repeat split; vm_compute; reflexivity. Qed.

Example JSON_stringify_store :
  JSON_stringify (JArr [JObj [(u "n", JNum (Fin 5 (-1)))]])
  = u "[" ++ newline ++ u "  {" ++ newline
    ++ u "    " ++ QuoteJSONString (u "n") ++ u ": 0.5" ++ newline
    ++ u "  }" ++ newline ++ u "]".
Proof. vm_compute; reflexivity. Qed.

(** The scenario of the specification: one photo of 5 March 2024;
    [year=2024&month=2] returns it, [year=2023] finds none. *)
Example scenario_march :
  route_random_photo utc_host scenario_world
    (query (Some "2"%string) (Some "2024"%string)) (mkRandom 0 0)
  = send 200 (JObj [(u "filename", JStr (u "a.jpg"));
                    (u "url", JStr (u "/photos/a.jpg"));
                    (u "uploadedAt", JStr (u "2024-03-05T00:00:00Z"))])
  /\ route_random_photo utc_host scenario_world
       (query None (Some "2023"%string)) (mkRandom 0 0)
     = send 404 (error_body (u "No photos found for this filter")).
Proof. split; vm_compute; reflexivity. Qed.

(** [month=12] is December, [month=11] too, [month=1] is February. *)
Example months_of_the_query :
  candidates utc_host (Some (QStr (u "12"))) None
    [january_photo; march_photo; december_photo] = Ok [december_photo]
  /\ candidates utc_host (Some (QStr (u "11"))) None
       [january_photo; march_photo; december_photo] = Ok [december_photo]
  /\ candidates utc_host (Some (QStr (u "1"))) None
       [january_photo; march_photo; december_photo] = Ok []
  /\ candidates utc_host (Some (QStr (u "2"))) None
       [january_photo; march_photo; december_photo] = Ok [march_photo].
Proof. repeat split; vm_compute; reflexivity. Qed.

(** A [null] in the stored array makes a filter throw; the error handler
    answers 500 with the message of the [TypeError]. *)
Example null_element_throws :
  route_random_photo utc_host (mkWorld (Text (u "[null]")) true (Some []))
    (query None (Some "2024"%string)) (mkRandom 0 0)
  = send 500 (error_body (err_message (TypeError_null uploadedAt))).
Proof. vm_compute; reflexivity. Qed.

(** The open route appends a record with both time stamps. *)
Example public_upload_run :
  post_upload admin_request 1709596800000 absent_world
  = (send 200 (public_upload_body (u "ab12cd34.png") 1709596800000),
     appended (public_item (u "ab12cd34.png") 1709596800000) absent_world)
  /\ readPhotosList
       (appended (public_item (u "ab12cd34.png") 1709596800000) absent_world)
     = [JObj [(u "filename", JStr (u "ab12cd34.png"));
              (u "url", JStr (u "/photos/ab12cd34.png"));
              (u "uploadedAt", JStr (u "2024-03-05T00:00:00.000Z"));
              (u "dateUploaded", JStr (u "2024-03-05T00:00:00.000Z"))]].
Proof. split; vm_compute; reflexivity. Qed.

(** [path.extname] on the names of Node's manual, on a path, and on
    names made of dots. *)
Example extname_of_the_manual :
  map extname
    (map u ["index.html"; "index.coffee.md"; "index."; "index"; ".index";
            ".index.md"; "dir.d/photo.JPG"; "dir.d/photo"; "photo.png/";
            ".."; "..."]%string)
  = map u [".html"; ".md"; "."; ""; ""; ".md"; ".JPG"; ""; ".png"; ""; "."]%string.
Proof. vm_compute; reflexivity. Qed.

(** What [upload.single('photo')] makes of a part: stored, refused by
    the filter, refused for its size, not counted for want of a name. *)
Example single_outcomes :
  single (map ascii_lower) (u "photo") (Some holiday_part) three_bytes
  = Stored (u "00ff1a.png")
  /\ single (map ascii_lower) (u "photo")
       (Some (mkPart (u "photo") (u "notes.txt") None false)) three_bytes
     = Rejected (mkError None (u "Only image uploads allowed"))
  /\ single (map ascii_lower) (u "photo")
       (Some (mkPart (u "photo") (u "big.png") (Some (u "image/png")) true))
       three_bytes
     = Rejected LIMIT_FILE_SIZE
  /\ single (map ascii_lower) (u "photo")
       (Some (mkPart (u "photo") [] (Some (u "image/png")) false)) three_bytes
     = NoFile.
Proof. repeat split; vm_compute; reflexivity. Qed.

(** The text [res.json] sends for a record, and what the page makes of
    it. *)
Example page_of_a_record :
  stringify_compact (JObj [(u "n", JNum (Fin 5 (-1))); (u "l", JArr [JNull])])
  = u "{" ++ QuoteJSONString (u "n") ++ u ":0.5,"
    ++ QuoteJSONString (u "l") ++ u ":[null]}"
  /\ public_first_visit
       (route_random_photo utc_host scenario_world page_request (mkRandom 0 0))
     = Some (innerHTML (img (Some (JStr (u "/photos/a.jpg"))))).
Proof. split; vm_compute; reflexivity. Qed.
